(** * otel-aws-log-parser: parsers, grouping, batching and delivery

    A shallow embedding of the Go sources of the log pipeline:
    - [pkg/parser/cloudfront_parser.go]  (tab separated CloudFront records),
    - the NLB parser and its anchored pattern,
    - the S3 key helper [ParseRegionAccountFromS3Key],
    - the lambda entry point: [readAndParseFromS3], [convertAndSend],
      [sendWithRetry] and [getResourceKey].

    Go strings are byte sequences and are modelled by [string] (a list of
    [ascii] bytes); Go's [int], [int64] and [time.Duration] are 64-bit and
    are modelled by [Z] with the wrap-around written out ([wrap64]). *)

From Stdlib Require Import ZArith Ascii String List Lia Bool Arith.
From stdpp Require Import base option list gmap strings relations.
From Stdlib Require Import Permutation Floats.

Import ListNotations.
Open Scope string_scope.

(** ** Bytes and small string helpers *)

Definition byte_of (n : nat) : ascii := ascii_of_nat n.

Definition tab : ascii := byte_of 9.

Definition str1 (c : ascii) : string := String c EmptyString.

(** [s ++ [c]] on strings. *)
Definition snoc (s : string) (c : ascii) : string := s +:+ str1 c.

Fixpoint str_rev (s : string) : string :=
  match s with
  | EmptyString => EmptyString
  | String c r => snoc (str_rev r) c
  end.

Definition str_eqb (a b : string) : bool := String.eqb a b.

(** 64-bit two's complement wrap-around of Go's [int], [int64] and
    [time.Duration]. *)
Definition wrap64 (z : Z) : Z := ((z + 2 ^ 63) mod 2 ^ 64 - 2 ^ 63)%Z.

Definition maxInt64 : Z := (2 ^ 63 - 1)%Z.
Definition minInt64 : Z := (- 2 ^ 63)%Z.

(** ** Go's [strings] package (the functions the parsers call) *)

Module GoStrings.

(** [asciiSpace] of package [strings]: tab, newline, vertical tab, form
    feed, carriage return and space. *)
Definition asciiSpace (c : ascii) : bool :=
  let n := nat_of_ascii c in
  (((9 <=? n) && (n <=? 13)) || (n =? 32))%nat.

(** The two-byte UTF-8 encodings of white space: U+0085 and U+00A0. *)
Definition space2 (b1 b2 : ascii) : bool :=
  ((nat_of_ascii b1 =? 194) &&
   ((nat_of_ascii b2 =? 133) || (nat_of_ascii b2 =? 160)))%nat.

(** The three-byte UTF-8 encodings of white space: U+1680, U+2000..U+200A,
    U+2028, U+2029, U+202F, U+205F and U+3000. *)
Definition space3 (b1 b2 b3 : ascii) : bool :=
  let n1 := nat_of_ascii b1 in
  let n2 := nat_of_ascii b2 in
  let n3 := nat_of_ascii b3 in
  (((n1 =? 225) && (n2 =? 154) && (n3 =? 128))
   || ((n1 =? 226) && (n2 =? 128) &&
       (((128 <=? n3) && (n3 <=? 138)) || (n3 =? 168) || (n3 =? 169) || (n3 =? 175)))
   || ((n1 =? 226) && (n2 =? 129) && (n3 =? 159))
   || ((n1 =? 227) && (n2 =? 128) && (n3 =? 128)))%nat.

(** [TrimLeftFunc s unicode.IsSpace]: drops leading white-space runes. *)
Fixpoint trimLeft (s : string) : string :=
  match s with
  | EmptyString => EmptyString
  | String b1 r1 =>
      if asciiSpace b1 then trimLeft r1
      else match r1 with
           | EmptyString => s
           | String b2 r2 =>
               if space2 b1 b2 then trimLeft r2
               else match r2 with
                    | EmptyString => s
                    | String b3 r3 => if space3 b1 b2 b3 then trimLeft r3 else s
                    end
           end
  end.

(** The same scan over the reversed string: [DecodeLastRune] reads the
    encodings back to front. *)
Fixpoint trimLeftRev (s : string) : string :=
  match s with
  | EmptyString => EmptyString
  | String b1 r1 =>
      if asciiSpace b1 then trimLeftRev r1
      else match r1 with
           | EmptyString => s
           | String b2 r2 =>
               if space2 b2 b1 then trimLeftRev r2
               else match r2 with
                    | EmptyString => s
                    | String b3 r3 => if space3 b3 b2 b1 then trimLeftRev r3 else s
                    end
           end
  end.

(** [TrimRightFunc s unicode.IsSpace]. *)
Definition trimRight (s : string) : string := str_rev (trimLeftRev (str_rev s)).

(** [strings.TrimSpace]: all leading and trailing white space removed, as
    defined by Unicode. *)
Definition TrimSpace (s : string) : string := trimRight (trimLeft s).

(** [strings.HasPrefix]. *)
Definition HasPrefix (s p : string) : bool := String.prefix p s.

(** [strings.Split s sep] for a separator of one byte: the substrings
    between the separators, [count sep + 1] of them. *)
Fixpoint Split (s : string) (sep : ascii) : list string :=
  match s with
  | EmptyString => [EmptyString]
  | String c r =>
      if Ascii.eqb c sep then EmptyString :: Split r sep
      else match Split r sep with
           | [] => [str1 c]
           | f :: fs => String c f :: fs
           end
  end.

(** [strings.Join elems sep] for a separator of one byte. *)
Fixpoint Join (elems : list string) (sep : ascii) : string :=
  match elems with
  | [] => EmptyString
  | [e] => e
  | e :: es => e +:+ String sep (Join es sep)
  end.

(** Number of occurrences of a byte, [strings.Count] for one byte. *)
Fixpoint Count (s : string) (c : ascii) : nat :=
  match s with
  | EmptyString => 0%nat
  | String d r => ((if Ascii.eqb d c then 1 else 0) + Count r c)%nat
  end.

End GoStrings.

(** ** Go's [strconv] integer parsing *)

Module GoStrconv.

Inductive NumError : Type :=
| ErrSyntax
| ErrRange.

Definition isDigit (c : ascii) : bool :=
  let n := nat_of_ascii c in ((48 <=? n) && (n <=? 57))%nat.

Definition digitVal (c : ascii) : Z := Z.of_nat (nat_of_ascii c - 48).

Definition maxUint64 : Z := (2 ^ 64 - 1)%Z.

(** The digit loop of [ParseUint s 10 64]: [n] is the value read so far.
    A byte that is not a decimal digit is a syntax error; an overflow
    returns at once with the maximum value and a range error, before the
    rest of the string is looked at. *)
Fixpoint parseUintLoop (s : string) (n : Z) : Z * option NumError :=
  match s with
  | EmptyString => (n, None)
  | String c r =>
      if isDigit c then
        if (maxUint64 / 10 + 1 <=? n)%Z then (maxUint64, Some ErrRange)
        else
          let n1 := (n * 10 + digitVal c)%Z in
          if (maxUint64 <? n1)%Z then (maxUint64, Some ErrRange)
          else parseUintLoop r n1
      else (0%Z, Some ErrSyntax)
  end.

Definition ParseUint (s : string) : Z * option NumError :=
  match s with
  | EmptyString => (0%Z, Some ErrSyntax)
  | _ => parseUintLoop s 0%Z
  end.

(** [strconv.ParseInt s 10 64]. *)
Definition ParseInt (s : string) : Z * option NumError :=
  match s with
  | EmptyString => (0%Z, Some ErrSyntax)
  | String c r =>
      let neg := Ascii.eqb c "-" in
      let digits := if Ascii.eqb c "+" || neg then r else s in
      match ParseUint digits with
      | (_, Some ErrSyntax) => (0%Z, Some ErrSyntax)
      | (un, _) =>
          let cutoff := (2 ^ 63)%Z in
          if negb neg && (cutoff <=? un)%Z then ((cutoff - 1)%Z, Some ErrRange)
          else if neg && (cutoff <? un)%Z then ((- cutoff)%Z, Some ErrRange)
          else ((if neg then - un else un)%Z, None)
      end
  end.

(** The fast path of [strconv.Atoi] for strings of fewer than 19 bytes. *)
Fixpoint atoiLoop (s : string) (n : Z) : option Z :=
  match s with
  | EmptyString => Some n
  | String c r => if isDigit c then atoiLoop r (n * 10 + digitVal c)%Z else None
  end.

(** [strconv.Atoi] on a 64-bit platform. *)
Definition Atoi (s : string) : Z * option NumError :=
  let sLen := String.length s in
  if ((0 <? sLen) && (sLen <? 19))%nat then
    match s with
    | EmptyString => (0%Z, Some ErrSyntax)
    | String c r =>
        let signed := Ascii.eqb c "-" || Ascii.eqb c "+" in
        let digits := if signed then r else s in
        if signed && (String.length digits <? 1)%nat then (0%Z, Some ErrSyntax)
        else match atoiLoop digits 0%Z with
             | None => (0%Z, Some ErrSyntax)
             | Some n => ((if Ascii.eqb c "-" then - n else n)%Z, None)
             end
    end
  else ParseInt s.

End GoStrconv.

(** The outcome of a line parser, Go's pair of an entry pointer and an
    error: [(nil, nil)] for a skipped line, [(nil, err)] for a malformed
    one, [(entry, nil)] for a parsed one. *)
Inductive parse_result (Entry Err : Type) : Type :=
| Skipped
| Failed (err : Err)
| Parsed (entry : Entry).

Arguments Skipped {Entry Err}.
Arguments Failed {Entry Err} err.
Arguments Parsed {Entry Err} entry.

(** ** [pkg/parser/cloudfront_parser.go] *)

Module CloudFront.
Import GoStrings GoStrconv.

Section Parser.

(** [float64] and [strconv.ParseFloat s 64] are taken as given: the parser
    keeps the value [ParseFloat] returns and drops its error. *)
Variable float64 : Type.
Variable float64_zero : float64.
Variable ParseFloat : string -> float64 * option NumError.

Record CloudFrontLogEntry : Type := {
  Date : string;
  Time : string;
  XEdgeLocation : string;
  SCBytes : Z;
  CIP : string;
  CSMethod : string;
  CSHost : string;
  CSURIStem : string;
  SCStatus : Z;
  CSReferer : string;
  CSUserAgent : string;
  CSURIQuery : string;
  CSCookie : string;
  XEdgeResultType : string;
  XEdgeRequestID : string;
  XHostHeader : string;
  CSProtocol : string;
  CSBytes : Z;
  TimeTaken : float64;
  XForwardedFor : string;
  SSLProtocol : string;
  SSLCipher : string;
  XEdgeResponseResultType : string;
  CSProtocolVersion : string;
  FLEStatus : string;
  FLEEncryptedFields : Z;
  CPort : Z;
  TimeToFirstByte : float64;
  XEdgeDetailedResultType : string;
  SCContentType : string;
  SCContentLen : Z;
  SCRangeStart : string;
  SCRangeEnd : string
}.

(** [fmt.Errorf("invalid number of fields: got %d, expected 33", ...)]. *)
Inductive ParseErr : Type :=
| InvalidNumberOfFields (got : nat).

Definition isAbsent (s : string) : bool := String.eqb s "-" || String.eqb s "".

Definition parseCFInt (s : string) : Z :=
  if isAbsent s then 0%Z else fst (Atoi s).

Definition parseCFInt64 (s : string) : Z :=
  if isAbsent s then 0%Z else fst (ParseInt s).

Definition parseCFFloat (s : string) : float64 :=
  if isAbsent s then float64_zero else fst (ParseFloat s).

(** [fields[i]]; the parser indexes only below the length it has checked. *)
Definition field (fields : list string) (i : nat) : string := nth i fields "".

Definition ParseCloudFrontLogLine (line : string)
  : parse_result CloudFrontLogEntry ParseErr :=
  let line := TrimSpace line in
  if String.eqb line "" || HasPrefix line "#" then Skipped
  else
    let fields := Split line tab in
    if (List.length fields <? 33)%nat then
      Failed (InvalidNumberOfFields (List.length fields))
    else
      Parsed {|
        Date := field fields 0;
        Time := field fields 1;
        XEdgeLocation := field fields 2;
        SCBytes := parseCFInt64 (field fields 3);
        CIP := field fields 4;
        CSMethod := field fields 5;
        CSHost := field fields 6;
        CSURIStem := field fields 7;
        SCStatus := parseCFInt (field fields 8);
        CSReferer := field fields 9;
        CSUserAgent := field fields 10;
        CSURIQuery := field fields 11;
        CSCookie := field fields 12;
        XEdgeResultType := field fields 13;
        XEdgeRequestID := field fields 14;
        XHostHeader := field fields 15;
        CSProtocol := field fields 16;
        CSBytes := parseCFInt64 (field fields 17);
        TimeTaken := parseCFFloat (field fields 18);
        XForwardedFor := field fields 19;
        SSLProtocol := field fields 20;
        SSLCipher := field fields 21;
        XEdgeResponseResultType := field fields 22;
        CSProtocolVersion := field fields 23;
        FLEStatus := field fields 24;
        FLEEncryptedFields := parseCFInt (field fields 25);
        CPort := parseCFInt (field fields 26);
        TimeToFirstByte := parseCFFloat (field fields 27);
        XEdgeDetailedResultType := field fields 28;
        SCContentType := field fields 29;
        SCContentLen := parseCFInt64 (field fields 30);
        SCRangeStart := field fields 31;
        SCRangeEnd := field fields 32
      |}.

End Parser.

Arguments Date {float64} _.
Arguments Time {float64} _.
Arguments XEdgeLocation {float64} _.
Arguments SCBytes {float64} _.
Arguments CIP {float64} _.
Arguments CSMethod {float64} _.
Arguments CSHost {float64} _.
Arguments CSURIStem {float64} _.
Arguments SCStatus {float64} _.
Arguments CSReferer {float64} _.
Arguments CSUserAgent {float64} _.
Arguments CSURIQuery {float64} _.
Arguments CSCookie {float64} _.
Arguments XEdgeResultType {float64} _.
Arguments XEdgeRequestID {float64} _.
Arguments XHostHeader {float64} _.
Arguments CSProtocol {float64} _.
Arguments CSBytes {float64} _.
Arguments TimeTaken {float64} _.
Arguments XForwardedFor {float64} _.
Arguments SSLProtocol {float64} _.
Arguments SSLCipher {float64} _.
Arguments XEdgeResponseResultType {float64} _.
Arguments CSProtocolVersion {float64} _.
Arguments FLEStatus {float64} _.
Arguments FLEEncryptedFields {float64} _.
Arguments CPort {float64} _.
Arguments TimeToFirstByte {float64} _.
Arguments XEdgeDetailedResultType {float64} _.
Arguments SCContentType {float64} _.
Arguments SCContentLen {float64} _.
Arguments SCRangeStart {float64} _.
Arguments SCRangeEnd {float64} _.

End CloudFront.

(** ** Go's [regexp], for the two patterns of the repository

    Both patterns are sequences of literal bytes and of repeated byte
    classes ([[^ ]*], [[0-9]*], [\d+], [[^/]+]), some of them capturing
    groups. Go matches leftmost-first: a repetition is greedy, and gives
    bytes back one at a time when the rest of the pattern fails. All the
    literals and class bounds are ASCII, so matching bytes and matching
    UTF-8 runes select the same substrings. *)

Module GoRegexp.

Inductive item : Type :=
| Lit (c : ascii)
| Rep (capture : bool) (min : nat) (cls : ascii -> bool).

Definition pattern : Type := list item.

Fixpoint lits (s : string) : pattern :=
  match s with
  | EmptyString => []
  | String c r => Lit c :: lits r
  end.

(** The greedy loop of a repeated class, with [k] the match of the rest of
    the pattern: one more byte of the class is tried first; when that
    fails the repetition stops here, if it has its minimum. [taken] is
    the text of the repetition so far and [n] its length. *)
Fixpoint rep (k : string -> option (list string * string))
    (capture : bool) (mn : nat) (cls : ascii -> bool)
    (taken : string) (n : nat) (s : string) {struct s}
  : option (list string * string) :=
  let stop :=
    if (mn <=? n)%nat then
      match k s with
      | Some (groups, rest) =>
          Some (if capture then taken :: groups else groups, rest)
      | None => None
      end
    else None in
  match s with
  | String c s' =>
      if cls c then
        match rep k capture mn cls (snoc taken c) (S n) s' with
        | Some r => Some r
        | None => stop
        end
      else stop
  | EmptyString => stop
  end.

(** [match_here p s]: the pattern matched at the start of [s]; the result
    has the captured groups in order and the input left after the match. *)
Fixpoint match_here (p : pattern) (s : string) {struct p}
  : option (list string * string) :=
  match p with
  | [] => Some ([], s)
  | Lit c :: p' =>
      match s with
      | String c' s' => if Ascii.eqb c c' then match_here p' s' else None
      | EmptyString => None
      end
  | Rep capture mn cls :: p' =>
      rep (match_here p') capture mn cls EmptyString 0%nat s
  end.

(** The first [n] bytes of [s]. *)
Fixpoint str_take (n : nat) (s : string) : string :=
  match n, s with
  | S n', String c r => String c (str_take n' r)
  | _, _ => EmptyString
  end.

(** [FindStringSubmatch] for a pattern anchored with [^]: the whole match
    followed by the groups, or [nil]. *)
Definition FindStringSubmatchAnchored (p : pattern) (s : string)
  : option (list string) :=
  match match_here p s with
  | Some (groups, rest) =>
      Some (str_take (String.length s - String.length rest) s :: groups)
  | None => None
  end.

(** [FindStringSubmatch] for a pattern without anchor: the leftmost
    position at which the pattern matches. *)
Fixpoint FindStringSubmatch (p : pattern) (s : string) : option (list string) :=
  match FindStringSubmatchAnchored p s with
  | Some m => Some m
  | None =>
      match s with
      | EmptyString => None
      | String _ r => FindStringSubmatch p r
      end
  end.

End GoRegexp.

(** ** The S3 key helper of package [processor] *)

Module S3Key.
Import GoRegexp GoStrconv.

Definition notSlash (c : ascii) : bool := negb (Ascii.eqb c "/").

(** [AWSLogs/(\d+)/[^/]+/([^/]+)/] *)
Definition awsLogsKeyPattern : pattern :=
  (lits "AWSLogs/" ++
   [Rep true 1 isDigit; Lit "/"; Rep false 1 notSlash; Lit "/";
    Rep true 1 notSlash; Lit "/"])%list.

Definition ParseRegionAccountFromS3Key (key : string) : string * string :=
  match FindStringSubmatch awsLogsKeyPattern key with
  | Some matches =>
      if (3 <=? List.length matches)%nat
      then (nth 1 matches "", nth 2 matches "")
      else ("", "")
  | None => ("", "")
  end.

End S3Key.

(** ** The NLB parser of package [parser] *)

Module NLB.
Import GoStrings GoStrconv GoRegexp.

Definition notSpace (c : ascii) : bool := negb (Ascii.eqb c " ").
Definition dashDotDigit (c : ascii) : bool :=
  Ascii.eqb c "-" || Ascii.eqb c "." || isDigit c.
Definition dashDigit (c : ascii) : bool := Ascii.eqb c "-" || isDigit c.

Definition field_ : item := Rep true 0 notSpace.
Definition port_ : item := Rep true 0 isDigit.
Definition float_ : item := Rep true 0 dashDotDigit.
Definition count_ : item := Rep true 0 dashDigit.
Definition sp : item := Lit " ".

(** The pattern [nlbLogPattern], anchored at the start of the line:
    five fields, [client:port], [target:port], two timings, two byte
    counts, nine fields and the handshake time in milliseconds. *)
Definition nlbLogPattern : pattern :=
  [field_; sp; field_; sp; field_; sp; field_; sp; field_; sp;
   field_; Lit ":"; port_; sp;
   field_; Lit ":"; port_; sp;
   float_; sp; float_; sp; count_; sp; count_; sp;
   field_; sp; field_; sp; field_; sp; field_; sp; field_; sp;
   field_; sp; field_; sp; field_; sp; field_; sp;
   float_].

Section Parser.

Variable float64 : Type.
Variable float64_zero : float64.
Variable ParseFloat : string -> float64 * option NumError.

Record NLBLogEntry : Type := {
  Type_ : string;
  Version : string;
  Time : string;
  ELB : string;
  ListenerID : string;
  ClientIP : string;
  ClientPort : Z;
  TargetIP : string;
  TargetPort : Z;
  ConnectionTime : float64;
  TLSHandshakeTime : float64;
  ReceivedBytes : Z;
  SentBytes : Z;
  IncomingTLSAlert : string;
  ChosenCertARN : string;
  ChosenCertSerial : string;
  TLSCipher : string;
  TLSProtocolVersion : string;
  TLSNamedGroup : string;
  DomainName : string;
  ALPNProtocol : string;
  ALPNClientPreferenceList : string;
  TLSHandshakeTimeMS : float64
}.

(** [fmt.Errorf("failed to parse NLB log line")]. *)
Inductive ParseErr : Type :=
| FailedToParseNLBLogLine.

Definition isAbsent (s : string) : bool := String.eqb s "-" || String.eqb s "".

(** Modelled from the spec: [getString], [getInt], [getInt64] and
    [getFloat] are helpers declared in the ALB parser file, which is not
    among the sources. A string group is kept as it is; a numeric group
    holding the absent sentinel ([-] or empty) is zero, any other is read
    with [strconv] and the conversion error is dropped. *)
Definition getString (matches : list string) (i : nat) : string :=
  nth i matches "".

(** Modelled from the spec: [getInt], absent from the sources; the
    sentinel is zero, any other group is read with [strconv.Atoi]. *)
Definition getInt (matches : list string) (i : nat) : Z :=
  let s := nth i matches "" in
  if isAbsent s then 0%Z else fst (Atoi s).

(** Modelled from the spec: [getInt64], absent from the sources; as
    [getInt], with [strconv.ParseInt]. *)
Definition getInt64 (matches : list string) (i : nat) : Z :=
  let s := nth i matches "" in
  if isAbsent s then 0%Z else fst (ParseInt s).

(** Modelled from the spec: [getFloat], absent from the sources; as
    [getInt], with [strconv.ParseFloat]. *)
Definition getFloat (matches : list string) (i : nat) : float64 :=
  let s := nth i matches "" in
  if isAbsent s then float64_zero else fst (ParseFloat s).

Definition ParseNLBLogLine (line : string)
  : parse_result NLBLogEntry ParseErr :=
  let line := TrimSpace line in
  if String.eqb line "" || HasPrefix line "#" then Skipped
  else
    match FindStringSubmatchAnchored nlbLogPattern line with
    | None => Failed FailedToParseNLBLogLine
    | Some matches =>
        Parsed {|
          Type_ := getString matches 1;
          Version := getString matches 2;
          Time := getString matches 3;
          ELB := getString matches 4;
          ListenerID := getString matches 5;
          ClientIP := getString matches 6;
          ClientPort := getInt matches 7;
          TargetIP := getString matches 8;
          TargetPort := getInt matches 9;
          ConnectionTime := getFloat matches 10;
          TLSHandshakeTime := getFloat matches 11;
          ReceivedBytes := getInt64 matches 12;
          SentBytes := getInt64 matches 13;
          IncomingTLSAlert := getString matches 14;
          ChosenCertARN := getString matches 15;
          ChosenCertSerial := getString matches 16;
          TLSCipher := getString matches 17;
          TLSProtocolVersion := getString matches 18;
          TLSNamedGroup := getString matches 19;
          DomainName := getString matches 20;
          ALPNProtocol := getString matches 21;
          ALPNClientPreferenceList := getString matches 22;
          TLSHandshakeTimeMS := getFloat matches 23
        |}
    end.

End Parser.

Arguments Type_ {float64} _.
Arguments Version {float64} _.
Arguments Time {float64} _.
Arguments ELB {float64} _.
Arguments ListenerID {float64} _.
Arguments ClientIP {float64} _.
Arguments ClientPort {float64} _.
Arguments TargetIP {float64} _.
Arguments TargetPort {float64} _.
Arguments ConnectionTime {float64} _.
Arguments TLSHandshakeTime {float64} _.
Arguments ReceivedBytes {float64} _.
Arguments SentBytes {float64} _.
Arguments IncomingTLSAlert {float64} _.
Arguments ChosenCertARN {float64} _.
Arguments ChosenCertSerial {float64} _.
Arguments TLSCipher {float64} _.
Arguments TLSProtocolVersion {float64} _.
Arguments TLSNamedGroup {float64} _.
Arguments DomainName {float64} _.
Arguments ALPNProtocol {float64} _.
Arguments ALPNClientPreferenceList {float64} _.
Arguments TLSHandshakeTimeMS {float64} _.

End NLB.


(** ** The lambda entry point: resource keys, grouping, batching *)

Module Lambda.

Section ConvertAndSend.

(** [parser.ALBLogEntry] and package [converter] are declared in files that
    are not part of the sources at hand: the entry type, the two fields
    the entry point reads and the two converter functions are taken as
    given. *)
Variable ALBLogEntry : Type.
Variable TargetGroupARN : ALBLogEntry -> string.
Variable ChosenCertARN : ALBLogEntry -> string.
Variable OTelAttribute : Type.
Variable OTelLogRecord : Type.
Variable ExtractResourceAttributes : ALBLogEntry -> list OTelAttribute.
Variable ConvertToOTel : ALBLogEntry -> OTelLogRecord.

(** [getResourceKey] of the entry point (the command line tool has the
    same function). *)
Definition getResourceKey (entry : ALBLogEntry) : string :=
  let arn := TargetGroupARN entry in
  if String.eqb arn "" || String.eqb arn "-" then ChosenCertARN entry
  else arn.

(** [ALBAdapter] of package [processor]. *)
Record ALBAdapter : Type := {
  adapterEntry : ALBLogEntry;
  AccountID : string;
  Region : string
}.

Definition GetResourceKey (a : ALBAdapter) : string :=
  let arn := TargetGroupARN (adapterEntry a) in
  if String.eqb arn "" || String.eqb arn "-"
  then ChosenCertARN (adapterEntry a)
  else arn.

Record resourceGroup : Type := {
  ResourceAttrs : list OTelAttribute;
  LogRecords : list OTelLogRecord
}.

(** One iteration of the grouping loop of [convertAndSend]. The map holds
    pointers to groups; every group is allocated by the iteration that
    first sees its key and is reached through the map only. *)
Definition groupStep (grouped : gmap string resourceGroup) (entry : ALBLogEntry)
  : gmap string resourceGroup :=
  let resKey := getResourceKey entry in
  let grouped :=
    match grouped !! resKey with
    | Some _ => grouped
    | None =>
        <[resKey := {| ResourceAttrs := ExtractResourceAttributes entry;
                       LogRecords := [] |}]> grouped
    end in
  let logRecord := ConvertToOTel entry in
  match grouped !! resKey with
  | Some g =>
      <[resKey := {| ResourceAttrs := ResourceAttrs g;
                     LogRecords := (LogRecords g ++ [logRecord])%list |}]> grouped
  | None => grouped
  end.

Definition groupEntries (entries : list ALBLogEntry) : gmap string resourceGroup :=
  foldl groupStep ∅ entries.

(** The payload built by [buildPayload]. *)
Record Scope : Type := { ScopeName : string; ScopeVersion : string }.
Record ScopeLog : Type := { ScopeOf : Scope; ScopeLogRecords : list OTelLogRecord }.
Record ResourceLog : Type := {
  ResourceAttributes : list OTelAttribute;
  ScopeLogs : list ScopeLog
}.
Record OTLPPayload : Type := { ResourceLogs : list ResourceLog }.

Definition buildPayload (resourceAttrs : list OTelAttribute)
    (logRecords : list OTelLogRecord) : OTLPPayload :=
  {| ResourceLogs :=
       [ {| ResourceAttributes := resourceAttrs;
            ScopeLogs :=
              [ {| ScopeOf := {| ScopeName := "alb-log-parser";
                                 ScopeVersion := "1.0.0" |};
                   ScopeLogRecords := logRecords |} ] |} ] |}.

(** [s[i:end]] for [i <= end <= len(s)]. *)
Definition slice {A : Type} (s : list A) (i j : nat) : list A :=
  take (j - i) (drop i s).

(** What the batching loop hands to a sender goroutine. *)
Record dispatched : Type := {
  dPayload : OTLPPayload;
  dBatchID : nat;
  dBatchSize : nat
}.

(** The error a failed sender has put on [errChan]. *)
Variable SendError : Type.

Inductive loopOutcome : Type :=
| Completed
| ReturnedEarly (err : SendError).

(** The polls a run of the loop has made when it has dispatched [m]
    batches: one for each, and the one that found the error. *)
Definition pollsMade (m : nat) (out : loopOutcome) : nat :=
  match out with
  | Completed => m
  | ReturnedEarly _ => S m
  end.

(** The batching loop of [convertAndSend] for one group. Before each
    batch the loop polls [errChan]: [poll k] is what the [k]-th poll of
    the run finds (the senders run concurrently, so this is decided by
    the schedule), and an error found makes the function return at once.
    Indices are [nat]: the sums [i + maxBatchSize] the loop forms for a
    second and later batch stay below twice the length of the slice.
    The result is the batches dispatched in order, the outcome and the
    number of polls made; [None] is a loop that has not ended within
    [fuel] iterations (as for [maxBatchSize = 0]). *)
Fixpoint batchLoop (fuel : nat) (poll : nat -> option SendError) (k : nat)
    (group : resourceGroup) (maxBatchSize : nat) (i batchCount : nat)
  : option (list dispatched * loopOutcome * nat) :=
  match fuel with
  | O => None
  | S fuel' =>
      if (i <? List.length (LogRecords group))%nat then
        match poll k with
        | Some err => Some ([], ReturnedEarly err, S k)
        | None =>
            let end_ := (i + maxBatchSize)%nat in
            let end_ :=
              if (List.length (LogRecords group) <? end_)%nat
              then List.length (LogRecords group) else end_ in
            let batch := slice (LogRecords group) i end_ in
            let payload := buildPayload (ResourceAttrs group) batch in
            let d := {| dPayload := payload;
                        dBatchID := (batchCount + 1)%nat;
                        dBatchSize := List.length batch |} in
            match batchLoop fuel' poll (S k) group maxBatchSize
                    (i + maxBatchSize)%nat (S batchCount) with
            | Some (ds, out, k') => Some (d :: ds, out, k')
            | None => None
            end
        end
      else Some ([], Completed, k)
  end.

(** The loop over the groups; [groups] is the map in the order in which
    the runtime iterates it. *)
Fixpoint sendGroups (fuel : nat) (poll : nat -> option SendError) (k : nat)
    (groups : list (string * resourceGroup)) (maxBatchSize : nat)
  : option (list dispatched * loopOutcome) :=
  match groups with
  | [] => Some ([], Completed)
  | (_, group) :: rest =>
      match batchLoop fuel poll k group maxBatchSize 0 0 with
      | None => None
      | Some (ds, ReturnedEarly err, _) => Some (ds, ReturnedEarly err)
      | Some (ds, Completed, k') =>
          match sendGroups fuel poll k' rest maxBatchSize with
          | Some (ds', out) => Some ((ds ++ ds')%list, out)
          | None => None
          end
      end
  end.

End ConvertAndSend.

Arguments Completed {SendError}.
Arguments ReturnedEarly {SendError} err.
Arguments pollsMade {SendError} m out.

End Lambda.

(** ** [sendWithRetry] *)

Module Retry.

(** What one pass through the loop body meets: [http.NewRequest] fails,
    [client.Do] fails, or a response arrives. *)
Inductive attemptResult : Type :=
| NewRequestError (err : string)
| DoError (err : string)
| Response (statusCode : Z) (body : string).

Inductive event : Type :=
| Slept (d : Z)
| Attempted (attempt : Z) (r : attemptResult).

(** The error returned: [failed to marshal payload: ...] or
    [failed after %d attempts: %w] with the last recorded cause. *)
Inductive sendResult : Type :=
| Sent
| MarshalFailed (err : string)
| FailedAfter (attempts : Z) (lastErr : option attemptResult).

(** [retryBaseSec] is the [float64] 1.0 set by [init]. The product with
    the multiplier, a power of two, and the conversion of the product to
    [time.Duration] are exact, so the value is carried as an integer. *)
Definition retryBaseSec : Z := 1.

(** [time.Second] in nanoseconds. *)
Definition Second : Z := 1000000000.

(** [1 << uint(attempt-1)], of type [int]. *)
Definition multiplier (attempt : Z) : Z := wrap64 (2 ^ (attempt - 1)).

(** [time.Duration(retryBaseSec*float64(multiplier)) * time.Second],
    the argument of [time.Sleep]. *)
Definition backoff (attempt : Z) : Z :=
  wrap64 (retryBaseSec * multiplier attempt * Second).

Definition isSuccess (statusCode : Z) : bool :=
  (200 <=? statusCode)%Z && (statusCode <? 300)%Z.

Section Loop.

Variable maxRetries : Z.
(** The outcome of the request of each pass, by the value of [attempt]. *)
Variable transport : Z -> attemptResult.

Definition sleepBefore (attempt : Z) : list event :=
  if (0 <? attempt)%Z then [Slept (backoff attempt)] else [].

(** The loop [for attempt := 0; attempt <= maxRetries; attempt++]. *)
Fixpoint retryLoop (fuel : nat) (attempt : Z) (lastErr : option attemptResult)
  : option (sendResult * list event) :=
  match fuel with
  | O => None
  | S fuel' =>
      if (attempt <=? maxRetries)%Z then
        let r := transport attempt in
        let evs := (sleepBefore attempt ++ [Attempted attempt r])%list in
        match r with
        | Response statusCode _ =>
            if isSuccess statusCode then Some (Sent, evs)
            else
              match retryLoop fuel' (wrap64 (attempt + 1)) (Some r) with
              | Some (res, evs') => Some (res, (evs ++ evs')%list)
              | None => None
              end
        | _ =>
            match retryLoop fuel' (wrap64 (attempt + 1)) (Some r) with
            | Some (res, evs') => Some (res, (evs ++ evs')%list)
            | None => None
            end
        end
      else Some (FailedAfter (wrap64 (maxRetries + 1)) lastErr, [])
  end.

(** [marshalled] is the result of [json.Marshal payload]. *)
Definition sendWithRetry (fuel : nat) (marshalled : string + string)
  : option (sendResult * list event) :=
  match marshalled with
  | inr err => Some (MarshalFailed err, [])
  | inl _ => retryLoop fuel 0 None
  end.

End Loop.

End Retry.

(** ** [readAndParseFromS3]: the worker pool *)

Module Ingest.

Section Pipeline.

(** [parser.ParseLogLine] is declared in the ALB parser file, which is
    not part of the sources at hand; it is taken as given, with the three
    outcomes of a line parser. *)
Variable ALBLogEntry : Type.
Variable ParseErr : Type.
Variable ParseLogLine : string -> parse_result ALBLogEntry ParseErr.

(** What a line contributes: nothing when it is empty, when the parser
    fails or when it returns no entry. This is the body of the loop of a
    worker, and of the loop of the earlier, sequential function. *)
Definition parsedEntry (line : string) : option ALBLogEntry :=
  if String.eqb line "" then None
  else match ParseLogLine line with
       | Parsed entry => Some entry
       | Failed _ => None
       | Skipped => None
       end.

(** The sequential [readAndParseFromS3]: the lines in order, the entries
    appended in order. *)
Fixpoint parseSequential (lines : list string) : list ALBLogEntry :=
  match lines with
  | [] => []
  | line :: rest =>
      match parsedEntry line with
      | Some entry => entry :: parseSequential rest
      | None => parseSequential rest
      end
  end.

(** A worker goroutine is at the receive of [range linesChan], at the send
    [entriesChan <- entry], or past its loop. *)
Inductive worker : Type :=
| Receiving
| Sending (entry : ALBLogEntry)
| Exited.

(** A worker that has received [line]. *)
Definition afterLine (line : string) : worker :=
  match parsedEntry line with
  | Some entry => Sending entry
  | None => Receiving
  end.

(** [numWorkers]: [maxConcurrent], and 1 when that is below 1. *)
Definition numWorkers (maxConcurrent : Z) : nat :=
  Z.to_nat (if (maxConcurrent <? 1)%Z then 1%Z else maxConcurrent).

(** The state of a run: the lines the scanner has still to deliver, the
    two channels with their buffers, the workers, the entries collected so
    far, and whether the function has returned. *)
Record state : Type := {
  scanner : list string;
  linesChan : list string;
  linesClosed : bool;
  workers : list worker;
  entriesChan : list ALBLogEntry;
  entriesClosed : bool;
  entries : list ALBLogEntry;
  returned : bool
}.

Definition initial (lines : list string) (maxConcurrent : Z) : state :=
  {| scanner := lines;
     linesChan := [];
     linesClosed := false;
     workers := replicate (numWorkers maxConcurrent) Receiving;
     entriesChan := [];
     entriesClosed := false;
     entries := [];
     returned := false |}.

(** One step of one goroutine; [capacity] is the capacity of both
    channels, [maxBatchSize]. A send puts its value in the buffer when
    there is room, or hands it to a receiver that waits on the empty
    channel (the only way with capacity 0). *)
Inductive step (capacity : nat) : state -> state -> Prop :=
| step_produce (st : state) (line : string) (rest : list string) :
    (* linesChan <- scanner.Text(), into the buffer *)
    scanner st = line :: rest ->
    (List.length (linesChan st) < capacity)%nat ->
    step capacity st
      {| scanner := rest; linesChan := (linesChan st ++ [line])%list;
         linesClosed := linesClosed st; workers := workers st;
         entriesChan := entriesChan st; entriesClosed := entriesClosed st;
         entries := entries st; returned := returned st |}
| step_produce_direct (st : state) (line : string) (rest : list string) (i : nat) :
    (* linesChan <- scanner.Text(), to a waiting worker *)
    scanner st = line :: rest ->
    linesChan st = [] ->
    workers st !! i = Some Receiving ->
    step capacity st
      {| scanner := rest; linesChan := [];
         linesClosed := linesClosed st; workers := <[i := afterLine line]> (workers st);
         entriesChan := entriesChan st; entriesClosed := entriesClosed st;
         entries := entries st; returned := returned st |}
| step_close_lines (st : state) :
    (* close(linesChan), once the scanner is done *)
    scanner st = [] ->
    linesClosed st = false ->
    step capacity st
      {| scanner := []; linesChan := linesChan st;
         linesClosed := true; workers := workers st;
         entriesChan := entriesChan st; entriesClosed := entriesClosed st;
         entries := entries st; returned := returned st |}
| step_receive (st : state) (line : string) (rest : list string) (i : nat) :
    (* a worker takes the next line of the buffer *)
    workers st !! i = Some Receiving ->
    linesChan st = line :: rest ->
    step capacity st
      {| scanner := scanner st; linesChan := rest;
         linesClosed := linesClosed st; workers := <[i := afterLine line]> (workers st);
         entriesChan := entriesChan st; entriesClosed := entriesClosed st;
         entries := entries st; returned := returned st |}
| step_exit (st : state) (i : nat) :
    (* the range loop of a worker ends: closed and drained; wg.Done() *)
    workers st !! i = Some Receiving ->
    linesChan st = [] ->
    linesClosed st = true ->
    step capacity st
      {| scanner := scanner st; linesChan := [];
         linesClosed := true; workers := <[i := Exited]> (workers st);
         entriesChan := entriesChan st; entriesClosed := entriesClosed st;
         entries := entries st; returned := returned st |}
| step_send (st : state) (entry : ALBLogEntry) (i : nat) :
    (* entriesChan <- entry, into the buffer *)
    workers st !! i = Some (Sending entry) ->
    (List.length (entriesChan st) < capacity)%nat ->
    step capacity st
      {| scanner := scanner st; linesChan := linesChan st;
         linesClosed := linesClosed st; workers := <[i := Receiving]> (workers st);
         entriesChan := (entriesChan st ++ [entry])%list;
         entriesClosed := entriesClosed st;
         entries := entries st; returned := returned st |}
| step_send_direct (st : state) (entry : ALBLogEntry) (i : nat) :
    (* entriesChan <- entry, to the collector that waits *)
    workers st !! i = Some (Sending entry) ->
    entriesChan st = [] ->
    returned st = false ->
    step capacity st
      {| scanner := scanner st; linesChan := linesChan st;
         linesClosed := linesClosed st; workers := <[i := Receiving]> (workers st);
         entriesChan := []; entriesClosed := entriesClosed st;
         entries := (entries st ++ [entry])%list; returned := false |}
| step_close_entries (st : state) :
    (* wg.Wait() is over: close(entriesChan) *)
    Forall (fun w => w = Exited) (workers st) ->
    entriesClosed st = false ->
    step capacity st
      {| scanner := scanner st; linesChan := linesChan st;
         linesClosed := linesClosed st; workers := workers st;
         entriesChan := entriesChan st; entriesClosed := true;
         entries := entries st; returned := returned st |}
| step_collect (st : state) (entry : ALBLogEntry) (rest : list ALBLogEntry) :
    (* entries = append(entries, entry), from the buffer *)
    entriesChan st = entry :: rest ->
    returned st = false ->
    step capacity st
      {| scanner := scanner st; linesChan := linesChan st;
         linesClosed := linesClosed st; workers := workers st;
         entriesChan := rest; entriesClosed := entriesClosed st;
         entries := (entries st ++ [entry])%list; returned := false |}
| step_return (st : state) :
    (* the range over entriesChan ends: return entries, nil *)
    entriesChan st = [] ->
    entriesClosed st = true ->
    returned st = false ->
    step capacity st
      {| scanner := scanner st; linesChan := linesChan st;
         linesClosed := linesClosed st; workers := workers st;
         entriesChan := []; entriesClosed := true;
         entries := entries st; returned := true |}.

End Pipeline.

Arguments Receiving {ALBLogEntry}.
Arguments Sending {ALBLogEntry} entry.
Arguments Exited {ALBLogEntry}.
Arguments scanner {ALBLogEntry} _.
Arguments linesChan {ALBLogEntry} _.
Arguments linesClosed {ALBLogEntry} _.
Arguments workers {ALBLogEntry} _.
Arguments entriesChan {ALBLogEntry} _.
Arguments entriesClosed {ALBLogEntry} _.
Arguments entries {ALBLogEntry} _.
Arguments returned {ALBLogEntry} _.

End Ingest.

(** ** The processors: dispatch predicates and adapters *)

Module Processor.
Import GoStrings.

(** [strings.Contains s substr]: [substr] occurs somewhere in [s]. *)
Fixpoint Contains (s substr : string) : bool :=
  if String.prefix substr s then true
  else match s with
       | EmptyString => false
       | String _ r => Contains r substr
       end.

(** [ALBProcessor.Matches]; the bucket is not looked at. *)
Definition ALBMatches (bucket key : string) : bool :=
  Contains key "/elasticloadbalancing/" && Contains key "_app.".

(** [WAFProcessor.Matches]. *)
Definition WAFMatches (bucket key : string) : bool :=
  HasPrefix bucket "aws-waf-logs-" && Contains key "/WAFLogs/" && Contains key "_waflogs_".

Section Adapters.

(** [converter.OTelAnyValue] and [converter.OTelAttribute] are declared in
    package [converter], which is not among the sources; an attribute is
    the pair of the two fields the composite literals of the adapters
    name, and [StringValue s] stands for [OTelAnyValue{StringValue: &s}]. *)
Variable OTelAnyValue : Type.
Variable StringValue : string -> OTelAnyValue.

Record OTelAttribute : Type := {
  Key : string;
  Value : OTelAnyValue
}.

Definition stringAttr (key value : string) : OTelAttribute :=
  {| Key := key; Value := StringValue value |}.

(** *** The WAF adapter *)

(** [parser.WAFLogEntry] is declared in the WAF parser; the adapter reads
    its field [WebACLID] only. *)
Variable WAFLogEntry : Type.
Variable WebACLID : WAFLogEntry -> string.

Record WAFAdapter : Type := {
  wafEntry : WAFLogEntry;
  wafAccountID : string;
  wafRegion : string
}.

(** [WAFAdapter.GetResourceKey]. *)
Definition WAFGetResourceKey (a : WAFAdapter) : string := WebACLID (wafEntry a).

(** The account and the region read from the identifier of the web ACL,
    an ARN: the fifth and the fourth of its parts between colons, when it
    has six parts or more. *)
Definition extractFromWebACLID (id : string) : string * string :=
  if negb (String.eqb id "") then
    let parts := Split id ":" in
    if (6 <=? List.length parts)%nat then
      let extractedRegion := nth 3 parts "" in
      let extractedRegion :=
        if String.eqb extractedRegion "" then "global" else extractedRegion in
      (nth 4 parts "", extractedRegion)
    else ("", "")
  else ("", "").

(** [WAFAdapter.GetResourceAttributes]. *)
Definition WAFGetResourceAttributes (a : WAFAdapter) : list OTelAttribute :=
  let attrs :=
    [stringAttr "cloud.provider" "aws";
     stringAttr "cloud.platform" "aws_waf";
     stringAttr "cloud.service" "waf";
     stringAttr "aws.waf.web_acl_id" (WebACLID (wafEntry a))] in
  let '(extractedAccount, extractedRegion) := extractFromWebACLID (WebACLID (wafEntry a)) in
  let finalAccount :=
    if String.eqb extractedAccount "" then wafAccountID a else extractedAccount in
  let finalRegion :=
    if String.eqb extractedRegion "" then wafRegion a else extractedRegion in
  let attrs :=
    if negb (String.eqb finalAccount "")
    then (attrs ++ [stringAttr "cloud.account.id" finalAccount])%list else attrs in
  let attrs :=
    if negb (String.eqb finalRegion "")
    then (attrs ++ [stringAttr "cloud.region" finalRegion])%list else attrs in
  attrs.

(** The adapters [WAFProcessor.Process] builds from the entries of the
    file: every one carries the account and the region of the key. *)
Definition WAFAdapters (key : string) (wafEntries : list WAFLogEntry) : list WAFAdapter :=
  let '(accountID, region) := S3Key.ParseRegionAccountFromS3Key key in
  map (fun e => {| wafEntry := e; wafAccountID := accountID; wafRegion := region |})
      wafEntries.

(** *** The ALB adapter *)

Variable ALBLogEntry : Type.
Variable ExtractResourceAttributes : ALBLogEntry -> list OTelAttribute.

(** The two flags the loop over the attributes sets. *)
Definition scanCloudKeys (attrs : list OTelAttribute) : bool * bool :=
  foldl (fun '(hasAccount, hasRegion) attr =>
           (if String.eqb (Key attr) "cloud.account.id" then true else hasAccount,
            if String.eqb (Key attr) "cloud.region" then true else hasRegion))
        (false, false) attrs.

(** [ALBAdapter.GetResourceAttributes]. *)
Definition ALBGetResourceAttributes (a : Lambda.ALBAdapter ALBLogEntry)
  : list OTelAttribute :=
  let attrs := ExtractResourceAttributes (Lambda.adapterEntry _ a) in
  let '(hasAccount, hasRegion) := scanCloudKeys attrs in
  let attrs :=
    if negb hasAccount && negb (String.eqb (Lambda.AccountID _ a) "")
    then (attrs ++ [stringAttr "cloud.account.id" (Lambda.AccountID _ a)])%list
    else attrs in
  let attrs :=
    if negb hasRegion && negb (String.eqb (Lambda.Region _ a) "")
    then (attrs ++ [stringAttr "cloud.region" (Lambda.Region _ a)])%list
    else attrs in
  attrs.

End Adapters.

Arguments Key {OTelAnyValue} _.
Arguments Value {OTelAnyValue} _.

End Processor.

(** ** The command line converter *)

Module ConvertOTel.
Import Lambda.

Section Main.

Variable OTelAttribute : Type.
Variable OTelLogRecord : Type.

(** The loop [for _, group := range grouped] of [main] in
    [cmd/convert-otel]: one resource log for each group, appended to the
    payload; [groups] is the map in the order in which the runtime
    iterates it. The entries are grouped before as in [convertAndSend],
    with the same [getResourceKey]. *)
Definition buildOTLP (groups : list (string * resourceGroup OTelAttribute OTelLogRecord))
  : OTLPPayload OTelAttribute OTelLogRecord :=
  {| ResourceLogs :=
       foldl (fun logs kg =>
                (logs ++
                 [ {| ResourceAttributes := ResourceAttrs _ _ (snd kg);
                      ScopeLogs :=
                        [ {| ScopeOf := {| ScopeName := "alb-log-parser";
                                           ScopeVersion := "1.0.0" |};
                             ScopeLogRecords := LogRecords _ _ (snd kg) |} ] |} ])%list)
             [] groups |}.

End Main.

End ConvertOTel.

(** ** The first, sequential entry point *)

Module LambdaSeq.
Import GoStrings Lambda.

Definition newline : ascii := byte_of 10.

(** [strings.HasSuffix]. *)
Definition HasSuffix (s suffix : string) : bool :=
  (String.length suffix <=? String.length s)%nat &&
  String.eqb (String.substring (String.length s - String.length suffix)
                (String.length suffix) s) suffix.

Section Sequential.

Variable ALBLogEntry : Type.
Variable ParseErr : Type.
Variable ParseLogLine : string -> parse_result ALBLogEntry ParseErr.

(** The object store and the decompressor are outside the program:
    [GetObject bucket key] is the body of the object or the error of the
    request, [gzipNewReader body] the reader of the decompressed stream
    or the error on its header, and [ReadAll reader] the bytes read or
    the error of the read. *)
Variable IOError : Type.
Variable Body : Type.
Variable GetObject : string -> string -> IOError + Body.
Variable gzipNewReader : Body -> IOError + Body.
Variable ReadAll : Body -> IOError + string.

(** The three errors of [readAndParseFromS3], by their messages:
    [failed to get S3 object], [failed to create gzip reader] and
    [failed to read S3 object]. *)
Inductive readError : Type :=
| FailedToGetS3Object (err : IOError)
| FailedToCreateGzipReader (err : IOError)
| FailedToReadS3Object (err : IOError).

(** The lines of the content and the loop over them. *)
Definition parseContent (content : string) : list ALBLogEntry :=
  Ingest.parseSequential ALBLogEntry ParseErr ParseLogLine (Split content newline).

(** The sequential [readAndParseFromS3]. *)
Definition readAndParseFromS3 (bucket key : string) : readError + list ALBLogEntry :=
  match GetObject bucket key with
  | inl err => inl (FailedToGetS3Object err)
  | inr body =>
      match (if HasSuffix key ".gz" then gzipNewReader body else inr body) with
      | inl err => inl (FailedToCreateGzipReader err)
      | inr reader =>
          match ReadAll reader with
          | inl err => inl (FailedToReadS3Object err)
          | inr content => inr (parseContent content)
          end
      end
  end.

Variable OTelAttribute : Type.
Variable OTelLogRecord : Type.

(** [sendWithRetry] is a call into the network: [send n payload] is the
    result of the [n]-th call of a run, [None] for [nil]. *)
Variable SendError : Type.
Variable send : nat -> OTLPPayload OTelAttribute OTelLogRecord -> option SendError.

(** The batching loop of the sequential [convertAndSend] for one group,
    from index [i], with [n] calls of [sendWithRetry] made before. The
    result is the payloads handed to [sendWithRetry] in order, the error
    returned if any, and the number of calls made; [None] is a loop that
    has not ended within [fuel] iterations. *)
Fixpoint sendBatches (fuel : nat) (n : nat)
    (group : resourceGroup OTelAttribute OTelLogRecord) (maxBatchSize : nat) (i : nat)
  : option (list (OTLPPayload OTelAttribute OTelLogRecord) * option SendError * nat) :=
  match fuel with
  | O => None
  | S fuel' =>
      if (i <? List.length (LogRecords _ _ group))%nat then
        let end_ := (i + maxBatchSize)%nat in
        let end_ :=
          if (List.length (LogRecords _ _ group) <? end_)%nat
          then List.length (LogRecords _ _ group) else end_ in
        let batch := slice (LogRecords _ _ group) i end_ in
        let payload := buildPayload _ _ (ResourceAttrs _ _ group) batch in
        match send n payload with
        | Some err => Some ([payload], Some err, S n)
        | None =>
            match sendBatches fuel' (S n) group maxBatchSize (i + maxBatchSize)%nat with
            | Some (ps, r, n') => Some (payload :: ps, r, n')
            | None => None
            end
        end
      else Some ([], None, n)
  end.

(** The loop over the groups of the sequential [convertAndSend];
    [groups] is the map in the order in which the runtime iterates it. *)
Fixpoint sendGroupsSeq (fuel : nat) (n : nat)
    (groups : list (string * resourceGroup OTelAttribute OTelLogRecord))
    (maxBatchSize : nat)
  : option (list (OTLPPayload OTelAttribute OTelLogRecord) * option SendError) :=
  match groups with
  | [] => Some ([], None)
  | (_, group) :: rest =>
      match sendBatches fuel n group maxBatchSize 0 with
      | None => None
      | Some (ps, Some err, _) => Some (ps, Some err)
      | Some (ps, None, n') =>
          match sendGroupsSeq fuel n' rest maxBatchSize with
          | Some (ps', r) => Some ((ps ++ ps')%list, r)
          | None => None
          end
      end
  end.

End Sequential.

Arguments FailedToGetS3Object {IOError} err.
Arguments FailedToCreateGzipReader {IOError} err.
Arguments FailedToReadS3Object {IOError} err.

End LambdaSeq.

(** ** [ParseCloudFrontLogFile] *)

Module CloudFrontFile.
Import GoStrings GoStrconv CloudFront.

Section File.

Variable float64 : Type.
Variable float64_zero : float64.
Variable ParseFloat : string -> float64 * option NumError.

(** The loop over the lines: a line that fails is skipped, and so is a
    line for which the parser returns no entry. *)
Fixpoint collectEntries (lines : list string) : list (CloudFrontLogEntry float64) :=
  match lines with
  | [] => []
  | line :: rest =>
      match ParseCloudFrontLogLine float64 float64_zero ParseFloat line with
      | Failed _ => collectEntries rest
      | Skipped => collectEntries rest
      | Parsed entry => entry :: collectEntries rest
      end
  end.

(** What [ParseCloudFrontLogFile] makes of the bytes it has read. *)
Definition parseContent (content : string) : list (CloudFrontLogEntry float64) :=
  collectEntries (Split content LambdaSeq.newline).

(** The file system and the decompressor are outside the program:
    [Open filePath] is the file or the error, [gzipNewReader file] the
    reader of the decompressed stream or the error on its header, and
    [ReadAll reader] the bytes read or the error of the read. *)
Variable IOError : Type.
Variable File : Type.
Variable Open : string -> IOError + File.
Variable gzipNewReader : File -> IOError + File.
Variable ReadAll : File -> IOError + string.

(** The three errors, by their messages: [failed to open file],
    [failed to create gzip reader] and [failed to read file]. *)
Inductive fileError : Type :=
| FailedToOpenFile (err : IOError)
| FailedToCreateGzipReader (err : IOError)
| FailedToReadFile (err : IOError).

Definition ParseCloudFrontLogFile (filePath : string)
  : fileError + list (CloudFrontLogEntry float64) :=
  match Open filePath with
  | inl err => inl (FailedToOpenFile err)
  | inr file =>
      match (if LambdaSeq.HasSuffix filePath ".gz" then gzipNewReader file else inr file) with
      | inl err => inl (FailedToCreateGzipReader err)
      | inr reader =>
          match ReadAll reader with
          | inl err => inl (FailedToReadFile err)
          | inr content => inr (parseContent content)
          end
      end
  end.

End File.

Arguments FailedToOpenFile {IOError} err.
Arguments FailedToCreateGzipReader {IOError} err.
Arguments FailedToReadFile {IOError} err.

End CloudFrontFile.

(** ** [convertAndSend]: the senders and their permits *)

Module Delivery.
Import Lambda.

Section Pool.

Variable OTelAttribute : Type.
Variable OTelLogRecord : Type.
(** The error of a [sendWithRetry] call. *)
Variable SendError : Type.

(** The error a sender puts on [errChan],
    [failed to send batch %d: %w]. *)
Record batchError : Type := {
  failedBatch : nat;
  cause : SendError
}.

(** A sender goroutine with the batch it was started for: at
    [sem <- struct{}{}], in [sendWithRetry] with a permit, past the call
    with its result handled and before the deferred [<-sem], past that
    and before the deferred [wg.Done()], and finished. *)
Inductive sender : Type :=
| Acquiring (job : dispatched OTelAttribute OTelLogRecord)
| Sending (job : dispatched OTelAttribute OTelLogRecord)
| Releasing (job : dispatched OTelAttribute OTelLogRecord) (r : option SendError)
| Exiting (job : dispatched OTelAttribute OTelLogRecord) (r : option SendError)
| Done (job : dispatched OTelAttribute OTelLogRecord) (r : option SendError).

(** The goroutine that runs [convertAndSend]: at the [select] on
    [errChan] at the head of the batching loop, at the [go] statement
    after it, at [wg.Wait()], at the last [select], and returned. *)
Inductive mainState : Type :=
| Polling
| Spawning
| Waiting
| Checking
| Returned (r : option batchError).

(** The state of a run: the batches the loops have still to hand out (in
    the order of the loops), the senders started so far, the number of
    permits taken from [sem], the buffer of [errChan], and [totalSent]. *)
Record state : Type := {
  main : mainState;
  pending : list (dispatched OTelAttribute OTelLogRecord);
  senders : list sender;
  sem : nat;
  errChan : option batchError;
  totalSent : nat
}.

Definition initial (batches : list (dispatched OTelAttribute OTelLogRecord)) : state :=
  {| main := Polling; pending := batches; senders := []; sem := 0%nat;
     errChan := None; totalSent := 0%nat |}.

(** One step of one goroutine; [maxConcurrent] is the capacity of [sem].
    What [sendWithRetry] returns is up to the network: a sender in the
    call can come out of it with [nil] or with any error. *)
Inductive step (maxConcurrent : nat) : state -> state -> Prop :=
| step_poll_empty (st : state) d rest :
    (* select: default *)
    main st = Polling -> pending st = d :: rest -> errChan st = None ->
    step maxConcurrent st
      {| main := Spawning; pending := pending st; senders := senders st;
         sem := sem st; errChan := None; totalSent := totalSent st |}
| step_poll_error (st : state) d rest err :
    (* select: case err := <-errChan: return err *)
    main st = Polling -> pending st = d :: rest -> errChan st = Some err ->
    step maxConcurrent st
      {| main := Returned (Some err); pending := pending st; senders := senders st;
         sem := sem st; errChan := None; totalSent := totalSent st |}
| step_spawn (st : state) d rest :
    (* wg.Add(1); go func(...) *)
    main st = Spawning -> pending st = d :: rest ->
    step maxConcurrent st
      {| main := Polling; pending := rest;
         senders := (senders st ++ [Acquiring d])%list;
         sem := sem st; errChan := errChan st; totalSent := totalSent st |}
| step_loops_end (st : state) :
    (* the loops are over *)
    main st = Polling -> pending st = [] ->
    step maxConcurrent st
      {| main := Waiting; pending := []; senders := senders st;
         sem := sem st; errChan := errChan st; totalSent := totalSent st |}
| step_wait (st : state) :
    (* wg.Wait() returns *)
    main st = Waiting ->
    Forall (fun s => exists job r, s = Done job r) (senders st) ->
    step maxConcurrent st
      {| main := Checking; pending := pending st; senders := senders st;
         sem := sem st; errChan := errChan st; totalSent := totalSent st |}
| step_check_error (st : state) err :
    (* last select: return err *)
    main st = Checking -> errChan st = Some err ->
    step maxConcurrent st
      {| main := Returned (Some err); pending := pending st; senders := senders st;
         sem := sem st; errChan := None; totalSent := totalSent st |}
| step_check_nil (st : state) :
    (* last select: default; return nil *)
    main st = Checking -> errChan st = None ->
    step maxConcurrent st
      {| main := Returned None; pending := pending st; senders := senders st;
         sem := sem st; errChan := None; totalSent := totalSent st |}
| step_acquire (st : state) (i : nat) job :
    (* sem <- struct{}{} *)
    senders st !! i = Some (Acquiring job) ->
    (sem st < maxConcurrent)%nat ->
    step maxConcurrent st
      {| main := main st; pending := pending st;
         senders := <[i := Sending job]> (senders st);
         sem := S (sem st); errChan := errChan st; totalSent := totalSent st |}
| step_sent (st : state) (i : nat) job :
    (* sendWithRetry returned nil; totalSent += bSize under the lock *)
    senders st !! i = Some (Sending job) ->
    step maxConcurrent st
      {| main := main st; pending := pending st;
         senders := <[i := Releasing job None]> (senders st);
         sem := sem st; errChan := errChan st;
         totalSent := (totalSent st + dBatchSize _ _ job)%nat |}
| step_failed (st : state) (i : nat) job err :
    (* sendWithRetry returned err; select: errChan <- ..., or default *)
    senders st !! i = Some (Sending job) ->
    step maxConcurrent st
      {| main := main st; pending := pending st;
         senders := <[i := Releasing job (Some err)]> (senders st);
         sem := sem st;
         errChan := match errChan st with
                    | None => Some {| failedBatch := dBatchID _ _ job; cause := err |}
                    | Some e => Some e
                    end;
         totalSent := totalSent st |}
| step_release (st : state) (i : nat) job r n :
    (* deferred: <-sem *)
    senders st !! i = Some (Releasing job r) ->
    sem st = S n ->
    step maxConcurrent st
      {| main := main st; pending := pending st;
         senders := <[i := Exiting job r]> (senders st);
         sem := n; errChan := errChan st; totalSent := totalSent st |}
| step_done (st : state) (i : nat) job r :
    (* deferred: wg.Done() *)
    senders st !! i = Some (Exiting job r) ->
    step maxConcurrent st
      {| main := main st; pending := pending st;
         senders := <[i := Done job r]> (senders st);
         sem := sem st; errChan := errChan st; totalSent := totalSent st |}.

End Pool.

Arguments failedBatch {SendError} _.
Arguments cause {SendError} _.
Arguments Polling {SendError}.
Arguments Spawning {SendError}.
Arguments Waiting {SendError}.
Arguments Checking {SendError}.
Arguments Returned {SendError} r.
Arguments Acquiring {OTelAttribute OTelLogRecord SendError} job.
Arguments Sending {OTelAttribute OTelLogRecord SendError} job.
Arguments Releasing {OTelAttribute OTelLogRecord SendError} job r.
Arguments Exiting {OTelAttribute OTelLogRecord SendError} job r.
Arguments Done {OTelAttribute OTelLogRecord SendError} job r.
Arguments main {OTelAttribute OTelLogRecord SendError} _.
Arguments pending {OTelAttribute OTelLogRecord SendError} _.
Arguments senders {OTelAttribute OTelLogRecord SendError} _.
Arguments sem {OTelAttribute OTelLogRecord SendError} _.
Arguments errChan {OTelAttribute OTelLogRecord SendError} _.
Arguments totalSent {OTelAttribute OTelLogRecord SendError} _.

End Delivery.

(** * Properties *)

#[local] Arguments String.append !_ _ / : simpl nomatch.

(** ** Facts about the string functions *)

Module GoStringsFacts.
Import GoStrings.

Lemma app_empty_r (s : string) : s +:+ "" = s.
Proof. induction s as [|c s IH]; simpl; [reflexivity | now rewrite IH]. Qed.

Lemma app_assoc (a b c : string) : (a +:+ b) +:+ c = a +:+ (b +:+ c).
Proof. induction a as [|x a IH]; simpl; [reflexivity | now rewrite IH]. Qed.

Lemma length_app (a b : string) :
  String.length (a +:+ b) = (String.length a + String.length b)%nat.
Proof. induction a as [|x a IH]; simpl; [reflexivity | now rewrite IH]. Qed.

Lemma Count_app (a b : string) (c : ascii) :
  Count (a +:+ b) c = (Count a c + Count b c)%nat.
Proof. induction a as [|x a IH]; simpl; [reflexivity | rewrite IH; lia]. Qed.

Lemma Count_rev (s : string) (c : ascii) : Count (str_rev s) c = Count s c.
Proof.
  induction s as [|x s IH]; simpl; [reflexivity |].
  unfold snoc. rewrite Count_app, IH. simpl. lia.
Qed.

(** Trimming on the left removes a prefix. *)
Lemma trimLeft_suffix (s : string) : exists p, s = p +:+ trimLeft s.
Proof.
  remember (String.length s) as n eqn:Hn.
  revert s Hn. induction n as [n IH] using lt_wf_ind. intros s Hn.
  destruct s as [|b1 r1]; [exists ""; reflexivity |].
  simpl. destruct (asciiSpace b1).
  { destruct (IH (String.length r1)) with (s := r1) as [p Hp];
      [simpl in Hn; lia | reflexivity |].
    exists (String b1 p). simpl. now rewrite <- Hp. }
  destruct r1 as [|b2 r2]; [exists ""; reflexivity |].
  destruct (space2 b1 b2).
  { destruct (IH (String.length r2)) with (s := r2) as [p Hp];
      [simpl in Hn; lia | reflexivity |].
    exists (String b1 (String b2 p)). simpl. now rewrite <- Hp. }
  destruct r2 as [|b3 r3]; [exists ""; reflexivity |].
  destruct (space3 b1 b2 b3); [| exists ""; reflexivity].
  destruct (IH (String.length r3)) with (s := r3) as [p Hp];
    [simpl in Hn; lia | reflexivity |].
  exists (String b1 (String b2 (String b3 p))). simpl. now rewrite <- Hp.
Qed.

Lemma trimLeftRev_suffix (s : string) : exists p, s = p +:+ trimLeftRev s.
Proof.
  remember (String.length s) as n eqn:Hn.
  revert s Hn. induction n as [n IH] using lt_wf_ind. intros s Hn.
  destruct s as [|b1 r1]; [exists ""; reflexivity |].
  simpl. destruct (asciiSpace b1).
  { destruct (IH (String.length r1)) with (s := r1) as [p Hp];
      [simpl in Hn; lia | reflexivity |].
    exists (String b1 p). simpl. now rewrite <- Hp. }
  destruct r1 as [|b2 r2]; [exists ""; reflexivity |].
  destruct (space2 b2 b1).
  { destruct (IH (String.length r2)) with (s := r2) as [p Hp];
      [simpl in Hn; lia | reflexivity |].
    exists (String b1 (String b2 p)). simpl. now rewrite <- Hp. }
  destruct r2 as [|b3 r3]; [exists ""; reflexivity |].
  destruct (space3 b3 b2 b1); [| exists ""; reflexivity].
  destruct (IH (String.length r3)) with (s := r3) as [p Hp];
    [simpl in Hn; lia | reflexivity |].
  exists (String b1 (String b2 (String b3 p))). simpl. now rewrite <- Hp.
Qed.

Lemma Count_trimLeft (s : string) (c : ascii) : (Count (trimLeft s) c <= Count s c)%nat.
Proof.
  destruct (trimLeft_suffix s) as [p Hp].
  rewrite Hp at 2. rewrite Count_app. lia.
Qed.

Lemma Count_trimRight (s : string) (c : ascii) : (Count (trimRight s) c <= Count s c)%nat.
Proof.
  unfold trimRight. rewrite Count_rev.
  destruct (trimLeftRev_suffix (str_rev s)) as [p Hp].
  rewrite <- (Count_rev s). rewrite Hp at 2. rewrite Count_app. lia.
Qed.

(** Trimming never adds a separator. *)
Lemma Count_TrimSpace (s : string) (c : ascii) : (Count (TrimSpace s) c <= Count s c)%nat.
Proof.
  unfold TrimSpace.
  etransitivity; [apply Count_trimRight | apply Count_trimLeft].
Qed.

Lemma Split_nonempty (s : string) (sep : ascii) : Split s sep <> [].
Proof.
  induction s as [|c s IH]; simpl; [discriminate |].
  destruct (Ascii.eqb c sep); [discriminate |].
  destruct (Split s sep); [contradiction | discriminate].
Qed.

Lemma length_Split (s : string) (sep : ascii) :
  List.length (Split s sep) = S (Count s sep).
Proof.
  induction s as [|c s IH]; simpl; [reflexivity |].
  destruct (Ascii.eqb c sep); simpl; [now rewrite IH |].
  destruct (Split s sep) as [|f fs] eqn:E; [now apply Split_nonempty in E |].
  simpl in *. lia.
Qed.

Lemma Split_no_sep (e : string) (sep : ascii) :
  Count e sep = 0%nat -> Split e sep = [e].
Proof.
  induction e as [|c e IH]; simpl; [reflexivity |].
  destruct (Ascii.eqb c sep); [discriminate |].
  simpl. intros H. now rewrite (IH H).
Qed.

Lemma Split_app_sep (e r : string) (sep : ascii) :
  Count e sep = 0%nat ->
  Split (e +:+ String sep r) sep = e :: Split r sep.
Proof.
  induction e as [|c e IH]; simpl.
  - intros _. now rewrite Ascii.eqb_refl.
  - destruct (Ascii.eqb c sep); [discriminate |].
    simpl. intros H. now rewrite (IH H).
Qed.

(** Splitting a joined record gives the columns back. *)
Lemma Split_Join (cols : list string) (sep : ascii) :
  cols <> [] ->
  Forall (fun e => Count e sep = 0%nat) cols ->
  Split (Join cols sep) sep = cols.
Proof.
  induction cols as [|e es IH]; [contradiction |].
  intros _ Hall. inversion Hall as [|? ? He Hes]; subst.
  destruct es as [|e' es'].
  - simpl. now apply Split_no_sep.
  - change (Join (e :: e' :: es') sep) with (e +:+ String sep (Join (e' :: es') sep)).
    rewrite Split_app_sep by assumption.
    f_equal. apply IH; [discriminate | assumption].
Qed.

End GoStringsFacts.

(** ** Facts about integer parsing *)

Module GoStrconvFacts.
Import GoStrconv.

(** Case analysis on the integer comparisons of a goal. *)
Ltac zcases :=
  repeat match goal with
    | |- context [(?a <? ?b)%Z] => destruct (Z.ltb_spec a b); try lia
    | |- context [(?a <=? ?b)%Z] => destruct (Z.leb_spec a b); try lia
    end.

(** *** Decimal notation, read positionally *)

Fixpoint allDigits (s : string) : bool :=
  match s with
  | EmptyString => true
  | String c r => isDigit c && allDigits r
  end.

Fixpoint digitsValue (s : string) : Z :=
  match s with
  | EmptyString => 0
  | String c r => (digitVal c * 10 ^ Z.of_nat (String.length r) + digitsValue r)%Z
  end.

Definition isNumeral (s : string) : bool :=
  negb (String.eqb s "") && allDigits s.

(** The integer a text denotes: an optional sign and one or more decimal
    digits. *)
Definition intText (s : string) : option Z :=
  match s with
  | EmptyString => None
  | String c r =>
      if Ascii.eqb c "-" then
        if isNumeral r then Some (- digitsValue r)%Z else None
      else if Ascii.eqb c "+" then
        if isNumeral r then Some (digitsValue r) else None
      else if isNumeral s then Some (digitsValue s) else None
  end.

Lemma digitVal_range (c : ascii) : isDigit c = true -> (0 <= digitVal c <= 9)%Z.
Proof.
  unfold isDigit, digitVal. intros H.
  apply andb_prop in H as [H1 H2].
  apply Nat.leb_le in H1, H2. lia.
Qed.

Lemma digitsValue_range (s : string) :
  allDigits s = true -> (0 <= digitsValue s < 10 ^ Z.of_nat (String.length s))%Z.
Proof.
  induction s as [|c r IH]; simpl; [lia |].
  intros H. apply andb_prop in H as [Hc Hr].
  specialize (IH Hr). pose proof (digitVal_range c Hc) as Hd.
  rewrite Nat2Z.inj_succ, Z.pow_succ_r by lia. nia.
Qed.

Lemma atoiLoop_digits (s : string) (n : Z) :
  allDigits s = true ->
  atoiLoop s n = Some (n * 10 ^ Z.of_nat (String.length s) + digitsValue s)%Z.
Proof.
  revert n. induction s as [|c r IH]; intros n; simpl.
  - intros _. f_equal. lia.
  - intros H. apply andb_prop in H as [Hc Hr]. rewrite Hc, (IH _ Hr).
    f_equal. rewrite Nat2Z.inj_succ, Z.pow_succ_r by lia. ring.
Qed.

Lemma atoiLoop_not_digits (s : string) (n : Z) :
  allDigits s = false -> atoiLoop s n = None.
Proof.
  revert n. induction s as [|c r IH]; intros n; simpl; [discriminate |].
  destruct (isDigit c); simpl; [apply IH | reflexivity].
Qed.

(** The loop of [ParseUint] on digits: the value, or the maximum with a
    range error once the value passes [maxUint64]. *)
Lemma parseUintLoop_digits (s : string) (n : Z) :
  allDigits s = true -> (0 <= n <= maxUint64)%Z ->
  parseUintLoop s n =
    let v := (n * 10 ^ Z.of_nat (String.length s) + digitsValue s)%Z in
    if (v <=? maxUint64)%Z then (v, None) else (maxUint64, Some ErrRange).
Proof.
  revert n. induction s as [|c r IH]; intros n Hd Hn.
  - cbn [parseUintLoop digitsValue String.length]. cbv zeta.
    replace (n * 10 ^ Z.of_nat 0 + 0)%Z with n by (simpl; lia).
    destruct (Z.leb_spec n maxUint64); [reflexivity | lia].
  - simpl in Hd. apply andb_prop in Hd as [Hc Hr].
    pose proof (digitVal_range c Hc) as Hdv.
    pose proof (digitsValue_range r Hr) as Hrv.
    cbn [parseUintLoop]. rewrite Hc.
    cbn [digitsValue String.length]. cbv zeta.
    rewrite Nat2Z.inj_succ, Z.pow_succ_r by lia.
    set (p := (10 ^ Z.of_nat (String.length r))%Z) in *.
    assert (Hp : (1 <= p)%Z) by (subst p; apply Z.lt_pred_le, Z.pow_pos_nonneg; lia).
    unfold maxUint64 in *.
    destruct (Z.leb_spec (((2 ^ 64 - 1) / 10 + 1)) n) as [Hcut | Hcut].
    + change ((2 ^ 64 - 1) / 10 + 1)%Z with 1844674407370955162%Z in Hcut.
      destruct (Z.leb_spec (n * (10 * p) + (digitVal c * p + digitsValue r)) (2 ^ 64 - 1));
        [nia | reflexivity].
    + change ((2 ^ 64 - 1) / 10 + 1)%Z with 1844674407370955162%Z in Hcut.
      destruct (Z.ltb_spec (2 ^ 64 - 1) (n * 10 + digitVal c)) as [Hov | Hov].
      * destruct (Z.leb_spec (n * (10 * p) + (digitVal c * p + digitsValue r)) (2 ^ 64 - 1));
          [nia | reflexivity].
      * rewrite IH by (assumption || lia). cbv zeta. fold p.
        replace ((n * 10 + digitVal c) * p + digitsValue r)%Z
          with (n * (10 * p) + (digitVal c * p + digitsValue r))%Z by ring.
        reflexivity.
Qed.

Lemma isNumeral_inv (s : string) :
  isNumeral s = true -> s <> "" /\ allDigits s = true.
Proof.
  unfold isNumeral. intros H. apply andb_prop in H as [H1 H2].
  split; [| assumption]. intros ->. discriminate.
Qed.

Lemma ParseUint_numeral (s : string) :
  isNumeral s = true ->
  ParseUint s =
    if (digitsValue s <=? maxUint64)%Z then (digitsValue s, None)
    else (maxUint64, Some ErrRange).
Proof.
  intros H. apply isNumeral_inv in H as [Hne Hd].
  destruct s as [|c r]; [contradiction |].
  unfold ParseUint. rewrite parseUintLoop_digits by (assumption || unfold maxUint64; lia).
  cbv zeta. now rewrite Z.mul_0_l, Z.add_0_l.
Qed.

(** [ParseInt] on the text of an integer: the integer when it fits
    [int64], the nearest bound and a range error otherwise. *)
Lemma ParseInt_intText (s : string) (v : Z) :
  intText s = Some v ->
  ParseInt s =
    if (maxInt64 <? v)%Z then (maxInt64, Some ErrRange)
    else if (v <? minInt64)%Z then (minInt64, Some ErrRange)
    else (v, None).
Proof.
  destruct s as [|c r]; [discriminate |].
  unfold intText, ParseInt, maxInt64, minInt64.
  destruct (Ascii.eqb c "-") eqn:Hneg.
  - rewrite orb_true_r.
    destruct (isNumeral r) eqn:Hnum; [| discriminate].
    intros [= <-]. rewrite (ParseUint_numeral _ Hnum).
    apply isNumeral_inv in Hnum as [_ Hd].
    pose proof (digitsValue_range r Hd) as Hr.
    unfold maxUint64.
    destruct (Z.leb_spec (digitsValue r) (2 ^ 64 - 1)); simpl negb; cbn [andb].
    + destruct (Z.ltb_spec (2 ^ 63) (digitsValue r)).
      * destruct (Z.ltb_spec (2 ^ 63 - 1) (- digitsValue r)); [lia |].
        destruct (Z.ltb_spec (- digitsValue r) (- 2 ^ 63)); [reflexivity | lia].
      * destruct (Z.ltb_spec (2 ^ 63 - 1) (- digitsValue r)); [lia |].
        destruct (Z.ltb_spec (- digitsValue r) (- 2 ^ 63)); [lia | reflexivity].
    + destruct (Z.ltb_spec (2 ^ 63) (2 ^ 64 - 1)); [| lia].
      destruct (Z.ltb_spec (2 ^ 63 - 1) (- digitsValue r)); [lia |].
      destruct (Z.ltb_spec (- digitsValue r) (- 2 ^ 63)); [reflexivity | lia].
  - rewrite orb_false_r.
    assert (Hgo : forall d, isNumeral d = true ->
      match ParseUint d with
      | (_, Some ErrSyntax) => (0%Z, Some ErrSyntax)
      | (un, _) =>
          if negb false && (2 ^ 63 <=? un)%Z then ((2 ^ 63 - 1)%Z, Some ErrRange)
          else if false && (2 ^ 63 <? un)%Z then ((- 2 ^ 63)%Z, Some ErrRange)
          else (un, None)
      end =
      if (2 ^ 63 - 1 <? digitsValue d)%Z then ((2 ^ 63 - 1)%Z, Some ErrRange)
      else if (digitsValue d <? - 2 ^ 63)%Z then ((- 2 ^ 63)%Z, Some ErrRange)
      else (digitsValue d, None)).
    { intros d Hnum. rewrite (ParseUint_numeral _ Hnum).
      apply isNumeral_inv in Hnum as [_ Hd].
      pose proof (digitsValue_range d Hd) as Hr. unfold maxUint64.
      destruct (Z.leb_spec (digitsValue d) (2 ^ 64 - 1)); cbn [negb andb].
      - destruct (Z.leb_spec (2 ^ 63) (digitsValue d)).
        + destruct (Z.ltb_spec (2 ^ 63 - 1) (digitsValue d)); [reflexivity | lia].
        + destruct (Z.ltb_spec (2 ^ 63 - 1) (digitsValue d)); [lia |].
          destruct (Z.ltb_spec (digitsValue d) (- 2 ^ 63)); [lia | reflexivity].
      - destruct (Z.leb_spec (2 ^ 63) (2 ^ 64 - 1)); [| lia].
        destruct (Z.ltb_spec (2 ^ 63 - 1) (digitsValue d)); [reflexivity | lia]. }
    destruct (Ascii.eqb c "+") eqn:Hpos.
    + destruct (isNumeral r) eqn:Hnum; [| discriminate].
      intros [= <-]. apply Hgo, Hnum.
    + destruct (isNumeral (String c r)) eqn:Hnum; [| discriminate].
      intros [= <-]. apply Hgo, Hnum.
Qed.

Lemma parseUintLoop_short_bad (s : string) (n : Z) :
  allDigits s = false -> (0 <= n)%Z ->
  ((n + 1) * 10 ^ Z.of_nat (String.length s) <= 10 ^ 19)%Z ->
  parseUintLoop s n = (0%Z, Some ErrSyntax).
Proof.
  revert n. induction s as [|c r IH]; intros n Hd Hn Hb; [discriminate |].
  cbn [allDigits] in Hd. cbn [parseUintLoop].
  destruct (isDigit c) eqn:Hc; [| reflexivity].
  cbn [andb] in Hd. pose proof (digitVal_range c Hc) as Hdv.
  cbn [String.length] in Hb. rewrite Nat2Z.inj_succ, Z.pow_succ_r in Hb by lia.
  set (p := (10 ^ Z.of_nat (String.length r))%Z) in *.
  assert (Hp : (1 <= p)%Z) by (subst p; apply Z.lt_pred_le, Z.pow_pos_nonneg; lia).
  unfold maxUint64.
  change ((2 ^ 64 - 1) / 10 + 1)%Z with 1844674407370955162%Z.
  change (10 ^ 19)%Z with 10000000000000000000%Z in Hb.
  change (2 ^ 64 - 1)%Z with 18446744073709551615%Z.
  destruct (Z.leb_spec 1844674407370955162 n); [nia |].
  destruct (Z.ltb_spec 18446744073709551615 (n * 10 + digitVal c)); [nia |].
  apply IH; [assumption | lia |].
  fold p. change (10 ^ 19)%Z with 10000000000000000000%Z. nia.
Qed.

Lemma pow10_mono (a b : nat) : (a <= b)%nat -> (10 ^ Z.of_nat a <= 10 ^ Z.of_nat b)%Z.
Proof. intros H. apply Z.pow_le_mono_r; lia. Qed.

(** On fewer than 19 bytes nothing overflows: the text of an integer gives
    the integer, any other text a syntax error. *)
Lemma ParseInt_short (s : string) :
  (String.length s < 19)%nat ->
  ParseInt s =
    match intText s with
    | Some v => (v, None)
    | None => (0%Z, Some ErrSyntax)
    end.
Proof.
  intros Hlen. destruct (intText s) as [v|] eqn:Hv.
  - rewrite (ParseInt_intText _ _ Hv).
    assert (Hr : (- 10 ^ 18 < v < 10 ^ 18)%Z).
    { destruct s as [|c r]; [discriminate |]. unfold intText in Hv.
      cbn [String.length] in Hlen.
      assert (Hnum : forall d, isNumeral d = true -> (String.length d <= 18)%nat ->
                (0 <= digitsValue d < 10 ^ 18)%Z).
      { intros d Hd Hl. apply isNumeral_inv in Hd as [_ Hd].
        pose proof (digitsValue_range d Hd).
        pose proof (pow10_mono _ _ Hl). change (Z.of_nat 18) with 18%Z in *. lia. }
      destruct (Ascii.eqb c "-").
      - destruct (isNumeral r) eqn:E; [| discriminate]. injection Hv as <-.
        specialize (Hnum r E ltac:(lia)). lia.
      - destruct (Ascii.eqb c "+").
        + destruct (isNumeral r) eqn:E; [| discriminate]. injection Hv as <-.
          specialize (Hnum r E ltac:(lia)). lia.
        + destruct (isNumeral (String c r)) eqn:E; [| discriminate]. injection Hv as <-.
          specialize (Hnum _ E ltac:(cbn [String.length]; lia)).
          cbn [digitsValue] in Hnum. lia. }
    unfold maxInt64, minInt64.
    change (10 ^ 18)%Z with 1000000000000000000%Z in Hr.
    change (2 ^ 63)%Z with 9223372036854775808%Z.
    zcases. reflexivity.
  - destruct s as [|c r]; [reflexivity |].
    cbn [String.length] in Hlen. unfold intText in Hv. unfold ParseInt.
    assert (Hbad : forall d, isNumeral d = false -> (String.length d <= 18)%nat ->
              ParseUint d = (0%Z, Some ErrSyntax)).
    { intros d Hd Hl. unfold isNumeral in Hd. unfold ParseUint.
      destruct d as [|x d]; [reflexivity |].
      cbn [String.eqb negb andb] in Hd.
      apply parseUintLoop_short_bad; [assumption | lia |].
      pose proof (pow10_mono _ _ Hl). change (Z.of_nat 18) with 18%Z in *.
      change (10 ^ 19)%Z with 10000000000000000000%Z.
      change (10 ^ 18)%Z with 1000000000000000000%Z in *. lia. }
    destruct (Ascii.eqb c "-").
    + rewrite orb_true_r. destruct (isNumeral r) eqn:E; [discriminate |].
      rewrite Hbad by (assumption || lia). reflexivity.
    + rewrite orb_false_r. destruct (Ascii.eqb c "+").
      * destruct (isNumeral r) eqn:E; [discriminate |].
        rewrite Hbad by (assumption || lia). reflexivity.
      * destruct (isNumeral (String c r)) eqn:E; [discriminate |].
        rewrite Hbad by (assumption || cbn [String.length]; lia). reflexivity.
Qed.

Lemma Atoi_short (s : string) :
  (String.length s < 19)%nat ->
  Atoi s =
    match intText s with
    | Some v => (v, None)
    | None => (0%Z, Some ErrSyntax)
    end.
Proof.
  intros Hlen. unfold Atoi. cbv zeta.
  destruct s as [|c r]; [reflexivity |].
  replace ((0 <? String.length (String c r))%nat && (String.length (String c r) <? 19)%nat)
    with true
    by (symmetry; apply andb_true_intro; split;
        [apply Nat.ltb_lt; cbn [String.length]; lia | now apply Nat.ltb_lt]).
  unfold intText, isNumeral.
  assert (Hloop : forall d,
            atoiLoop d 0 = if allDigits d then Some (digitsValue d) else None).
  { intros d. destruct (allDigits d) eqn:E.
    - rewrite atoiLoop_digits by assumption. f_equal; lia.
    - now apply atoiLoop_not_digits. }
  destruct (Ascii.eqb c "-") eqn:Hneg.
  - cbn [orb andb]. destruct r as [|x r]; [reflexivity |].
    cbn [String.length Nat.ltb Nat.leb String.eqb negb andb].
    rewrite Hloop. destruct (allDigits (String x r)); reflexivity.
  - destruct (Ascii.eqb c "+") eqn:Hpos.
    + cbn [orb andb]. destruct r as [|x r]; [reflexivity |].
      cbn [String.length Nat.ltb Nat.leb String.eqb negb andb].
      rewrite Hloop. destruct (allDigits (String x r)); reflexivity.
    + cbn [orb andb String.eqb negb]. rewrite Hloop.
      destruct (allDigits (String c r)); reflexivity.
Qed.

(** [Atoi] is [ParseInt] in base 10 at the size of [int]. *)
Lemma Atoi_ParseInt (s : string) : Atoi s = ParseInt s.
Proof.
  destruct (Nat.ltb_spec (String.length s) 19) as [Hlt | Hge].
  - now rewrite Atoi_short, ParseInt_short.
  - unfold Atoi. cbv zeta.
    replace (String.length s <? 19)%nat with false
      by (symmetry; apply Nat.ltb_ge; lia).
    now rewrite andb_false_r.
Qed.

End GoStrconvFacts.

(** ** A reading of [strconv.ParseFloat] for the examples *)

Module Float64.
Import GoStrconv GoStrconvFacts.

Definition float64 : Type := PrimFloat.float.

Definition zero : float64 := PrimFloat.zero.

Fixpoint splitDot (s : string) : string * option string :=
  match s with
  | EmptyString => (EmptyString, None)
  | String c r =>
      if Ascii.eqb c "." then (EmptyString, Some r)
      else let (i, f) := splitDot r in (String c i, f)
  end.

Definition ofUint (n : Z) : float64 := PrimFloat.of_uint63 (Uint63.of_Z n).

(** Plain decimals of at most 15 digits, the notation of the timings in
    the logs: the digits are an integer below [2^53] and the scale a power
    of ten below [10^16], both exact as [float64], and [ParseFloat]
    returns their correctly rounded quotient. Texts in another notation
    (an exponent, more digits, [Inf]) are outside this reading and are
    given as a syntax error. *)
Definition ParseFloat (s : string) : float64 * option NumError :=
  let (neg, body) :=
    match s with
    | String c r =>
        if Ascii.eqb c "-" then (true, r)
        else if Ascii.eqb c "+" then (false, r) else (false, s)
    | EmptyString => (false, s)
    end in
  let (int, frac) := splitDot body in
  let frac := match frac with Some f => f | None => EmptyString end in
  let digits := int +:+ frac in
  if isNumeral digits && (String.length digits <=? 15)%nat then
    let f := ofUint (digitsValue digits) in
    let f := if neg then PrimFloat.opp f else f in
    (PrimFloat.div f (ofUint (10 ^ Z.of_nat (String.length frac))), None)
  else (zero, Some ErrSyntax).

End Float64.

(** ** The CloudFront parser *)

Module CloudFrontSpec.
Import GoStrings GoStrconv GoStringsFacts GoStrconvFacts CloudFront.

Section Spec.

Variable float64 : Type.
Variable float64_zero : float64.
Variable ParseFloat : string -> float64 * option NumError.

#[local] Abbreviation Entry := (CloudFrontLogEntry float64).
#[local] Abbreviation parse := (ParseCloudFrontLogLine float64 float64_zero ParseFloat).
#[local] Abbreviation parseFloat := (parseCFFloat float64 float64_zero ParseFloat).

(** A record with its columns: at least 33 of them, none holding a tab, no
    white space around the record, and not a comment. *)
Record wellFormed (cols : list string) : Prop := {
  wf_count : (33 <= List.length cols)%nat;
  wf_columns : Forall (fun c => Count c tab = 0%nat) cols;
  wf_trimmed : TrimSpace (Join cols tab) = Join cols tab;
  wf_no_comment : HasPrefix (Join cols tab) "#" = false
}.

(** An integer column holds the absent sentinel or the text of an integer
    of the range of [int64]. *)
Definition validInt (s : string) : Prop :=
  isAbsent s = true \/
  exists v, intText s = Some v /\ (minInt64 <= v <= maxInt64)%Z.

(** The integer an integer column denotes. *)
Definition intValue (s : string) : Z :=
  if isAbsent s then 0%Z
  else match intText s with Some v => v | None => 0%Z end.

(** The value of a float column: zero for the sentinel, what
    [strconv.ParseFloat] reads otherwise. *)
Definition floatValue (s : string) : float64 :=
  if isAbsent s then float64_zero else fst (ParseFloat s).

Definition intColumns : list nat := [3; 8; 17; 25; 26; 30]%nat.
Definition floatColumns : list nat := [18; 27]%nat.

Definition validNumbers (cols : list string) : Prop :=
  Forall (fun i => validInt (nth i cols "")) intColumns.

(** The entry whose fields are the columns, read by their types. *)
Definition expectedEntry (cols : list string) : Entry :=
  let col i := nth i cols "" in
  {| Date := col 0%nat;
     Time := col 1%nat;
     XEdgeLocation := col 2%nat;
     SCBytes := intValue (col 3%nat);
     CIP := col 4%nat;
     CSMethod := col 5%nat;
     CSHost := col 6%nat;
     CSURIStem := col 7%nat;
     SCStatus := intValue (col 8%nat);
     CSReferer := col 9%nat;
     CSUserAgent := col 10%nat;
     CSURIQuery := col 11%nat;
     CSCookie := col 12%nat;
     XEdgeResultType := col 13%nat;
     XEdgeRequestID := col 14%nat;
     XHostHeader := col 15%nat;
     CSProtocol := col 16%nat;
     CSBytes := intValue (col 17%nat);
     TimeTaken := floatValue (col 18%nat);
     XForwardedFor := col 19%nat;
     SSLProtocol := col 20%nat;
     SSLCipher := col 21%nat;
     XEdgeResponseResultType := col 22%nat;
     CSProtocolVersion := col 23%nat;
     FLEStatus := col 24%nat;
     FLEEncryptedFields := intValue (col 25%nat);
     CPort := intValue (col 26%nat);
     TimeToFirstByte := floatValue (col 27%nat);
     XEdgeDetailedResultType := col 28%nat;
     SCContentType := col 29%nat;
     SCContentLen := intValue (col 30%nat);
     SCRangeStart := col 31%nat;
     SCRangeEnd := col 32%nat |}.

Lemma parseCFInt64_valid (s : string) : validInt s -> parseCFInt64 s = intValue s.
Proof.
  unfold parseCFInt64, intValue. intros [Ha | (v & Hv & Hr)].
  - now rewrite Ha.
  - destruct (isAbsent s); [reflexivity |].
    rewrite (ParseInt_intText _ _ Hv), Hv. zcases. reflexivity.
Qed.

Lemma parseCFInt_valid (s : string) : validInt s -> parseCFInt s = intValue s.
Proof.
  intros H. rewrite <- (parseCFInt64_valid _ H).
  unfold parseCFInt, parseCFInt64. now rewrite Atoi_ParseInt.
Qed.

(** The outcome of the parser in terms of the trimmed line. *)
Lemma ParseCloudFrontLogLine_unfold (line : string) :
  parse line =
    let line := TrimSpace line in
    if String.eqb line "" || HasPrefix line "#" then Skipped
    else
      let fields := Split line tab in
      if (List.length fields <? 33)%nat
      then Failed (InvalidNumberOfFields (List.length fields))
      else Parsed
        {| Date := field fields 0;
           Time := field fields 1;
           XEdgeLocation := field fields 2;
           SCBytes := parseCFInt64 (field fields 3);
           CIP := field fields 4;
           CSMethod := field fields 5;
           CSHost := field fields 6;
           CSURIStem := field fields 7;
           SCStatus := parseCFInt (field fields 8);
           CSReferer := field fields 9;
           CSUserAgent := field fields 10;
           CSURIQuery := field fields 11;
           CSCookie := field fields 12;
           XEdgeResultType := field fields 13;
           XEdgeRequestID := field fields 14;
           XHostHeader := field fields 15;
           CSProtocol := field fields 16;
           CSBytes := parseCFInt64 (field fields 17);
           TimeTaken := parseFloat (field fields 18);
           XForwardedFor := field fields 19;
           SSLProtocol := field fields 20;
           SSLCipher := field fields 21;
           XEdgeResponseResultType := field fields 22;
           CSProtocolVersion := field fields 23;
           FLEStatus := field fields 24;
           FLEEncryptedFields := parseCFInt (field fields 25);
           CPort := parseCFInt (field fields 26);
           TimeToFirstByte := parseFloat (field fields 27);
           XEdgeDetailedResultType := field fields 28;
           SCContentType := field fields 29;
           SCContentLen := parseCFInt64 (field fields 30);
           SCRangeStart := field fields 31;
           SCRangeEnd := field fields 32 |}.
Proof. reflexivity. Qed.

Lemma wellFormed_fields (cols : list string) :
  wellFormed cols ->
  TrimSpace (Join cols tab) = Join cols tab /\
  String.eqb (Join cols tab) "" || HasPrefix (Join cols tab) "#" = false /\
  Split (Join cols tab) tab = cols /\
  (List.length cols <? 33)%nat = false.
Proof.
  intros [Hn Hc Ht Hp].
  assert (Hs : Split (Join cols tab) tab = cols).
  { apply Split_Join; [| assumption]. intros ->. simpl in Hn. lia. }
  repeat split; try assumption.
  - rewrite Hp, orb_false_r. apply String.eqb_neq. intros He.
    rewrite He in Hs. simpl in Hs. subst cols. simpl in Hn. lia.
  - apply Nat.ltb_ge. lia.
Qed.


Lemma parse_wellFormed (cols : list string) :
  wellFormed cols ->
  parse (Join cols tab) =
    Parsed
      {| Date := field cols 0;
         Time := field cols 1;
         XEdgeLocation := field cols 2;
         SCBytes := parseCFInt64 (field cols 3);
         CIP := field cols 4;
         CSMethod := field cols 5;
         CSHost := field cols 6;
         CSURIStem := field cols 7;
         SCStatus := parseCFInt (field cols 8);
         CSReferer := field cols 9;
         CSUserAgent := field cols 10;
         CSURIQuery := field cols 11;
         CSCookie := field cols 12;
         XEdgeResultType := field cols 13;
         XEdgeRequestID := field cols 14;
         XHostHeader := field cols 15;
         CSProtocol := field cols 16;
         CSBytes := parseCFInt64 (field cols 17);
         TimeTaken := parseFloat (field cols 18);
         XForwardedFor := field cols 19;
         SSLProtocol := field cols 20;
         SSLCipher := field cols 21;
         XEdgeResponseResultType := field cols 22;
         CSProtocolVersion := field cols 23;
         FLEStatus := field cols 24;
         FLEEncryptedFields := parseCFInt (field cols 25);
         CPort := parseCFInt (field cols 26);
         TimeToFirstByte := parseFloat (field cols 27);
         XEdgeDetailedResultType := field cols 28;
         SCContentType := field cols 29;
         SCContentLen := parseCFInt64 (field cols 30);
         SCRangeStart := field cols 31;
         SCRangeEnd := field cols 32 |}.
Proof.
  intros Hwf. destruct (wellFormed_fields _ Hwf) as (Ht & Hne & Hs & Hlen).
  rewrite ParseCloudFrontLogLine_unfold. cbv zeta. rewrite Ht, Hne, Hs, Hlen. reflexivity.
Qed.

(** When the parser fails: the trimmed line is neither blank nor a
    comment and has fewer than 33 fields. *)
Lemma parse_Failed_iff (line : string) (err : ParseErr) :
  parse line = Failed err <->
  TrimSpace line <> "" /\
  HasPrefix (TrimSpace line) "#" = false /\
  (List.length (Split (TrimSpace line) tab) < 33)%nat /\
  err = InvalidNumberOfFields (List.length (Split (TrimSpace line) tab)).
Proof.
  rewrite ParseCloudFrontLogLine_unfold. cbv zeta.
  destruct (String.eqb_spec (TrimSpace line) "") as [He | He].
  - cbn [orb]. split; [discriminate | intros (H & _); contradiction].
  - cbn [orb]. destruct (HasPrefix (TrimSpace line) "#").
    + split; [discriminate | intros (_ & H & _); discriminate].
    + destruct (Nat.ltb_spec (List.length (Split (TrimSpace line) tab)) 33) as [Hl | Hl].
      * split.
        -- intros [= <-]. repeat split; assumption.
        -- intros (_ & _ & _ & ->). reflexivity.
      * split; [discriminate | intros (_ & _ & H & _); lia].
Qed.

(** ** The numeric columns *)

Inductive numericColumn : Type :=
| ColSCBytes
| ColSCStatus
| ColCSBytes
| ColTimeTaken
| ColFLEEncryptedFields
| ColCPort
| ColTimeToFirstByte
| ColSCContentLen.

(** The position of a numeric column in the record, from 0. *)
Definition columnIndex (c : numericColumn) : nat :=
  match c with
  | ColSCBytes => 3
  | ColSCStatus => 8
  | ColCSBytes => 17
  | ColTimeTaken => 18
  | ColFLEEncryptedFields => 25
  | ColCPort => 26
  | ColTimeToFirstByte => 27
  | ColSCContentLen => 30
  end.

Definition storesZero (c : numericColumn) (e : Entry) : Prop :=
  match c with
  | ColSCBytes => SCBytes e = 0%Z
  | ColSCStatus => SCStatus e = 0%Z
  | ColCSBytes => CSBytes e = 0%Z
  | ColTimeTaken => TimeTaken e = float64_zero
  | ColFLEEncryptedFields => FLEEncryptedFields e = 0%Z
  | ColCPort => CPort e = 0%Z
  | ColTimeToFirstByte => TimeToFirstByte e = float64_zero
  | ColSCContentLen => SCContentLen e = 0%Z
  end.

Lemma absent_column_zero (cols : list string) (c : numericColumn) :
  wellFormed cols ->
  isAbsent (nth (columnIndex c) cols "") = true ->
  exists e, parse (Join cols tab) = Parsed e /\ storesZero c e.
Proof.
  intros Hwf Habs. rewrite (parse_wellFormed _ Hwf).
  eexists. split; [reflexivity |].
  destruct c; cbn [storesZero columnIndex] in *; cbn;
    unfold parseCFInt, parseCFInt64, parseCFFloat, field; now rewrite Habs.
Qed.


Lemma parseCFInt64_not_a_number (s : string) :
  isAbsent s = false -> intText s = None -> (String.length s < 19)%nat ->
  parseCFInt64 s = 0%Z.
Proof.
  intros Ha Hv Hl. unfold parseCFInt64. rewrite Ha, ParseInt_short, Hv by assumption.
  reflexivity.
Qed.

Lemma parseCFInt64_out_of_range (s : string) (v : Z) :
  intText s = Some v ->
  ((maxInt64 < v)%Z -> parseCFInt64 s = maxInt64) /\
  ((v < minInt64)%Z -> parseCFInt64 s = minInt64).
Proof.
  intros Hv. unfold parseCFInt64.
  assert (Ha : isAbsent s = false).
  { unfold isAbsent.
    destruct (String.eqb_spec s "-") as [-> | _]; [discriminate |].
    destruct (String.eqb_spec s "") as [-> | _]; [discriminate | reflexivity]. }
  rewrite Ha, (ParseInt_intText _ _ Hv).
  unfold maxInt64, minInt64. split; intros H; zcases; reflexivity.
Qed.









(** A line whose trimmed text has 33 or more columns gives the entry
    made of the first 33 of them. *)
Lemma parse_columns (line : string) :
  TrimSpace line <> "" ->
  HasPrefix (TrimSpace line) "#" = false ->
  (33 <= List.length (Split (TrimSpace line) tab))%nat ->
  validNumbers (Split (TrimSpace line) tab) ->
  parse line = Parsed (expectedEntry (Split (TrimSpace line) tab)).
Proof.
  intros Hne Hc Hlen Hnum. rewrite ParseCloudFrontLogLine_unfold. cbv zeta.
  apply String.eqb_neq in Hne. rewrite Hne, Hc. cbn [orb].
  apply Nat.ltb_ge in Hlen. rewrite Hlen.
  unfold validNumbers, intColumns in Hnum.
  repeat (apply Forall_cons_iff in Hnum; destruct Hnum as [? Hnum]).
  unfold expectedEntry, field.
  rewrite !parseCFInt_valid, !parseCFInt64_valid by assumption.
  reflexivity.
Qed.

(** C5, as amended. The parser removes the white space at the two ends
    of the line, tabs among it, before it splits the line at the tabs. A
    record that is not blank, not a comment and has fewer than 33
    tab-separated columns is refused with the error on the number of
    fields, and so is every record of which fewer than 33 columns are
    left once it is trimmed. A record of which 33 or more columns are
    left, with valid numbers in them, gives the entry whose 33 fields are
    the first 33 columns of the trimmed record, the numeric ones read as
    numbers (the absent sentinel as zero). For a record without white
    space at its ends these are the columns of the record itself. *)
Theorem ParseCloudFrontLogLine_columns :
  (forall line : string,
      TrimSpace line <> "" ->
      HasPrefix (TrimSpace line) "#" = false ->
      (List.length (Split line tab) < 33)%nat ->
      exists got : nat,
        (got < 33)%nat /\ parse line = Failed (InvalidNumberOfFields got))
  /\
  (forall line : string,
      TrimSpace line <> "" ->
      HasPrefix (TrimSpace line) "#" = false ->
      (List.length (Split (TrimSpace line) tab) < 33)%nat ->
      parse line = Failed (InvalidNumberOfFields (List.length (Split (TrimSpace line) tab))))
  /\
  (forall line : string,
      TrimSpace line <> "" ->
      HasPrefix (TrimSpace line) "#" = false ->
      (33 <= List.length (Split (TrimSpace line) tab))%nat ->
      validNumbers (Split (TrimSpace line) tab) ->
      parse line = Parsed (expectedEntry (Split (TrimSpace line) tab)))
  /\
  (forall cols : list string,
      wellFormed cols -> validNumbers cols ->
      parse (Join cols tab) = Parsed (expectedEntry cols)).
Proof.
  split; [| split; [| split]].
  - intros line Hne Hc Hlen.
    exists (List.length (Split (TrimSpace line) tab)).
    assert (Hl : (List.length (Split (TrimSpace line) tab) < 33)%nat).
    { rewrite length_Split in *. pose proof (Count_TrimSpace line tab). lia. }
    split; [assumption |]. apply parse_Failed_iff. repeat split; assumption.
  - intros line Hne Hc Hlen. apply parse_Failed_iff. repeat split; assumption.
  - exact parse_columns.
  - intros cols Hwf Hnum. rewrite (parse_wellFormed _ Hwf).
    unfold validNumbers, intColumns in Hnum.
    repeat (apply Forall_cons_iff in Hnum; destruct Hnum as [? Hnum]).
    unfold expectedEntry, field.
    rewrite !parseCFInt_valid, !parseCFInt64_valid by assumption.
    reflexivity.
Qed.


End Spec.

(** The record of the parser test, and one whose [sc-bytes] column has
    twenty digits. *)
Definition testRecord : list string :=
  ["2019-12-04"; "21:02:31"; "LAX1"; "392"; "192.0.2.100"; "GET";
   "d1.cloudfront.net"; "/index.html"; "200"; "-"; "UA"; "-"; "-"; "Hit";
   "ID1"; "d1.cloudfront.net"; "https"; "23"; "0.001"; "-"; "TLSv1.2";
   "Cipher"; "Hit"; "HTTP/2.0"; "-"; "-"; "11040"; "0.001"; "Hit";
   "text/html"; "78"; "-"; "-"].

Definition shortRecord : list string := ["date"; "time"; "location"].


Lemma testRecord_wellFormed : wellFormed testRecord.
Proof.
  constructor.
  - vm_compute. lia.
  - repeat constructor.
  - vm_compute. reflexivity.
  - vm_compute. reflexivity.
Defined.

Ltac valid_numbers :=
  unfold validNumbers, intColumns;
  repeat (apply List.Forall_cons;
          [ first [ left; reflexivity
                  | right; eexists; split;
                    [reflexivity | vm_compute; split; discriminate] ] | ]);
  apply List.Forall_nil.

Lemma testRecord_valid : validNumbers testRecord.
Proof. valid_numbers. Qed.

(** The record of the parser test with nothing in its last column, and
    with nothing in its first column and a 34th column after the last. *)
Definition emptyLastRecord : list string := take 32 testRecord ++ [""].

Definition emptyFirstRecord : list string := "" :: drop 1 testRecord ++ ["x"].

(** C5 as stated fails. The first record has 33 columns and valid
    numbers; its last column is empty, so the record ends with a tab,
    the tab is trimmed away, and the record is refused for having 32
    fields. The second has 34 columns and valid numbers; its first
    column is empty, the tab after it is trimmed away, and every field
    of the entry holds the column to the right of its own: the date is
    the time column, and the [sc-bytes] column [392] is read as 0 from
    the text of the client address. *)
Lemma ParseCloudFrontLogLine_trims_before_split :
  (List.length emptyLastRecord = 33%nat /\
   validNumbers emptyLastRecord /\
   ParseCloudFrontLogLine Float64.float64 Float64.zero Float64.ParseFloat
     (Join emptyLastRecord tab) = Failed (InvalidNumberOfFields 32))
  /\
  (List.length emptyFirstRecord = 34%nat /\
   validNumbers emptyFirstRecord /\
   nth 0 emptyFirstRecord "" = "" /\
   nth 3 emptyFirstRecord "" = "392" /\
   exists e : CloudFrontLogEntry Float64.float64,
     ParseCloudFrontLogLine Float64.float64 Float64.zero Float64.ParseFloat
       (Join emptyFirstRecord tab) = Parsed e /\
     Date e = "21:02:31" /\
     SCBytes e = 0%Z /\
     e <> expectedEntry Float64.float64 Float64.zero Float64.ParseFloat emptyFirstRecord).
Proof.
  split.
  - split; [reflexivity |]. split; [valid_numbers | vm_compute; reflexivity].
  - split; [reflexivity |]. split; [valid_numbers |].
    split; [reflexivity |]. split; [reflexivity |].
    eexists. split; [vm_compute; reflexivity |].
    split; [reflexivity |]. split; [reflexivity |].
    intros E. apply (f_equal Date) in E. discriminate E.
Qed.

Lemma ParseCloudFrontLogLine_columns_witness :
  (exists got : nat,
      (got < 33)%nat /\
      ParseCloudFrontLogLine Float64.float64 Float64.zero Float64.ParseFloat
        (Join shortRecord tab) = Failed (InvalidNumberOfFields got))
  /\
  ParseCloudFrontLogLine Float64.float64 Float64.zero Float64.ParseFloat
    (" " +:+ Join testRecord tab +:+ String (byte_of 13) EmptyString)
  = Parsed (expectedEntry Float64.float64 Float64.zero Float64.ParseFloat testRecord)
  /\
  ParseCloudFrontLogLine Float64.float64 Float64.zero Float64.ParseFloat
    (Join testRecord tab)
  = Parsed (expectedEntry Float64.float64 Float64.zero Float64.ParseFloat testRecord).
Proof.
  split; [| split].
  - apply (proj1 (ParseCloudFrontLogLine_columns
                    Float64.float64 Float64.zero Float64.ParseFloat)).
    + vm_compute. discriminate.
    + vm_compute. reflexivity.
    + vm_compute. lia.
  - change testRecord
      with (Split (TrimSpace (" " +:+ Join testRecord tab +:+ String (byte_of 13) EmptyString))
              tab) at 2.
    apply (proj1 (proj2 (proj2 (ParseCloudFrontLogLine_columns
                    Float64.float64 Float64.zero Float64.ParseFloat)))).
    + vm_compute. discriminate.
    + vm_compute. reflexivity.
    + vm_compute. lia.
    + exact testRecord_valid.
  - apply (proj2 (proj2 (proj2 (ParseCloudFrontLogLine_columns
                    Float64.float64 Float64.zero Float64.ParseFloat)))).
    + exact testRecord_wellFormed.
    + exact testRecord_valid.
Defined.




End CloudFrontSpec.

(** ** The matcher against a declarative reading of the patterns *)

Module GoRegexpFacts.
Import GoStringsFacts GoRegexp.

(** All the bytes of [s] are in the class. *)
Fixpoint allIn (cls : ascii -> bool) (s : string) : bool :=
  match s with
  | EmptyString => true
  | String c r => cls c && allIn cls r
  end.

(** [Matches p s groups rest]: [s] is a text the pattern matches, followed
    by [rest], with these texts for the capturing groups. *)
Inductive Matches : pattern -> string -> list string -> string -> Prop :=
| M_nil (s : string) : Matches [] s [] s
| M_lit (c : ascii) (p : pattern) (s : string) (groups : list string) (rest : string) :
    Matches p s groups rest ->
    Matches (Lit c :: p) (String c s) groups rest
| M_rep (capture : bool) (mn : nat) (cls : ascii -> bool) (p : pattern)
    (run s : string) (groups : list string) (rest : string) :
    allIn cls run = true ->
    (mn <= String.length run)%nat ->
    Matches p s groups rest ->
    Matches (Rep capture mn cls :: p) (run +:+ s)
      (if capture then run :: groups else groups) rest.

Lemma snoc_app (t : string) (c : ascii) (r : string) :
  snoc t c +:+ r = t +:+ String c r.
Proof. unfold snoc, str1. now rewrite app_assoc. Qed.

Lemma allIn_app (cls : ascii -> bool) (a b : string) :
  allIn cls (a +:+ b) = allIn cls a && allIn cls b.
Proof.
  induction a as [|c a IH]; simpl; [reflexivity |].
  rewrite IH. now rewrite andb_assoc.
Qed.

(** What a result of the greedy loop is made of. *)
Lemma rep_sound (k : string -> option (list string * string))
    (capture : bool) (mn : nat) (cls : ascii -> bool)
    (s taken : string) (n : nat) (groups : list string) (rest : string) :
  rep k capture mn cls taken n s = Some (groups, rest) ->
  exists run s' groups',
    s = run +:+ s' /\ allIn cls run = true /\
    (mn <= n + String.length run)%nat /\
    k s' = Some (groups', rest) /\
    groups = if capture then (taken +:+ run) :: groups' else groups'.
Proof.
  revert taken n. induction s as [|c s IH]; intros taken n.
  - cbn [rep]. destruct (Nat.leb_spec mn n); [| discriminate].
    destruct (k "") as [[g r]|] eqn:Hk; [| discriminate].
    intros [= <- <-]. exists "", "", g.
    split; [reflexivity |]. split; [reflexivity |].
    split; [simpl; lia |]. split; [assumption | now rewrite app_empty_r].
  - cbn [rep].
    assert (Hstop :
      (if (mn <=? n)%nat
       then match k (String c s) with
            | Some (g, r) => Some (if capture then taken :: g else g, r)
            | None => None
            end
       else None) = Some (groups, rest) ->
      exists run s' groups',
        String c s = run +:+ s' /\ allIn cls run = true /\
        (mn <= n + String.length run)%nat /\
        k s' = Some (groups', rest) /\
        groups = if capture then (taken +:+ run) :: groups' else groups').
    { destruct (Nat.leb_spec mn n); [| discriminate].
      destruct (k (String c s)) as [[g r]|] eqn:Hk; [| discriminate].
      intros [= <- <-]. exists "", (String c s), g.
      split; [reflexivity |]. split; [reflexivity |].
      split; [simpl; lia |]. split; [assumption | now rewrite app_empty_r]. }
    destruct (cls c) eqn:Hc; [| exact Hstop].
    destruct (rep k capture mn cls (snoc taken c) (S n) s) as [[g r]|] eqn:Hr;
      [| exact Hstop].
    intros [= <- <-]. apply IH in Hr as (run & s' & g' & -> & Hall & Hmn & Hk & ->).
    exists (String c run), s', g'. rewrite snoc_app.
    split; [reflexivity |]. split; [simpl; now rewrite Hc |].
    split; [simpl; lia |]. split; [assumption | reflexivity].
Qed.

(** The loop finds a match whenever the rest of the pattern matches after
    some admissible run. *)
Lemma rep_complete (k : string -> option (list string * string))
    (capture : bool) (mn : nat) (cls : ascii -> bool)
    (run s' taken : string) (n : nat) :
  allIn cls run = true ->
  (mn <= n + String.length run)%nat ->
  k s' <> None ->
  rep k capture mn cls taken n (run +:+ s') <> None.
Proof.
  revert taken n. induction run as [|c run IH]; intros taken n Hall Hmn Hk.
  - simpl in *. destruct s' as [|c s']; cbn [rep].
    + destruct (Nat.leb_spec mn n); [| lia].
      destruct (k "") as [[g r]|]; [discriminate | contradiction].
    + destruct (cls c).
      * destruct (rep k capture mn cls (snoc taken c) (S n) s'); [discriminate |].
        destruct (Nat.leb_spec mn n); [| lia].
        destruct (k (String c s')) as [[g r]|]; [discriminate | contradiction].
      * destruct (Nat.leb_spec mn n); [| lia].
        destruct (k (String c s')) as [[g r]|]; [discriminate | contradiction].
  - simpl in Hall. apply andb_prop in Hall as [Hc Hall].
    simpl. rewrite Hc.
    specialize (IH (snoc taken c) (S n) Hall ltac:(simpl in Hmn; lia) Hk).
    destruct (rep k capture mn cls (snoc taken c) (S n) (run +:+ s')); [discriminate |].
    contradiction.
Qed.

Lemma match_here_sound (p : pattern) (s : string) (groups : list string) (rest : string) :
  match_here p s = Some (groups, rest) -> Matches p s groups rest.
Proof.
  revert s groups rest. induction p as [|[c | capture mn cls] p IH]; intros s groups rest.
  - intros [= <- <-]. constructor.
  - cbn [match_here]. destruct s as [|c' s]; [discriminate |].
    destruct (Ascii.eqb_spec c c') as [<- |]; [| discriminate].
    intros H. constructor. now apply IH.
  - cbn [match_here]. intros H.
    apply rep_sound in H as (run & s' & g' & -> & Hall & Hmn & Hk & ->).
    simpl in *. constructor; [assumption | lia | now apply IH].
Qed.

Lemma match_here_complete (p : pattern) (s : string) (groups : list string) (rest : string) :
  Matches p s groups rest -> match_here p s <> None.
Proof.
  induction 1 as [s | c p s g r _ IH | capture mn cls p run s g r Hall Hmn _ IH].
  - discriminate.
  - cbn [match_here]. now rewrite Ascii.eqb_refl.
  - cbn [match_here]. apply rep_complete; [assumption | lia | assumption].
Qed.

(** The capturing groups of a pattern, with their minimum and class. *)
Fixpoint captures (p : pattern) : list (nat * (ascii -> bool)) :=
  match p with
  | [] => []
  | Lit _ :: p' => captures p'
  | Rep capture mn cls :: p' =>
      if capture then (mn, cls) :: captures p' else captures p'
  end.

(** Every group of a match is a text of its class. *)
Lemma Matches_groups (p : pattern) (s : string) (groups : list string) (rest : string) :
  Matches p s groups rest ->
  Forall2 (fun spec g => (fst spec <= String.length g)%nat /\ allIn (snd spec) g = true)
    (captures p) groups.
Proof.
  induction 1 as [s | c p s g r _ IH | capture mn cls p run s g r Hall Hmn _ IH];
    cbn [captures].
  - constructor.
  - assumption.
  - destruct capture; [constructor; [split |] |]; assumption.
Qed.

Lemma match_here_lits (l : string) (p : pattern) (s : string) :
  match_here (lits l ++ p)%list (l +:+ s) = match_here p s.
Proof.
  induction l as [|c l IH]; [reflexivity |].
  cbn [lits List.app match_here]. simpl. now rewrite Ascii.eqb_refl.
Qed.

Lemma Matches_lits_inv (l : string) (p : pattern) (s : string)
    (groups : list string) (rest : string) :
  Matches (lits l ++ p)%list s groups rest ->
  exists s', s = l +:+ s' /\ Matches p s' groups rest.
Proof.
  revert s. induction l as [|c l IH]; intros s; cbn [lits List.app].
  - intros H. now exists s.
  - intros H. inversion H as [| ? ? s0 ? ? H0 |]; subst.
    apply IH in H0 as (s' & -> & H'). now exists s'.
Qed.

Lemma Matches_lits (l : string) (p : pattern) (s : string)
    (groups : list string) (rest : string) :
  Matches p s groups rest -> Matches (lits l ++ p)%list (l +:+ s) groups rest.
Proof.
  intros H. induction l as [|c l IH]; [exact H |].
  cbn [lits List.app]. simpl. now constructor.
Qed.

End GoRegexpFacts.

(** ** The S3 key helper *)

Module S3KeySpec.
Import GoStrings GoStringsFacts GoStrconv GoRegexp GoRegexpFacts S3Key.

(** [s] starts with the canonical segment
    [AWSLogs/<account>/<service>/<region>/] and goes on with [post]. *)
Definition segmentAt (s acct svc region post : string) : Prop :=
  s = "AWSLogs/" +:+ acct +:+ "/" +:+ svc +:+ "/" +:+ region +:+ "/" +:+ post /\
  acct <> "" /\ allIn isDigit acct = true /\
  svc <> "" /\ allIn notSlash svc = true /\
  region <> "" /\ allIn notSlash region = true.

(** The key has no canonical segment at all. *)
Definition noSegment (key : string) : Prop :=
  forall pre s acct svc region post,
    key = pre +:+ s -> ~ segmentAt s acct svc region post.

Lemma length_pos_nonempty (s : string) : (1 <= String.length s)%nat <-> s <> "".
Proof. destruct s; simpl; split; (congruence || lia). Qed.

Lemma Matches_segment (s : string) (groups : list string) (post : string) :
  Matches awsLogsKeyPattern s groups post <->
  exists acct svc region, segmentAt s acct svc region post /\ groups = [acct; region].
Proof.
  unfold awsLogsKeyPattern, segmentAt. split.
  - intros H. apply Matches_lits_inv in H as (s1 & -> & H).
    inversion H as [| | ? ? ? ? acct s2 g2 ? Ha Hla H2]; subst; clear H.
    inversion H2 as [| ? ? s3 ? ? H3 |]; subst; clear H2.
    inversion H3 as [| | ? ? ? ? svc s4 g4 ? Hv Hlv H4]; subst; clear H3.
    inversion H4 as [| ? ? s5 ? ? H5 |]; subst; clear H4.
    inversion H5 as [| | ? ? ? ? region s6 g6 ? Hr Hlr H6]; subst; clear H5.
    inversion H6 as [| ? ? s7 ? ? H7 |]; subst; clear H6.
    inversion H7; subst; clear H7.
    exists acct, svc, region.
    rewrite <- !length_pos_nonempty. repeat split; assumption.
  - intros (acct & svc & region & (-> & Ha & Hda & Hv & Hdv & Hr & Hdr) & ->).
    apply length_pos_nonempty in Ha, Hv, Hr.
    apply Matches_lits.
    apply (M_rep true 1 isDigit _ acct _ [region]); [assumption | assumption |].
    apply M_lit.
    apply (M_rep false 1 notSlash _ svc _ [region]); [assumption | assumption |].
    apply M_lit.
    apply (M_rep true 1 notSlash _ region _ []); [assumption | assumption |].
    apply M_lit. apply M_nil.
Qed.

(** A run of a class followed by a byte outside the class is read back in
    one way only. *)
Lemma run_unique (cls : ascii -> bool) (c : ascii) (a a' x x' : string) :
  cls c = false -> allIn cls a = true -> allIn cls a' = true ->
  a +:+ String c x = a' +:+ String c x' -> a = a' /\ x = x'.
Proof.
  intros Hc. revert a'. induction a as [|d a IH]; intros [|d' a'] Ha Ha'; simpl in *.
  - intros [= ->]. now split.
  - intros [= <- _]. apply andb_prop in Ha' as [Hd _]. congruence.
  - intros [= -> _]. apply andb_prop in Ha as [Hd _]. congruence.
  - intros [= <- H]. apply andb_prop in Ha as [_ Ha]. apply andb_prop in Ha' as [_ Ha'].
    destruct (IH a' Ha Ha' H) as [-> ->]. now split.
Qed.

Lemma app_inv_head (l a b : string) : l +:+ a = l +:+ b -> a = b.
Proof. induction l as [|c l IH]; simpl; [trivial | intros [= H]; auto]. Qed.

Lemma segmentAt_unique (s a v r post a' v' r' post' : string) :
  segmentAt s a v r post -> segmentAt s a' v' r' post' ->
  a = a' /\ v = v' /\ r = r' /\ post = post'.
Proof.
  intros (-> & _ & Ha & _ & Hv & _ & Hr) (E & _ & Ha' & _ & Hv' & _ & Hr').
  apply app_inv_head in E.
  apply (run_unique isDigit) in E as [-> E]; [| reflexivity | assumption..].
  apply (run_unique notSlash) in E as [-> E]; [| reflexivity | assumption..].
  apply (run_unique notSlash) in E as [-> E]; [| reflexivity | assumption..].
  now subst.
Qed.

(** The pattern at the start of [s]: exactly the canonical segment. *)
Lemma match_here_segment (s acct svc region post : string) :
  segmentAt s acct svc region post ->
  match_here awsLogsKeyPattern s = Some ([acct; region], post).
Proof.
  intros Hseg.
  assert (HM : Matches awsLogsKeyPattern s [acct; region] post)
    by (apply Matches_segment; eauto).
  destruct (match_here awsLogsKeyPattern s) as [[g rest]|] eqn:E;
    [| now apply match_here_complete in HM].
  apply match_here_sound, Matches_segment in E as (a' & v' & r' & Hseg' & ->).
  destruct (segmentAt_unique _ _ _ _ _ _ _ _ _ Hseg Hseg') as (-> & _ & -> & ->).
  reflexivity.
Qed.

Lemma match_here_no_segment (s : string) :
  (forall acct svc region post, ~ segmentAt s acct svc region post) ->
  match_here awsLogsKeyPattern s = None.
Proof.
  intros Hno. destruct (match_here awsLogsKeyPattern s) as [[g rest]|] eqn:E;
    [| reflexivity].
  apply match_here_sound, Matches_segment in E as (a & v & r & Hseg & _).
  now apply Hno in Hseg.
Qed.

Lemma Find_leftmost (pre s acct svc region post : string) :
  segmentAt s acct svc region post ->
  (forall pre1 pre2 a v r p,
      pre = pre1 +:+ pre2 -> pre2 <> "" -> ~ segmentAt (pre2 +:+ s) a v r p) ->
  exists whole,
    FindStringSubmatch awsLogsKeyPattern (pre +:+ s) = Some [whole; acct; region].
Proof.
  intros Hseg. induction pre as [|c pre IH]; intros Hleft.
  - simpl. destruct s as [|c s]; cbn [FindStringSubmatch];
      unfold FindStringSubmatchAnchored; rewrite (match_here_segment _ _ _ _ _ Hseg);
      eauto.
  - simpl. cbn [FindStringSubmatch]. unfold FindStringSubmatchAnchored.
    rewrite match_here_no_segment.
    + apply IH. intros pre1 pre2 a v r p -> Hne.
      apply (Hleft (String c pre1) pre2); [reflexivity | assumption].
    + intros a v r p. apply (Hleft "" (String c pre)); [reflexivity | discriminate].
Qed.

Lemma Find_none (key : string) :
  noSegment key -> FindStringSubmatch awsLogsKeyPattern key = None.
Proof.
  unfold noSegment. induction key as [|c key IH]; intros Hno.
  - cbn [FindStringSubmatch]. unfold FindStringSubmatchAnchored.
    rewrite match_here_no_segment; [reflexivity |].
    intros a v r p. now apply (Hno "" "").
  - cbn [FindStringSubmatch]. unfold FindStringSubmatchAnchored.
    rewrite match_here_no_segment.
    + apply IH. intros pre s a v r p ->. now apply (Hno (String c pre) s).
    + intros a v r p. now apply (Hno "" (String c key)).
Qed.

Lemma Find_none_inv (key : string) :
  FindStringSubmatch awsLogsKeyPattern key = None -> noSegment key.
Proof.
  unfold noSegment. induction key as [|c key IH];
    cbn [FindStringSubmatch]; unfold FindStringSubmatchAnchored.
  - destruct (match_here awsLogsKeyPattern "") as [[g rest]|] eqn:E; [discriminate |].
    intros _ pre s a v r p Hkey Hseg.
    destruct pre; [| discriminate]. simpl in Hkey. subst s.
    now rewrite (match_here_segment _ _ _ _ _ Hseg) in E.
  - destruct (match_here awsLogsKeyPattern (String c key)) as [[g rest]|] eqn:E;
      [discriminate |].
    intros Hf pre s a v r p Hkey Hseg. destruct pre as [|d pre].
    + simpl in Hkey. subst s.
      now rewrite (match_here_segment _ _ _ _ _ Hseg) in E.
    + simpl in Hkey. injection Hkey as _ Hkey.
      exact (IH Hf pre s a v r p Hkey Hseg).
Qed.

(** A match of the helper is a segment of the key. *)
Lemma Find_some (key : string) (m : list string) :
  FindStringSubmatch awsLogsKeyPattern key = Some m ->
  exists whole pre s acct svc region post,
    m = [whole; acct; region] /\ key = pre +:+ s /\ segmentAt s acct svc region post.
Proof.
  induction key as [|c key IH]; cbn [FindStringSubmatch]; unfold FindStringSubmatchAnchored.
  - destruct (match_here awsLogsKeyPattern "") as [[g rest]|] eqn:E; [| discriminate].
    intros [= <-]. apply match_here_sound, Matches_segment in E as (a & v & r & Hseg & ->).
    now exists (str_take (String.length "" - String.length rest) ""), "", "", a, v, r, rest.
  - destruct (match_here awsLogsKeyPattern (String c key)) as [[g rest]|] eqn:E.
    + intros [= <-]. apply match_here_sound, Matches_segment in E as (a & v & r & Hseg & ->).
      now exists (str_take (String.length (String c key) - String.length rest) (String c key)),
                 "", (String c key), a, v, r, rest.
    + intros H. apply IH in H as (w & pre & s & a & v & r & p & -> & -> & Hseg).
      now exists w, (String c pre), s, a, v, r, p.
Qed.

(** C7. On a key that holds the canonical segment
    [AWSLogs/<digits>/<service>/<region>/] the helper returns the account
    and the region of such a segment of the key, the leftmost one when
    there are several; on a key with no such segment it returns two empty
    strings.
    It returns nothing else: a result is empty or read from a segment of
    the key. The key of the specification gives the account
    [123456789012] and the region [us-east-1]. *)
Theorem ParseRegionAccountFromS3Key_spec :
  (forall pre s a v r p : string,
      segmentAt s a v r p ->
      exists pre' s' acct svc region post,
        pre +:+ s = pre' +:+ s' /\ segmentAt s' acct svc region post /\
        ParseRegionAccountFromS3Key (pre +:+ s) = (acct, region))
  /\
  (forall pre s acct svc region post : string,
      segmentAt s acct svc region post ->
      (forall pre1 pre2 a v r p,
          pre = pre1 +:+ pre2 -> pre2 <> "" -> ~ segmentAt (pre2 +:+ s) a v r p) ->
      ParseRegionAccountFromS3Key (pre +:+ s) = (acct, region))
  /\
  (forall key : string,
      noSegment key -> ParseRegionAccountFromS3Key key = ("", ""))
  /\
  (forall key acct region : string,
      ParseRegionAccountFromS3Key key = (acct, region) ->
      (acct = "" /\ region = "") \/
      exists pre s svc post, key = pre +:+ s /\ segmentAt s acct svc region post)
  /\
  ParseRegionAccountFromS3Key
    "AWSLogs/123456789012/elasticloadbalancing/us-east-1/..."
  = ("123456789012", "us-east-1").
Proof.
  unfold ParseRegionAccountFromS3Key. repeat split.
  - intros pre s a v r p Hseg.
    destruct (FindStringSubmatch awsLogsKeyPattern (pre +:+ s)) as [m|] eqn:E.
    + apply Find_some in E as (w & pre' & s' & a' & v' & r' & p' & -> & Hk & Hseg').
      now exists pre', s', a', v', r', p'.
    + apply Find_none_inv in E. now apply (E pre s a v r p) in Hseg.
  - intros pre s acct svc region post Hseg Hleft.
    destruct (Find_leftmost _ _ _ _ _ _ Hseg Hleft) as [whole ->]. reflexivity.
  - intros key Hno. now rewrite Find_none.
  - intros key acct region.
    destruct (FindStringSubmatch awsLogsKeyPattern key) as [m|] eqn:E.
    + apply Find_some in E as (w & pre & s & a & v & r & p & -> & -> & Hseg).
      cbn. intros [= <- <-]. right. now exists pre, s, v, p.
    + intros [= <- <-]. now left.
Qed.

Lemma ParseRegionAccountFromS3Key_spec_witness :
  ParseRegionAccountFromS3Key
    "logs/AWSLogs/123456789012/elasticloadbalancing/us-east-1/2023/10/01/a.log.gz"
  = ("123456789012", "us-east-1")
  /\ ParseRegionAccountFromS3Key "logs/2023/10/01/a.log.gz" = ("", "").
Proof.
  split.
  - apply (proj1 (proj2 ParseRegionAccountFromS3Key_spec) "logs/"
             "AWSLogs/123456789012/elasticloadbalancing/us-east-1/2023/10/01/a.log.gz"
             "123456789012" "elasticloadbalancing" "us-east-1" "2023/10/01/a.log.gz").
    + repeat split; (reflexivity || discriminate).
    + intros pre1 pre2 a v r p Hpre Hne (Hs & _).
      repeat (destruct pre1 as [|? pre1]; simpl in Hpre;
              [ subst pre2; first [ congruence | simpl in Hs; discriminate ]
              | first [ discriminate | injection Hpre as _ Hpre ] ]).
  - apply (proj1 (proj2 (proj2 ParseRegionAccountFromS3Key_spec))).
    intros pre s a v r p Hkey (Hs & _). subst s.
    apply (f_equal (fun x => Count x "A")) in Hkey.
    rewrite Count_app in Hkey. simpl in Hkey. lia.
Defined.

End S3KeySpec.

(** ** The NLB parser *)

Module NLBSpec.
Import GoStrings GoStringsFacts GoStrconv GoStrconvFacts GoRegexp GoRegexpFacts NLB.

(** The example line of the specification, the line of the parser test,
    and a line whose client port is [-]. *)
Definition specLine : string :=
  "tls 2.0 2023-10-01T00:00:00.000000Z app/net-lb/1234... listener/... 1.2.3.4:12345 5.6.7.8:80 0.001 0.002 100 200 - arn:aws:acm:...:certificate/... - ECDHE-RSA-AES128-GCM-SHA256 TLSv1.2 - example.com h2 - 2.000".

Definition testLine : string :=
  "tls 2.0 2023-10-01T00:00:00.000000Z app/net-lb/1234567890abcdef listener/net-lb/1234567890abcdef/1234567890abcdef 1.2.3.4:12345 5.6.7.8:80 0.001 0.002 100 200 - arn:aws:acm:us-east-1:123456789012:certificate/12345678-1234-1234-1234-123456789012 - ECDHE-RSA-AES128-GCM-SHA256 TLSv1.2 - example.com h2 - 2.000".

Definition dashPortLine : string :=
  "tls 2.0 2023-10-01T00:00:00.000000Z app/net-lb/1234567890abcdef listener/net-lb/1234567890abcdef/1234567890abcdef 1.2.3.4:- 5.6.7.8:80 0.001 0.002 100 200 - arn:aws:acm:us-east-1:123456789012:certificate/12345678-1234-1234-1234-123456789012 - ECDHE-RSA-AES128-GCM-SHA256 TLSv1.2 - example.com h2 - 2.000".

(** A match of the pattern has the whole match and the 23 groups, and the
    numeric groups hold bytes of their classes only. *)
Lemma nlb_match_groups (s : string) (matches : list string) :
  FindStringSubmatchAnchored nlbLogPattern s = Some matches ->
  List.length matches = 24%nat /\
  allIn isDigit (nth 7 matches "") = true /\
  allIn isDigit (nth 9 matches "") = true /\
  allIn dashDotDigit (nth 10 matches "") = true /\
  allIn dashDotDigit (nth 11 matches "") = true /\
  allIn dashDigit (nth 12 matches "") = true /\
  allIn dashDigit (nth 13 matches "") = true /\
  allIn dashDotDigit (nth 23 matches "") = true.
Proof.
  unfold FindStringSubmatchAnchored.
  destruct (match_here nlbLogPattern s) as [[g rest]|] eqn:E; [| discriminate].
  intros [= <-]. apply match_here_sound, Matches_groups in E.
  cbn in E.
  repeat match goal with
         | H : Forall2 _ (_ :: _) _ |- _ => inversion H; subst; clear H
         | H : Forall2 _ [] _ |- _ => inversion H; subst; clear H
         end.
  cbn in *. intuition.
Qed.

Section Spec.

Variable float64 : Type.
Variable float64_zero : float64.
Variable ParseFloat : string -> float64 * option NumError.

#[local] Abbreviation Entry := (NLBLogEntry float64).
#[local] Abbreviation parse := (ParseNLBLogLine float64 float64_zero ParseFloat).
#[local] Abbreviation getFloat' := (getFloat float64 float64_zero ParseFloat).

(** The entry built from a match: every field is read from its group. *)
Definition entryOf (matches : list string) : Entry :=
  {| Type_ := getString matches 1;
     Version := getString matches 2;
     Time := getString matches 3;
     ELB := getString matches 4;
     ListenerID := getString matches 5;
     ClientIP := getString matches 6;
     ClientPort := getInt matches 7;
     TargetIP := getString matches 8;
     TargetPort := getInt matches 9;
     ConnectionTime := getFloat' matches 10;
     TLSHandshakeTime := getFloat' matches 11;
     ReceivedBytes := getInt64 matches 12;
     SentBytes := getInt64 matches 13;
     IncomingTLSAlert := getString matches 14;
     ChosenCertARN := getString matches 15;
     ChosenCertSerial := getString matches 16;
     TLSCipher := getString matches 17;
     TLSProtocolVersion := getString matches 18;
     TLSNamedGroup := getString matches 19;
     DomainName := getString matches 20;
     ALPNProtocol := getString matches 21;
     ALPNClientPreferenceList := getString matches 22;
     TLSHandshakeTimeMS := getFloat' matches 23 |}.

Lemma ParseNLBLogLine_unfold (line : string) :
  parse line =
    let line := TrimSpace line in
    if String.eqb line "" || HasPrefix line "#" then Skipped
    else match FindStringSubmatchAnchored nlbLogPattern line with
         | None => Failed FailedToParseNLBLogLine
         | Some matches => Parsed (entryOf matches)
         end.
Proof. reflexivity. Qed.

(** A parsed line is a line the pattern matches, and its port groups are
    made of digits. *)
Lemma parse_Parsed_ports (line : string) (e : Entry) :
  parse line = Parsed e ->
  exists matches,
    FindStringSubmatchAnchored nlbLogPattern (TrimSpace line) = Some matches /\
    e = entryOf matches /\
    allIn isDigit (nth 7 matches "") = true /\
    allIn isDigit (nth 9 matches "") = true.
Proof.
  rewrite ParseNLBLogLine_unfold. cbv zeta.
  destruct (_ || _); [discriminate |].
  destruct (FindStringSubmatchAnchored nlbLogPattern (TrimSpace line)) as [m|] eqn:E;
    [| discriminate].
  intros [= <-]. exists m. destruct (nlb_match_groups _ _ E) as (_ & H7 & H9 & _).
  auto.
Qed.

(** C6. The example line of the specification and the line of the parser
    test give an entry with client 1.2.3.4 port 12345, target 5.6.7.8
    port 80 and the handshake time read from [2.000]; the text
    [invalid log line] gives the parse error. For every line there are
    three outcomes and no other: a blank line or a comment is skipped,
    a line the pattern matches gives the entry with all its 23 groups
    read, and a line it does not match gives the error and no entry. *)
Theorem ParseNLBLogLine_spec :
  (forall line : string, In line [specLine; testLine] ->
     exists e : Entry,
       parse line = Parsed e /\
       ClientIP e = "1.2.3.4" /\ ClientPort e = 12345%Z /\
       TargetIP e = "5.6.7.8" /\ TargetPort e = 80%Z /\
       TLSHandshakeTimeMS e = fst (ParseFloat "2.000"))
  /\
  parse "invalid log line" = Failed FailedToParseNLBLogLine
  /\
  (forall line : string,
     let trimmed := TrimSpace line in
     (parse line = Skipped /\
      (trimmed = "" \/ HasPrefix trimmed "#" = true))
     \/
     (exists matches,
        FindStringSubmatchAnchored nlbLogPattern trimmed = Some matches /\
        List.length matches = 24%nat /\
        parse line = Parsed (entryOf matches))
     \/
     (FindStringSubmatchAnchored nlbLogPattern trimmed = None /\
      parse line = Failed FailedToParseNLBLogLine)).
Proof.
  split; [| split].
  - intros line [<- | [<- | []]]; eexists; (split; [vm_compute; reflexivity |]);
      repeat split; reflexivity.
  - vm_compute. reflexivity.
  - intros line trimmed. rewrite ParseNLBLogLine_unfold. cbv zeta. fold trimmed.
    destruct (String.eqb_spec trimmed "") as [He | He]; cbn [orb].
    { left. split; [reflexivity | now left]. }
    destruct (HasPrefix trimmed "#") eqn:Hp.
    { left. split; [reflexivity | now right]. }
    right. destruct (FindStringSubmatchAnchored nlbLogPattern trimmed) as [m|] eqn:E.
    + left. exists m. destruct (nlb_match_groups _ _ E) as (Hl & _). auto.
    + right. auto.
Qed.

End Spec.

Lemma ParseNLBLogLine_spec_witness :
  exists e : NLBLogEntry Float64.float64,
    ParseNLBLogLine Float64.float64 Float64.zero Float64.ParseFloat specLine = Parsed e /\
    ClientIP e = "1.2.3.4" /\ ClientPort e = 12345%Z /\
    TargetIP e = "5.6.7.8" /\ TargetPort e = 80%Z /\
    TLSHandshakeTimeMS e = 2%float.
Proof.
  destruct (proj1 (ParseNLBLogLine_spec Float64.float64 Float64.zero Float64.ParseFloat)
              specLine (or_introl eq_refl))
    as (e & He & Hci & Hcp & Hti & Htp & Hms).
  exists e. rewrite Hms. repeat split; assumption.
Defined.

End NLBSpec.

(** ** Resource keys and grouping *)

Module GroupingSpec.
Import Lambda.

Section Keys.

Variable ALBLogEntry : Type.
Variable TargetGroupARN : ALBLogEntry -> string.
Variable ChosenCertARN : ALBLogEntry -> string.

#[local] Abbreviation key := (getResourceKey ALBLogEntry TargetGroupARN ChosenCertARN).
#[local] Abbreviation adapterKey := (GetResourceKey ALBLogEntry TargetGroupARN ChosenCertARN).

(** An identifier is present when it is neither empty nor the [-] the
    load balancer writes for a field it has no value for. *)
Definition present (arn : string) : Prop := arn <> "" /\ arn <> "-".

Lemma key_cases (entry : ALBLogEntry) :
  (present (TargetGroupARN entry) /\ key entry = TargetGroupARN entry) \/
  (~ present (TargetGroupARN entry) /\ key entry = ChosenCertARN entry).
Proof.
  unfold getResourceKey, present.
  destruct (String.eqb_spec (TargetGroupARN entry) "") as [E1 | E1]; cbn [orb].
  - right. split; [tauto | reflexivity].
  - destruct (String.eqb_spec (TargetGroupARN entry) "-") as [E2 | E2].
    + right. split; [tauto | reflexivity].
    + left. split; [tauto | reflexivity].
Qed.

(** C4, as amended. The key is the target-group identifier when that is
    present, and the certificate identifier as it stands otherwise; it is
    not empty when one of the two is present; when neither is, it is the
    certificate field itself, empty or [-]. The adapter computes the same
    key. *)
Theorem getResourceKey_spec (entry : ALBLogEntry) :
  let tg := TargetGroupARN entry in
  let cert := ChosenCertARN entry in
  (present tg -> key entry = tg) /\
  (~ present tg -> key entry = cert) /\
  (present tg \/ present cert -> key entry <> "") /\
  (~ present tg -> ~ present cert ->
     key entry = cert /\ (key entry = "" \/ key entry = "-")) /\
  (forall a : ALBAdapter ALBLogEntry,
     adapterEntry _ a = entry -> adapterKey a = key entry).
Proof.
  cbv zeta. destruct (key_cases entry) as [[Hp Hk] | [Hp Hk]]; rewrite Hk.
  - repeat split; try tauto.
    + intros _. apply Hp.
    + intros a <-. unfold GetResourceKey. fold (key (adapterEntry _ a)). now rewrite Hk.
  - split; [tauto |]. split; [reflexivity |].
    split; [intros [H | [H _]]; [tauto | exact H] |]. split.
    + intros _ Hc. split; [reflexivity |]. unfold present in Hc.
      destruct (String.eqb_spec (ChosenCertARN entry) "") as [E | E]; [now left |].
      destruct (String.eqb_spec (ChosenCertARN entry) "-") as [E' | E']; [now right |].
      tauto.
    + intros a <-. unfold GetResourceKey. fold (key (adapterEntry _ a)). now rewrite Hk.
Qed.

End Keys.

(** *** Grouping *)

Section Groups.

Variable ALBLogEntry : Type.
Variable TargetGroupARN : ALBLogEntry -> string.
Variable ChosenCertARN : ALBLogEntry -> string.
Variable OTelAttribute : Type.
Variable OTelLogRecord : Type.
Variable ExtractResourceAttributes : ALBLogEntry -> list OTelAttribute.
Variable ConvertToOTel : ALBLogEntry -> OTelLogRecord.

#[local] Abbreviation key := (getResourceKey ALBLogEntry TargetGroupARN ChosenCertARN).
#[local] Abbreviation Group := (resourceGroup OTelAttribute OTelLogRecord).
#[local] Abbreviation group :=
  (groupEntries ALBLogEntry TargetGroupARN ChosenCertARN OTelAttribute OTelLogRecord
     ExtractResourceAttributes ConvertToOTel).
#[local] Abbreviation step :=
  (groupStep ALBLogEntry TargetGroupARN ChosenCertARN OTelAttribute OTelLogRecord
     ExtractResourceAttributes ConvertToOTel).

(** The entries of a key, in input order. *)
Definition entriesOf (k : string) (entries : list ALBLogEntry) : list ALBLogEntry :=
  List.filter (fun e => String.eqb (key e) k) entries.

(** The group of a key as the specification describes it: none when no
    entry has the key; else the attributes of the first entry with the
    key and the records of all entries with the key, in input order. *)
Definition groupOf (k : string) (entries : list ALBLogEntry) : option Group :=
  match entriesOf k entries with
  | [] => None
  | first :: _ =>
      Some {| ResourceAttrs := ExtractResourceAttributes first;
              LogRecords := map ConvertToOTel (entriesOf k entries) |}
  end.

Lemma group_snoc (entries : list ALBLogEntry) (e : ALBLogEntry) :
  group (entries ++ [e])%list = step (group entries) e.
Proof. unfold groupEntries. now rewrite foldl_app. Qed.

Lemma entriesOf_snoc (k : string) (entries : list ALBLogEntry) (e : ALBLogEntry) :
  entriesOf k (entries ++ [e])%list =
    (entriesOf k entries ++ (if String.eqb (key e) k then [e] else []))%list.
Proof. unfold entriesOf. rewrite List.filter_app. reflexivity. Qed.

Lemma group_lookup (entries : list ALBLogEntry) (k : string) :
  group entries !! k = groupOf k entries.
Proof.
  induction entries as [|e entries IH] using rev_ind.
  - reflexivity.
  - rewrite group_snoc. unfold groupOf in *. rewrite entriesOf_snoc.
    unfold groupStep. set (m := group entries) in *.
    destruct (String.eqb_spec (key e) k) as [<- | Hne].
    + destruct (m !! key e) as [g|] eqn:Hg.
      * rewrite Hg, lookup_insert_eq.
        destruct (entriesOf (key e) entries) as [|first rest]; [discriminate |].
        injection IH as ->. cbn [ResourceAttrs LogRecords List.app map].
        now rewrite List.map_app.
      * rewrite lookup_insert_eq, lookup_insert_eq.
        destruct (entriesOf (key e) entries) as [|first rest]; [| discriminate].
        reflexivity.
    + rewrite app_nil_r.
      destruct (m !! key e) as [g|] eqn:Hg.
      * rewrite Hg, lookup_insert_ne by assumption. exact IH.
      * rewrite lookup_insert_eq, lookup_insert_ne, lookup_insert_ne by assumption.
        exact IH.
Qed.

Lemma filter_first {A : Type} (f : A -> bool) (l : list A) (x : A) (r : list A) :
  List.filter f l = x :: r ->
  exists pre post,
    l = (pre ++ x :: post)%list /\ Forall (fun y => f y = false) pre /\ f x = true.
Proof.
  induction l as [|y l IH]; [discriminate |].
  cbn [List.filter]. destruct (f y) eqn:Hy.
  - intros [= -> _]. exists [], l. repeat split; [constructor | assumption].
  - intros H. apply IH in H as (pre & post & -> & Hpre & Hx).
    exists (y :: pre), post. repeat split; [constructor |]; assumption.
Qed.

(** C3. Grouping goes through the entries once, from first to last. The
    group of a key exists when some entry has the key; its attributes are
    those computed from the first entry of the input with the key (the
    entries before it have other keys), whatever the later entries of the
    key would give; its records are the records of the entries with the
    key, in input order. *)
Theorem groupEntries_spec (entries : list ALBLogEntry) (k : string) :
  group entries = foldl step ∅ entries /\
  group entries !! k = groupOf k entries /\
  (forall g : Group,
     group entries !! k = Some g ->
     exists pre first post,
       entries = (pre ++ first :: post)%list /\
       Forall (fun e => key e <> k) pre /\
       key first = k /\
       ResourceAttrs _ _ g = ExtractResourceAttributes first /\
       LogRecords _ _ g = map ConvertToOTel (entriesOf k entries)).
Proof.
  split; [reflexivity |]. split; [apply group_lookup |].
  intros g. rewrite group_lookup. unfold groupOf.
  destruct (entriesOf k entries) as [|first rest] eqn:E; [discriminate |].
  intros [= <-]. unfold entriesOf in E.
  apply filter_first in E as (pre & post & -> & Hpre & Hfirst).
  exists pre, first, post. repeat split.
  - eapply Forall_impl; [exact Hpre |]. intros e He. now apply String.eqb_neq.
  - now apply String.eqb_eq.
Qed.

End Groups.

(** Entries as pairs of a target-group and a certificate identifier, for
    the examples. *)
Definition pairKey : string * string -> string := getResourceKey (string * string) fst snd.

(** C4 as stated fails: with [-] in both fields no identifier is present,
    and the key is [-], not the empty string; and with [-] for the target
    group and an empty certificate field the key is empty although a
    field is not. *)
Lemma getResourceKey_dash_not_empty :
  pairKey ("-", "-") = "-" /\ pairKey ("-", "-") <> "" /\
  pairKey ("-", "") = "".
Proof. repeat split. discriminate. Qed.

Lemma getResourceKey_spec_witness :
  pairKey ("arn:aws:elasticloadbalancing:us-east-1:123456789012:targetgroup/tg/1", "-")
  = "arn:aws:elasticloadbalancing:us-east-1:123456789012:targetgroup/tg/1"
  /\ pairKey ("-", "arn:aws:acm:us-east-1:123456789012:certificate/1")
  = "arn:aws:acm:us-east-1:123456789012:certificate/1".
Proof.
  split.
  - apply (proj1 (getResourceKey_spec (string * string) fst snd
             ("arn:aws:elasticloadbalancing:us-east-1:123456789012:targetgroup/tg/1", "-"))).
    split; discriminate.
  - apply (proj1 (proj2 (getResourceKey_spec (string * string) fst snd
             ("-", "arn:aws:acm:us-east-1:123456789012:certificate/1")))).
    intros [_ H]. now apply H.
Defined.

(** Three entries, two of them with the same key: the attributes of the
    group are those of the first. *)
Lemma groupEntries_spec_witness :
  exists g,
    groupEntries (string * string) fst snd string string
      (fun e => [snd e]) (fun e => snd e)
      [("tg1", "a"); ("tg2", "b"); ("tg1", "c")] !! "tg1" = Some g /\
    ResourceAttrs _ _ g = ["a"] /\ LogRecords _ _ g = ["a"; "c"].
Proof.
  pose proof (groupEntries_spec (string * string) fst snd string string
                (fun e => [snd e]) (fun e => snd e)
                [("tg1", "a"); ("tg2", "b"); ("tg1", "c")] "tg1") as (_ & Hl & Hg).
  eexists. split; [rewrite Hl; reflexivity |]. split; reflexivity.
Defined.

End GroupingSpec.

(** ** Batching *)

Module BatchingSpec.
Import Lambda.

(** [ceil (r / b)] for [1 <= b]. *)
Definition ceilDiv (r b : nat) : nat := ((r + b - 1) / b)%nat.

Lemma ceilDiv_0 (b : nat) : (1 <= b)%nat -> ceilDiv 0 b = 0%nat.
Proof. intros H. unfold ceilDiv. apply Nat.div_small. lia. Qed.

Lemma ceilDiv_step (r b : nat) :
  (1 <= b)%nat -> (1 <= r)%nat -> ceilDiv r b = S (ceilDiv (r - b) b).
Proof.
  intros Hb Hr. unfold ceilDiv.
  destruct (Nat.le_gt_cases r b) as [Hle | Hgt].
  - replace (r - b)%nat with 0%nat by lia.
    rewrite (Nat.div_small (0 + b - 1) b) by lia.
    replace (r + b - 1)%nat with ((r - 1) + 1 * b)%nat by lia.
    rewrite Nat.div_add by lia. rewrite Nat.div_small by lia. reflexivity.
  - replace (r + b - 1)%nat with ((r - b + b - 1) + 1 * b)%nat by lia.
    rewrite Nat.div_add by lia. lia.
Qed.

Lemma ceilDiv_bounds (r b : nat) :
  (1 <= b)%nat -> (r <= ceilDiv r b * b)%nat /\ (ceilDiv r b * b < r + b)%nat.
Proof.
  intros Hb. unfold ceilDiv.
  pose proof (Nat.div_mod_eq (r + b - 1) b) as H.
  pose proof (Nat.mod_upper_bound (r + b - 1) b ltac:(lia)) as Hm.
  nia.
Qed.

Section Spec.

Variable ALBLogEntry : Type.
Variable TargetGroupARN : ALBLogEntry -> string.
Variable ChosenCertARN : ALBLogEntry -> string.
Variable OTelAttribute : Type.
Variable OTelLogRecord : Type.
Variable ExtractResourceAttributes : ALBLogEntry -> list OTelAttribute.
Variable ConvertToOTel : ALBLogEntry -> OTelLogRecord.
Variable SendError : Type.

#[local] Abbreviation Group := (resourceGroup OTelAttribute OTelLogRecord).
#[local] Abbreviation Dispatched := (dispatched OTelAttribute OTelLogRecord).
#[local] Abbreviation loop := (batchLoop OTelAttribute OTelLogRecord SendError).
#[local] Abbreviation records := (LogRecords OTelAttribute OTelLogRecord).
#[local] Abbreviation attrs := (ResourceAttrs OTelAttribute OTelLogRecord).

(** The records of a dispatched payload. *)
Definition batchOf (d : Dispatched) : list OTelLogRecord :=
  concat (map (fun rl => concat (map (ScopeLogRecords _) (ScopeLogs _ _ rl)))
            (ResourceLogs _ _ (dPayload _ _ d))).

(** The [j]-th batch of a group when the loop starts a batch at [i] and has
    counted [bc] batches before: the slice [i + j * b .. min (i + (j+1) * b)
    len], in a payload with the attributes of the group. *)
Definition batchAt (g : Group) (b i bc j : nat) : Dispatched :=
  let start := (i + j * b)%nat in
  let stop := Nat.min (start + b) (List.length (records g)) in
  {| dPayload := buildPayload _ _ (attrs g) (slice (records g) start stop);
     dBatchID := (bc + j + 1)%nat;
     dBatchSize := List.length (slice (records g) start stop) |}.

Definition batchesFrom (g : Group) (b i bc n : nat) : list Dispatched :=
  map (batchAt g b i bc) (seq 0 n).

Lemma batchOf_batchAt (g : Group) (b i bc j : nat) :
  batchOf (batchAt g b i bc j) =
    slice (records g) (i + j * b) (Nat.min (i + j * b + b) (List.length (records g))).
Proof. unfold batchOf, batchAt. cbn. now rewrite !app_nil_r. Qed.

Lemma batchesFrom_S (g : Group) (b i bc n : nat) :
  batchesFrom g b i bc (S n) = batchAt g b i bc 0 :: batchesFrom g b (i + b) (S bc) n.
Proof.
  unfold batchesFrom. cbn [seq map]. f_equal.
  rewrite <- seq_shift, map_map. apply map_ext. intros j.
  unfold batchAt. cbn zeta.
  replace (i + S j * b)%nat with (i + b + j * b)%nat by lia.
  replace (bc + S j + 1)%nat with (S bc + j + 1)%nat by lia. reflexivity.
Qed.

(** The loop, whatever the polls find: it ends within as many passes as
    there are records left (and one), and has then dispatched the first
    [m] batches, all of them when no poll found an error, and otherwise
    those before the poll that found one. *)
Lemma batchLoop_run (poll : nat -> option SendError) (g : Group) (b : nat) :
  (1 <= b)%nat ->
  forall fuel i bc k,
    (List.length (records g) - i < fuel)%nat ->
    exists m out,
      loop fuel poll k g b i bc
        = Some (batchesFrom g b i bc m, out, (k + pollsMade m out)%nat) /\
      (forall j, (j < m)%nat -> poll (k + j)%nat = None) /\
      match out with
      | Completed => m = ceilDiv (List.length (records g) - i) b
      | ReturnedEarly err =>
          (m < ceilDiv (List.length (records g) - i) b)%nat /\
          poll (k + m)%nat = Some err
      end.
Proof.
  intros Hb fuel. induction fuel as [|fuel IH]; intros i bc k Hfuel; [lia |].
  cbn [batchLoop].
  destruct (Nat.ltb_spec i (List.length (records g))) as [Hi | Hi].
  - destruct (poll k) as [err|] eqn:Hp.
    + exists 0%nat, (ReturnedEarly err).
      split; [cbn; now replace (k + 1)%nat with (S k) by lia |]. split; [intros j Hj; lia |].
      rewrite ceilDiv_step by lia. rewrite Nat.add_0_r. split; [lia | assumption].
    + destruct (IH (i + b)%nat (S bc) (S k) ltac:(lia)) as (m & out & Hrun & Hpoll & Hout).
      exists (S m), out. rewrite Hrun.
      rewrite (ceilDiv_step (List.length (records g) - i) b) by lia.
      replace (List.length (records g) - i - b)%nat
        with (List.length (records g) - (i + b))%nat by lia.
      split; [| split].
      * rewrite batchesFrom_S. unfold batchAt. cbn zeta.
        rewrite Nat.mul_0_l, !Nat.add_0_r.
        replace (if (List.length (records g) <? i + b)%nat
                 then List.length (records g) else (i + b)%nat)
          with (Nat.min (i + b) (List.length (records g)))
          by (destruct (Nat.ltb_spec (List.length (records g)) (i + b)); lia).
        replace (S k + pollsMade m out)%nat with (k + pollsMade (S m) out)%nat
          by (destruct out; cbn; lia).
        reflexivity.
      * intros [|j] Hj; [now rewrite Nat.add_0_r |].
        replace (k + S j)%nat with (S k + j)%nat by lia. apply Hpoll. lia.
      * destruct out; [lia |]. destruct Hout as [Hlt Herr]. split; [lia |].
        replace (k + S m)%nat with (S k + m)%nat by lia. exact Herr.
  - exists 0%nat, Completed.
    split; [cbn; now rewrite Nat.add_0_r |]. split; [intros j Hj; lia |].
    replace (List.length (records g) - i)%nat with 0%nat by lia.
    now rewrite ceilDiv_0.
Qed.


Lemma batchesFrom_take (g : Group) (b i bc m n : nat) :
  (m <= n)%nat -> batchesFrom g b i bc m = take m (batchesFrom g b i bc n).
Proof.
  intros H. unfold batchesFrom. rewrite <- fmap_take.
  change (fmap (M := list) ?f ?l) with (map f l). f_equal.
  now rewrite take_seq, Nat.min_l.
Qed.

Lemma batchesFrom_lookup (g : Group) (b i bc n j : nat) (d : Dispatched) :
  batchesFrom g b i bc n !! j = Some d -> (j < n)%nat /\ d = batchAt g b i bc j.
Proof.
  unfold batchesFrom. change (map ?f ?l) with (fmap (M := list) f l).
  rewrite list_lookup_fmap. destruct (seq 0 n !! j) as [x|] eqn:E; [| discriminate].
  apply lookup_seq in E as [-> Hj]. intros [= <-]. now split.
Qed.

(** The batches of a list laid end to end are the list. *)
Lemma batches_concat (g : Group) (b : nat) :
  (1 <= b)%nat ->
  forall r i bc,
    (List.length (records g) - i <= r)%nat ->
    concat (map batchOf
              (batchesFrom g b i bc (ceilDiv (List.length (records g) - i) b)))
    = drop i (records g).
Proof.
  intros Hb r. induction r as [|r IH]; intros i bc Hr.
  - replace (List.length (records g) - i)%nat with 0%nat by lia.
    rewrite ceilDiv_0 by assumption. cbn. symmetry. apply drop_ge. lia.
  - destruct (Nat.le_gt_cases (List.length (records g)) i) as [Hge | Hlt].
    + replace (List.length (records g) - i)%nat with 0%nat by lia.
      rewrite ceilDiv_0 by assumption. cbn. symmetry. apply drop_ge. lia.
    + rewrite ceilDiv_step by lia. rewrite batchesFrom_S. cbn [map concat].
      replace (List.length (records g) - i - b)%nat
        with (List.length (records g) - (i + b))%nat by lia.
      rewrite IH by lia. rewrite batchOf_batchAt. unfold slice.
      rewrite Nat.mul_0_l, Nat.add_0_r.
      destruct (Nat.le_gt_cases (i + b) (List.length (records g))) as [Hin | Hout].
      * rewrite Nat.min_l by lia. replace (i + b - i)%nat with b by lia.
        rewrite <- (take_drop b (drop i (records g))) at 2.
        now rewrite drop_drop.
      * rewrite Nat.min_r by lia.
        rewrite (drop_ge (records g) (i + b)) by lia. rewrite app_nil_r.
        apply take_ge. rewrite length_drop. lia.
Qed.

Lemma length_slice (l : list OTelLogRecord) (i j : nat) :
  (i <= j)%nat -> (j <= List.length l)%nat -> List.length (slice l i j) = (j - i)%nat.
Proof. intros Hi Hj. unfold slice. rewrite length_take, length_drop. lia. Qed.

#[local] Abbreviation sendAll := (sendGroups OTelAttribute OTelLogRecord SendError).
#[local] Abbreviation group :=
  (groupEntries ALBLogEntry TargetGroupARN ChosenCertARN OTelAttribute OTelLogRecord
     ExtractResourceAttributes ConvertToOTel).
#[local] Abbreviation entriesOf :=
  (GroupingSpec.entriesOf ALBLogEntry TargetGroupARN ChosenCertARN).

(** The batches of a group, and of all the groups in the order in which
    the loop goes through them. *)
Definition groupBatches (b : nat) (g : Group) : list Dispatched :=
  batchesFrom g b 0 0 (ceilDiv (List.length (records g)) b).

Definition allBatches (groups : list (string * Group)) (b : nat) : list Dispatched :=
  flat_map (fun kg => groupBatches b (snd kg)) groups.

Lemma length_batchesFrom (g : Group) (b i bc n : nat) :
  List.length (batchesFrom g b i bc n) = n.
Proof. unfold batchesFrom. now rewrite length_map, length_seq. Qed.

(** The loop over the groups, whatever the polls find: it ends, and has
    then dispatched the first [m] of the batches of all the groups, all
    of them when no poll found an error, and otherwise those before the
    poll that found one. *)
Lemma sendGroups_run (poll : nat -> option SendError) (b : nat) :
  (1 <= b)%nat ->
  forall (groups : list (string * Group)) (fuel k : nat),
    Forall (fun kg => (List.length (records (snd kg)) < fuel)%nat) groups ->
    exists m out,
      sendAll fuel poll k groups b = Some (take m (allBatches groups b), out) /\
      (forall j, (j < m)%nat -> poll (k + j)%nat = None) /\
      match out with
      | Completed => m = List.length (allBatches groups b)
      | ReturnedEarly err =>
          (m < List.length (allBatches groups b))%nat /\ poll (k + m)%nat = Some err
      end.
Proof.
  intros Hb groups. induction groups as [|[key g] groups IH]; intros fuel k Hfuel.
  - exists 0%nat, Completed. split; [reflexivity |]. split; [intros j Hj; lia | reflexivity].
  - inversion Hfuel as [|? ? Hg Hrest]; subst. cbn [snd] in Hg.
    cbn [sendGroups allBatches flat_map snd].
    change (flat_map _ groups) with (allBatches groups b).
    destruct (batchLoop_run poll g b Hb fuel 0 0 k ltac:(lia))
      as (m & out & -> & Hpoll & Hout).
    rewrite Nat.sub_0_r in Hout.
    pose proof (length_batchesFrom g b 0 0 (ceilDiv (List.length (records g)) b)) as Hlen.
    fold (groupBatches b g) in Hlen.
    destruct out as [|err].
    + subst m. cbn [pollsMade].
      destruct (IH fuel (k + ceilDiv (List.length (records g)) b)%nat Hrest)
        as (m' & out & -> & Hpoll' & Hout').
      exists (ceilDiv (List.length (records g)) b + m')%nat, out.
      split; [| split].
      * fold (groupBatches b g). now rewrite (take_app_add' _ _ _ m' (eq_sym Hlen)).
      * intros j Hj.
        destruct (Nat.lt_ge_cases j (ceilDiv (List.length (records g)) b)) as [Hlt | Hge];
          [now apply Hpoll |].
        replace (k + j)%nat
          with (k + ceilDiv (List.length (records g)) b
                + (j - ceilDiv (List.length (records g)) b))%nat by lia.
        apply Hpoll'. lia.
      * rewrite length_app, Hlen.
        destruct out as [|err]; [lia |]. destruct Hout' as [Hlt Herr].
        split; [lia |]. now rewrite Nat.add_assoc.
    + destruct Hout as [Hlt Herr]. exists m, (ReturnedEarly err).
      split; [| split; [exact Hpoll |]].
      * rewrite take_app_le by lia.
        unfold groupBatches. now rewrite <- batchesFrom_take by lia.
      * rewrite length_app, Hlen. split; [lia | exact Herr].
Qed.

(** The batches of all the groups laid end to end are the records of
    the groups, group after group. *)
Lemma allBatches_concat (b : nat) (groups : list (string * Group)) :
  (1 <= b)%nat ->
  concat (map batchOf (allBatches groups b)) = flat_map (fun kg => records (snd kg)) groups.
Proof.
  intros Hb. induction groups as [|[key g] groups IH]; [reflexivity |].
  cbn [allBatches flat_map snd]. change (flat_map _ groups) with (allBatches groups b) at 1.
  rewrite List.map_app, concat_app, IH. f_equal.
  pose proof (batches_concat g b Hb (List.length (records g)) 0 0 ltac:(lia)) as H.
  rewrite Nat.sub_0_r in H. exact H.
Qed.

(** Every batch is a slice of the records of one group, in a payload
    with the attributes of that group. *)
Lemma allBatches_In (b : nat) (groups : list (string * Group)) (d : Dispatched) :
  (1 <= b)%nat -> In d (allBatches groups b) ->
  exists key g j,
    In (key, g) groups /\
    (j * b < List.length (records g))%nat /\
    d = batchAt g b 0 0 j.
Proof.
  intros Hb Hin. unfold allBatches in Hin.
  apply in_flat_map in Hin as ([key g] & Hg & Hin). cbn [snd] in Hin.
  apply list_elem_of_In, list_elem_of_lookup in Hin as [j Hj].
  apply batchesFrom_lookup in Hj as [Hj ->].
  exists key, g, j. split; [assumption |]. split; [| reflexivity].
  pose proof (ceilDiv_bounds (List.length (records g)) b Hb). nia.
Qed.

(** C2, as amended. For a group of [R] records and a batch size [b >= 1]
    the batches are the [ceil (R / b)] slices [j * b .. min ((j + 1) * b) R]
    of the record list of the group, in this order: each of at most [b]
    records, each but the last of exactly [b], their concatenation the
    whole list, every one in a payload that carries the attributes of
    this group. The loop dispatches them in order, and before each batch
    it polls the error channel: it dispatches all of them when no poll
    finds a failed send, and only the first [m] of them when the poll
    before batch [m + 1] finds one, the function returning there. The
    same holds of the loop over the groups of a list of entries and the
    batches of all the groups, whose concatenation is the records of the
    groups; every batch is a slice of the records of the entries of one
    resource key, with the attributes of the group of that key. *)
Theorem batching_spec (b : nat) (poll : nat -> option SendError) :
  (1 <= b)%nat ->
  (forall g : Group,
     let R := List.length (records g) in
     let n := ceilDiv R b in
     let batches := batchesFrom g b 0 0 n in
     List.length batches = n /\
     (R <= n * b < R + b)%nat /\
     (forall j d, batches !! j = Some d ->
        batchOf d = slice (records g) (j * b) (Nat.min (j * b + b) R) /\
        (List.length (batchOf d) <= b)%nat /\
        ((S j < n)%nat -> List.length (batchOf d) = b) /\
        dBatchSize _ _ d = List.length (batchOf d) /\
        dPayload _ _ d = buildPayload _ _ (attrs g) (batchOf d)) /\
     concat (map batchOf batches) = records g /\
     (forall fuel k, (R < fuel)%nat ->
        exists m out,
          loop fuel poll k g b 0 0
            = Some (take m batches, out, (k + pollsMade m out)%nat) /\
          (m <= n)%nat /\
          (forall j, (j < m)%nat -> poll (k + j)%nat = None) /\
          match out with
          | Completed => m = n
          | ReturnedEarly err => (m < n)%nat /\ poll (k + m)%nat = Some err
          end /\
          ((forall j, poll j = None) -> out = Completed)))
  /\
  (forall (entries : list ALBLogEntry) (groups : list (string * Group)) (fuel k : nat),
     Permutation groups (map_to_list (group entries)) ->
     (List.length entries < fuel)%nat ->
     (exists m out,
        sendGroups OTelAttribute OTelLogRecord SendError fuel poll k groups b
          = Some (take m (allBatches groups b), out) /\
        (forall j, (j < m)%nat -> poll (k + j)%nat = None) /\
        match out with
        | Completed => m = List.length (allBatches groups b)
        | ReturnedEarly err =>
            (m < List.length (allBatches groups b))%nat /\ poll (k + m)%nat = Some err
        end /\
        ((forall j, poll j = None) -> out = Completed)) /\
     concat (map batchOf (allBatches groups b))
       = flat_map (fun kg => records (snd kg)) groups /\
     (forall d, In d (allBatches groups b) ->
        exists key g j,
          let recs := map ConvertToOTel (entriesOf key entries) in
          In (key, g) groups /\
          records g = recs /\
          (j * b < List.length recs)%nat /\
          batchOf d = slice recs (j * b) (Nat.min (j * b + b) (List.length recs)) /\
          dPayload _ _ d = buildPayload _ _ (attrs g) (batchOf d))).
Proof.
  intros Hb. split.
  - intros g R n batches. subst batches.
    pose proof (ceilDiv_bounds R b Hb) as Hn. fold n in Hn.
    split; [apply length_batchesFrom |].
    split; [lia |]. split; [| split].
    + intros j d Hd. apply batchesFrom_lookup in Hd as [Hj ->].
      rewrite batchOf_batchAt. cbn [Nat.add]. fold R.
      assert (Hstart : (j * b < R)%nat) by nia.
      rewrite length_slice by lia.
      split; [reflexivity |]. split; [lia |]. split; [intros Hlast; nia |].
      split; [unfold batchAt; cbn [dBatchSize Nat.add]; fold R;
              now rewrite length_slice by lia |].
      reflexivity.
    + pose proof (batches_concat g b Hb R 0 0) as H.
      rewrite Nat.sub_0_r in H. fold R n in H. rewrite H by lia. reflexivity.
    + intros fuel k Hfuel.
      destruct (batchLoop_run poll g b Hb fuel 0 0 k ltac:(lia))
        as (m & out & Hrun & Hpoll & Hout).
      rewrite Nat.sub_0_r in Hout. fold R n in Hout.
      assert (Hm : (m <= n)%nat) by (destruct out; lia).
      exists m, out. rewrite Hrun, (batchesFrom_take g b 0 0 m n Hm).
      split; [reflexivity |]. split; [assumption |]. split; [assumption |].
      split; [assumption |].
      intros Hnone. destruct out as [|err]; [reflexivity |].
      destruct Hout as [_ Herr]. now rewrite Hnone in Herr.
  - intros entries groups fuel k Hperm Hfuel.
    assert (Hgroups : forall key g, In (key, g) groups ->
              records g = map ConvertToOTel (entriesOf key entries)).
    { intros key g Hin. apply (Permutation_in _ Hperm) in Hin.
      apply list_elem_of_In, elem_of_map_to_list in Hin.
      rewrite GroupingSpec.group_lookup in Hin. unfold GroupingSpec.groupOf in Hin.
      fold (entriesOf key entries) in Hin.
      destruct (entriesOf key entries); [discriminate |]. now injection Hin as <-. }
    split; [| split].
    + destruct (sendGroups_run poll b Hb groups fuel k) as (m & out & Hrun & Hpoll & Hout).
      { apply Forall_forall. intros [key g] Hin. apply list_elem_of_In in Hin. cbn [snd].
        rewrite (Hgroups key g Hin), length_map.
        unfold GroupingSpec.entriesOf.
        pose proof (List.filter_length_le
                      (fun e => String.eqb
                         (getResourceKey ALBLogEntry TargetGroupARN ChosenCertARN e) key)
                      entries).
        lia. }
      exists m, out. split; [exact Hrun |]. split; [exact Hpoll |]. split; [exact Hout |].
      intros Hnone. destruct out as [|err]; [reflexivity |].
      destruct Hout as [_ Herr]. now rewrite Hnone in Herr.
    + now apply allBatches_concat.
    + intros d Hd. apply allBatches_In in Hd as (key & g & j & Hin & Hj & ->); [| assumption].
      exists key, g, j. cbv zeta. rewrite batchOf_batchAt, <- (Hgroups key g Hin).
      cbn [Nat.add]. repeat split; try assumption.
Qed.

End Spec.

(** A group of five records cut in batches of two. *)
Definition fiveRecords : resourceGroup string string :=
  {| ResourceAttrs := ["cloud.provider=aws"];
     LogRecords := ["r1"; "r2"; "r3"; "r4"; "r5"] |}.

(** An error channel on which the second poll finds a failed send. *)
Definition errorAtSecondPoll (k : nat) : option unit :=
  if (k =? 1)%nat then Some tt else None.

(** C2 as stated fails: with five records and batches of two there are
    three slices to make, but the second poll of the error channel finds
    a failed send and the function returns: one batch has been produced,
    and the records [r3], [r4] and [r5] are in no batch. *)
Lemma batching_stops_at_error :
  ceilDiv (List.length (LogRecords _ _ fiveRecords)) 2 = 3%nat /\
  exists ds,
    batchLoop string string unit 6 errorAtSecondPoll 0 fiveRecords 2 0 0
      = Some (ds, ReturnedEarly tt, 2%nat) /\
    map (batchOf string string) ds = [["r1"; "r2"]] /\
    List.length ds <> ceilDiv (List.length (LogRecords _ _ fiveRecords)) 2 /\
    concat (map (batchOf string string) ds) <> LogRecords _ _ fiveRecords.
Proof.
  split; [reflexivity |]. eexists. split; [reflexivity |].
  split; [reflexivity |]. split; [vm_compute; discriminate | discriminate].
Qed.

Lemma batching_spec_witness :
  exists ds,
    batchLoop string string unit 6 (fun _ => None) 0 fiveRecords 2 0 0
      = Some (ds, Completed, 3%nat) /\
    map (batchOf string string) ds = [["r1"; "r2"]; ["r3"; "r4"]; ["r5"]].
Proof.
  destruct (proj1 (batching_spec (string * string) fst snd string string
                     (fun e => [snd e]) snd unit 2 (fun _ => None) ltac:(lia))
              fiveRecords)
    as (_ & _ & _ & _ & Hrun).
  destruct (Hrun 6%nat 0%nat ltac:(simpl; lia)) as (m & out & Hloop & _ & _ & Hall & Hnone).
  rewrite (Hnone (fun _ => eq_refl)) in *. rewrite Hall in Hloop.
  eexists. split; [exact Hloop | reflexivity].
Defined.

End BatchingSpec.

(** ** Retry and backoff *)

Module RetrySpec.
Import Retry.

Lemma wrap64_small (z : Z) : (- 2 ^ 63 <= z < 2 ^ 63)%Z -> wrap64 z = z.
Proof.
  intros H. unfold wrap64. rewrite Z.mod_small by lia. lia.
Qed.

(** Up to retry 34 the nanoseconds of the pause fit [time.Duration]. *)
Lemma backoff_exact (attempt : Z) :
  (1 <= attempt <= 34)%Z ->
  backoff attempt = (retryBaseSec * 2 ^ (attempt - 1) * Second)%Z.
Proof.
  intros H. unfold backoff, multiplier, retryBaseSec, Second.
  assert (Hp : (1 <= 2 ^ (attempt - 1) <= 2 ^ 33)%Z).
  { split; [apply Z.lt_pred_le, Z.pow_pos_nonneg; lia |].
    apply Z.pow_le_mono_r; lia. }
  change (2 ^ 33)%Z with 8589934592%Z in Hp.
  rewrite (wrap64_small (2 ^ (attempt - 1))) by lia.
  apply wrap64_small. lia.
Qed.

Section Spec.

Variable maxRetries : Z.
Variable transport : Z -> attemptResult.

#[local] Abbreviation loop := (retryLoop maxRetries transport).

(** An attempt succeeds when a response arrives with a status in
    [200, 300). *)
Definition succeeds (r : attemptResult) : bool :=
  match r with
  | Response statusCode _ => (200 <=? statusCode)%Z && (statusCode <? 300)%Z
  | _ => false
  end.

(** The events of [n] passes of the loop from [attempt] on: before every
    attempt but attempt 0 the pause, then the attempt. *)
Fixpoint scheduleFrom (attempt : Z) (n : nat) : list event :=
  match n with
  | O => []
  | S n' =>
      ((if (0 <? attempt)%Z then [Slept (backoff attempt)] else [])
       ++ Attempted attempt (transport attempt) :: scheduleFrom (attempt + 1) n')%list
  end.

(** The events of the attempts [0 .. last]: attempt 0 at once, then for
    each retry the pause and the attempt. *)
Definition retryEvents (n : nat) : list event :=
  [Slept (backoff (Z.of_nat n)); Attempted (Z.of_nat n) (transport (Z.of_nat n))].

Definition scheduleUpTo (last : nat) : list event :=
  Attempted 0 (transport 0) :: flat_map retryEvents (seq 1 last).

(** The number of attempts among the events. *)
Definition attempts (evs : list event) : Z :=
  Z.of_nat (List.length (List.filter (fun ev => match ev with Attempted _ _ => true | Slept _ => false end) evs)).

Lemma attempts_scheduleFrom (a : Z) (n : nat) : attempts (scheduleFrom a n) = Z.of_nat n.
Proof.
  unfold attempts. revert a. induction n as [|n IH]; intros a; [reflexivity |].
  cbn [scheduleFrom]. rewrite List.filter_app. rewrite length_app.
  destruct (0 <? a)%Z; cbn [List.filter List.length]; specialize (IH (a + 1)%Z); lia.
Qed.

Lemma scheduleFrom_S_r (a : Z) (n : nat) :
  scheduleFrom a (S n) =
    ((if (0 <? a)%Z then [Slept (backoff a)] else [])
     ++ [Attempted a (transport a)] ++ scheduleFrom (a + 1) n)%list.
Proof. reflexivity. Qed.

(** The loop from [attempt] on, with [n] passes left before [attempt]
    exceeds [maxRetries]. *)
Lemma retryLoop_run (n : nat) :
  forall (fuel : nat) (attempt : Z) (lastErr : option attemptResult),
    (0 <= attempt)%Z -> (maxRetries < 2 ^ 63 - 1)%Z ->
    (attempt + Z.of_nat n = maxRetries + 1)%Z ->
    (n < fuel)%nat ->
    (exists k : nat,
        (k < n)%nat /\
        succeeds (transport (attempt + Z.of_nat k)) = true /\
        (forall j : nat, (j < k)%nat -> succeeds (transport (attempt + Z.of_nat j)) = false) /\
        loop fuel attempt lastErr = Some (Sent, scheduleFrom attempt (S k)))
    \/
    ((forall j : nat, (j < n)%nat -> succeeds (transport (attempt + Z.of_nat j)) = false) /\
     loop fuel attempt lastErr =
       Some (FailedAfter (maxRetries + 1)
               (match n with O => lastErr | S _ => Some (transport maxRetries) end),
             scheduleFrom attempt n)).
Proof.
  induction n as [|n IH]; intros fuel attempt lastErr Ha Hmax Hn Hfuel.
  - right. split; [intros j Hj; lia |].
    destruct fuel as [|fuel]; [lia |]. cbn [retryLoop scheduleFrom].
    destruct (Z.leb_spec attempt maxRetries); [lia |].
    rewrite wrap64_small by lia. reflexivity.
  - destruct fuel as [|fuel]; [lia |]. cbn [retryLoop].
    destruct (Z.leb_spec attempt maxRetries); [| lia].
    rewrite (wrap64_small (attempt + 1)) by lia.
    assert (Hstep : forall r,
      r = transport attempt -> succeeds r = false ->
      (∃ k : nat,
         (k < S n)%nat ∧ succeeds (transport (attempt + Z.of_nat k)) = true ∧
         (∀ j : nat, (j < k)%nat → succeeds (transport (attempt + Z.of_nat j)) = false) ∧
         match loop fuel (attempt + 1) (Some r) with
         | Some (res, evs') =>
             Some (res, ((sleepBefore attempt ++ [Attempted attempt r]) ++ evs')%list)
         | None => None
         end = Some (Sent, scheduleFrom attempt (S k)))
      ∨ ((∀ j : nat, (j < S n)%nat → succeeds (transport (attempt + Z.of_nat j)) = false) ∧
         match loop fuel (attempt + 1) (Some r) with
         | Some (res, evs') =>
             Some (res, ((sleepBefore attempt ++ [Attempted attempt r]) ++ evs')%list)
         | None => None
         end = Some (FailedAfter (maxRetries + 1) (Some (transport maxRetries)),
                     scheduleFrom attempt (S n)))).
    { intros r Hr Hfail.
      destruct (IH fuel (attempt + 1)%Z (Some r) ltac:(lia) Hmax ltac:(lia) ltac:(lia))
        as [(k & Hk & Hs & Hbefore & ->) | (Hall & ->)].
      - left. exists (S k). split; [lia |].
        replace (attempt + Z.of_nat (S k))%Z with (attempt + 1 + Z.of_nat k)%Z by lia.
        split; [assumption |]. split.
        + intros [|j] Hj; [now rewrite Z.add_0_r, <- Hr |].
          replace (attempt + Z.of_nat (S j))%Z with (attempt + 1 + Z.of_nat j)%Z by lia.
          apply Hbefore. lia.
        + rewrite (scheduleFrom_S_r attempt (S k)), <- Hr.
          unfold sleepBefore. now rewrite <- app_assoc.
      - right. split.
        + intros [|j] Hj; [now rewrite Z.add_0_r, <- Hr |].
          replace (attempt + Z.of_nat (S j))%Z with (attempt + 1 + Z.of_nat j)%Z by lia.
          apply Hall. lia.
        + rewrite (scheduleFrom_S_r attempt n), <- Hr.
          unfold sleepBefore. rewrite <- app_assoc. repeat f_equal.
          destruct n as [|n']; [| reflexivity].
          rewrite Hr. f_equal. f_equal. lia. }
    destruct (transport attempt) as [err | err | statusCode body] eqn:Hr;
      try (apply Hstep; reflexivity).
    destruct (isSuccess statusCode) eqn:Hok; [| apply Hstep; [reflexivity | exact Hok]].
    left. exists 0%nat. rewrite Z.add_0_r, Hr.
    split; [lia |]. split; [exact Hok |]. split; [intros j Hj; lia |].
    cbn [scheduleFrom]. rewrite Hr. unfold sleepBefore. reflexivity.
Qed.


Lemma scheduleFrom_retries (a n : nat) :
  (1 <= a)%nat -> scheduleFrom (Z.of_nat a) n = flat_map retryEvents (seq a n).
Proof.
  revert a. induction n as [|n IH]; intros a Ha; [reflexivity |].
  cbn [scheduleFrom seq flat_map].
  destruct (Z.ltb_spec 0 (Z.of_nat a)); [| lia].
  replace (Z.of_nat a + 1)%Z with (Z.of_nat (S a)) by lia.
  rewrite IH by lia. reflexivity.
Qed.

Lemma scheduleFrom_0 (k : nat) : scheduleFrom 0 (S k) = scheduleUpTo k.
Proof.
  cbn [scheduleFrom]. change (0 + 1)%Z with (Z.of_nat 1).
  now rewrite scheduleFrom_retries.
Qed.

Lemma attempts_scheduleUpTo (k : nat) : attempts (scheduleUpTo k) = (Z.of_nat k + 1)%Z.
Proof. rewrite <- scheduleFrom_0, attempts_scheduleFrom. lia. Qed.

(** C1, as amended. With the payload serialised and [0 <= maxRetries],
    [sendWithRetry] goes through the attempts [0, 1, ...]: attempt 0 at
    once, every retry [n] after a pause of [backoff n], which is
    [retryBaseSec * 2^(n-1)] seconds as long as [n <= 34]. An attempt
    succeeds exactly when a response comes with a status in [200, 300).
    The first attempt that succeeds ends the run with success; when none
    of the attempts [0 .. maxRetries] succeeds, the run ends after
    [maxRetries + 1] attempts with the error that carries that count and
    the cause of the last attempt. A payload that does not serialise
    gives the marshal error and no attempt. *)
Theorem sendWithRetry_spec (body : string) (fuel : nat) :
  (0 <= maxRetries < 2 ^ 63 - 1)%Z ->
  (Z.to_nat maxRetries + 1 < fuel)%nat ->
  let run := sendWithRetry maxRetries transport fuel (inl body) in
  ((exists k : nat,
       (Z.of_nat k <= maxRetries)%Z /\
       succeeds (transport (Z.of_nat k)) = true /\
       (forall j : nat, (j < k)%nat -> succeeds (transport (Z.of_nat j)) = false) /\
       run = Some (Sent, scheduleUpTo k))
   \/
   ((forall j : nat, (Z.of_nat j <= maxRetries)%Z ->
       succeeds (transport (Z.of_nat j)) = false) /\
    run = Some (FailedAfter (maxRetries + 1) (Some (transport maxRetries)),
                scheduleUpTo (Z.to_nat maxRetries))))
  /\
  (forall k : nat, attempts (scheduleUpTo k) = (Z.of_nat k + 1)%Z)
  /\
  (forall n : Z,
     (1 <= n <= 34)%Z -> backoff n = (retryBaseSec * 2 ^ (n - 1) * Second)%Z)
  /\
  (forall err : string,
     sendWithRetry maxRetries transport fuel (inr err) = Some (MarshalFailed err, [])).
Proof.
  intros Hmax Hfuel run. split; [| split; [exact attempts_scheduleUpTo |
                                     split; [exact backoff_exact | reflexivity]]].
  subst run. cbn [sendWithRetry].
  destruct (retryLoop_run (S (Z.to_nat maxRetries)) fuel 0 None
              ltac:(lia) ltac:(lia) ltac:(lia) ltac:(lia))
    as [(k & Hk & Hs & Hbefore & Hrun) | (Hall & Hrun)].
  - left. exists k. rewrite Z.add_0_l in Hs. split; [lia |].
    split; [assumption |]. split.
    + intros j Hj. specialize (Hbefore j Hj). now rewrite Z.add_0_l in Hbefore.
    + now rewrite Hrun, scheduleFrom_0.
  - right. split.
    + intros j Hj. specialize (Hall j ltac:(lia)). now rewrite Z.add_0_l in Hall.
    + now rewrite Hrun, scheduleFrom_0.
Qed.

End Spec.

(** A transport that answers 500 to every request. *)
Definition alwaysDown (attempt : Z) : attemptResult := Response 500 "unavailable".

(** A transport that fails three times and then answers 200. *)
Definition upAtFourth (attempt : Z) : attemptResult :=
  if (attempt <? 3)%Z then DoError "connection refused" else Response 200 "".

(** C1 as stated fails: with [maxRetries = 35] and a transport that is
    down the pause before retry 35 is not [2^34] seconds: the count of
    nanoseconds has wrapped to a negative duration. And a payload that
    does not serialise gives an error that carries no attempt count. *)
Lemma sendWithRetry_backoff_overflow :
  (exists evs,
      sendWithRetry 35 alwaysDown 40 (inl "{}")
        = Some (FailedAfter 36 (Some (Response 500 "unavailable")), evs) /\
      nth 69 evs (Slept 0) = Slept (-1266874889709551616) /\
      nth 70 evs (Slept 0) = Attempted 35 (Response 500 "unavailable") /\
      (-1266874889709551616)%Z <> (retryBaseSec * 2 ^ (35 - 1) * Second)%Z)
  /\
  sendWithRetry 3 alwaysDown 10 (inr "unsupported value")
    = Some (MarshalFailed "unsupported value", []).
Proof.
  split; [| reflexivity].
  eexists. split; [vm_compute; reflexivity |].
  split; [reflexivity |]. split; [reflexivity | discriminate].
Qed.

Lemma sendWithRetry_spec_witness :
  sendWithRetry 3 upAtFourth 10 (inl "{}")
  = Some (Sent,
          [Attempted 0 (DoError "connection refused");
           Slept 1000000000; Attempted 1 (DoError "connection refused");
           Slept 2000000000; Attempted 2 (DoError "connection refused");
           Slept 4000000000; Attempted 3 (Response 200 "")])
  /\
  sendWithRetry 3 alwaysDown 10 (inl "{}")
  = Some (FailedAfter 4 (Some (Response 500 "unavailable")),
          [Attempted 0 (Response 500 "unavailable");
           Slept 1000000000; Attempted 1 (Response 500 "unavailable");
           Slept 2000000000; Attempted 2 (Response 500 "unavailable");
           Slept 4000000000; Attempted 3 (Response 500 "unavailable")]).
Proof.
  split.
  - destruct (proj1 (sendWithRetry_spec 3 upAtFourth "{}" 10
                       ltac:(lia) ltac:(simpl; lia)))
      as [(k & Hk & Hs & Hbefore & Hrun) | (Hall & Hrun)].
    + assert (k = 3%nat) as ->.
      { unfold upAtFourth in Hs.
        destruct (Z.ltb_spec (Z.of_nat k) 3); [discriminate Hs | lia]. }
      exact Hrun.
    + specialize (Hall 3%nat ltac:(lia)). discriminate Hall.
  - destruct (proj1 (sendWithRetry_spec 3 alwaysDown "{}" 10
                       ltac:(lia) ltac:(simpl; lia)))
      as [(k & Hk & Hs & Hbefore & Hrun) | (Hall & Hrun)].
    + discriminate Hs.
    + exact Hrun.
Defined.

End RetrySpec.

(** ** The worker pool *)

Module IngestSpec.
Import Ingest.

Section Spec.

Variable ALBLogEntry : Type.
Variable ParseErr : Type.
Variable ParseLogLine : string -> parse_result ALBLogEntry ParseErr.
Variable capacity : nat.

#[local] Abbreviation State := (state ALBLogEntry).
#[local] Abbreviation Worker := (worker ALBLogEntry).
#[local] Abbreviation parsed := (parsedEntry ALBLogEntry ParseErr ParseLogLine).
#[local] Abbreviation sequential := (parseSequential ALBLogEntry ParseErr ParseLogLine).
#[local] Abbreviation after := (afterLine ALBLogEntry ParseErr ParseLogLine).
#[local] Abbreviation Step := (step ALBLogEntry ParseErr ParseLogLine capacity).
#[local] Abbreviation init := (initial ALBLogEntry).


(** The entry a worker holds. *)
Definition held (w : Worker) : option ALBLogEntry :=
  match w with
  | Sending entry => Some entry
  | _ => None
  end.

(** All the entries of a state: collected, in the result channel, in the
    hands of the workers, and still to come from the lines in the line
    channel and in the scanner. *)
Definition content (st : State) : list ALBLogEntry :=
  (entries st ++ entriesChan st ++ omap held (workers st)
   ++ omap parsed (linesChan st) ++ omap parsed (scanner st))%list.





(** *** What holds in every state of a run *)

Record invariant (st : State) : Prop := {
  inv_scanner : linesClosed st = true -> scanner st = [];
  inv_exited :
    In Exited (workers st) -> linesClosed st = true /\ linesChan st = [];
  inv_closed : entriesClosed st = true -> Forall (fun w => w = Exited) (workers st);
  inv_returned : returned st = true -> entriesClosed st = true /\ entriesChan st = []
}.



Lemma lookup_In (ws : list Worker) (i : nat) (w : Worker) : ws !! i = Some w -> In w ws.
Proof. intros H. apply list_elem_of_In. eapply list_elem_of_lookup_2, H. Qed.







(** *** No deadlock *)



(** *** Every run ends *)

Definition weight (w : Worker) : nat :=
  match w with
  | Receiving => 1
  | Sending _ => 3
  | Exited => 0
  end.

Definition pendingFlag (b : bool) : nat := if b then 0 else 1.

Definition measure (st : State) : nat :=
  (4 * List.length (scanner st) + 3 * List.length (linesChan st)
   + list_sum (map weight (workers st)) + List.length (entriesChan st)
   + pendingFlag (linesClosed st) + pendingFlag (entriesClosed st)
   + pendingFlag (returned st))%nat.













End Spec.



End IngestSpec.

(** ** NLB records by their columns *)

Module NLBColumns.
Import GoStrings GoStringsFacts GoStrconv GoRegexp GoRegexpFacts NLB.

(** The literal bytes of a pattern, in order. *)
Fixpoint literals (p : pattern) : list ascii :=
  match p with
  | [] => []
  | Lit c :: p' => c :: literals p'
  | Rep _ _ _ :: p' => literals p'
  end.

(** The columns with the separators between them, one separator after
    each column but the last. *)
Fixpoint interleave (cols : list string) (seps : list ascii) : string :=
  match cols with
  | [] => ""
  | c :: cs =>
      match seps with
      | d :: ds => c +:+ String d (interleave cs ds)
      | [] => c
      end
  end.

(** The text of an NLB record: its 23 columns with the literal bytes of
    the pattern between them, a colon before each port and a blank
    elsewhere. *)
Definition nlbLine (cols : list string) : string :=
  interleave cols (literals nlbLogPattern).

(** The byte classes of the 23 groups of the pattern. *)
Definition columnClasses : list (ascii -> bool) := map snd (captures nlbLogPattern).

(** Every column is made of bytes its group admits: no blank in a text
    column, digits in a port, digits, [-] and [.] in a time, digits and
    [-] in a byte count. *)
Definition columnsOk (cols : list string) : Prop :=
  Forall2 (fun cls c => allIn cls c = true) columnClasses cols.

(** The text does not start with a byte of the class. *)
Definition stops (cls : ascii -> bool) (s : string) : Prop :=
  match s with
  | EmptyString => True
  | String c _ => cls c = false
  end.

(** The greedy loop takes a whole run of the class when the match goes
    through after it. *)
Lemma rep_run (k : string -> option (list string * string))
    (capture : bool) (mn : nat) (cls : ascii -> bool) (run : string) :
  forall (taken : string) (n : nat) (s : string) (res : list string * string),
    allIn cls run = true ->
    rep k capture mn cls (taken +:+ run) (n + String.length run) s = Some res ->
    rep k capture mn cls taken n (run +:+ s) = Some res.
Proof.
  induction run as [|c run IH]; intros taken n s res Hall H.
  - cbn [String.length] in H. rewrite app_empty_r, Nat.add_0_r in H. exact H.
  - cbn [allIn] in Hall. apply andb_true_iff in Hall as [Hc Hall].
    cbn [String.append rep]. rewrite Hc.
    rewrite (IH (snoc taken c) (S n) s res Hall); [reflexivity |].
    rewrite snoc_app. cbn [String.length] in H.
    now replace (S n + String.length run)%nat with (n + S (String.length run))%nat by lia.
Qed.

(** A column before a separator that is not of its class. *)
Lemma match_column_sep (cls : ascii -> bool) (d : ascii) (p : pattern)
    (f s : string) (g : list string) (r : string) :
  allIn cls f = true -> cls d = false ->
  match_here p s = Some (g, r) ->
  match_here (Rep true 0 cls :: Lit d :: p) (f +:+ String d s) = Some (f :: g, r).
Proof.
  intros Hf Hd Hp. cbn [match_here]. apply rep_run; [exact Hf |].
  cbn [String.append rep]. rewrite Hd. cbn [Nat.leb match_here].
  now rewrite Ascii.eqb_refl, Hp.
Qed.

(** Bytes of the class that are not the separator, before a byte that is
    neither: the loop gives all of them back without finding the
    separator. *)
Lemma rep_none_before (cls : ascii -> bool) (d : ascii) (p : pattern) (x : string) :
  forall (taken : string) (n : nat) (b : ascii) (s : string),
    allIn (fun a => negb (Ascii.eqb d a)) x = true ->
    cls b = false -> Ascii.eqb d b = false ->
    rep (match_here (Lit d :: p)) true 0 cls taken n (x +:+ String b s) = None.
Proof.
  induction x as [|a x IH]; intros taken n b s Hx Hb Hdb.
  - cbn [String.append rep]. rewrite Hb. cbn [Nat.leb match_here]. now rewrite Hdb.
  - cbn [allIn] in Hx. apply andb_true_iff in Hx as [Ha Hx].
    apply negb_true_iff in Ha.
    cbn [String.append rep]. rewrite (IH _ _ _ _ Hx Hb Hdb).
    cbn [Nat.leb match_here]. rewrite Ha. now destruct (cls a).
Qed.

(** A column before a separator of its own class, as the address before
    the colon of the port: the column ends at the last separator when
    what follows up to the next byte outside the class has none. *)
Lemma match_column_last_sep (cls : ascii -> bool) (d : ascii) (p : pattern)
    (f x : string) (b : ascii) (s : string) (g : list string) (r : string) :
  allIn cls f = true -> cls d = true ->
  allIn (fun a => negb (Ascii.eqb d a)) x = true ->
  cls b = false -> Ascii.eqb d b = false ->
  match_here p (x +:+ String b s) = Some (g, r) ->
  match_here (Rep true 0 cls :: Lit d :: p) (f +:+ String d (x +:+ String b s))
  = Some (f :: g, r).
Proof.
  intros Hf Hd Hx Hb Hdb Hp. cbn [match_here]. apply rep_run; [exact Hf |].
  cbn [String.append rep]. rewrite Hd.
  rewrite (rep_none_before cls d p x _ _ b s Hx Hb Hdb).
  cbn [Nat.leb match_here]. now rewrite Ascii.eqb_refl, Hp.
Qed.

(** The last column: the loop stops where the class does. *)
Lemma match_column_end (cls : ascii -> bool) (f rest : string) :
  allIn cls f = true -> stops cls rest ->
  match_here [Rep true 0 cls] (f +:+ rest) = Some ([f], rest).
Proof.
  intros Hf Hrest. cbn [match_here]. apply rep_run; [exact Hf |].
  cbn [String.append]. destruct rest as [|c rest]; cbn [rep Nat.leb match_here].
  - reflexivity.
  - cbn [stops] in Hrest. now rewrite Hrest.
Qed.

Lemma allIn_impl (cls1 cls2 : ascii -> bool) (s : string) :
  (forall a, cls1 a = true -> cls2 a = true) -> allIn cls1 s = true -> allIn cls2 s = true.
Proof.
  intros Himp. induction s as [|c s IH]; [reflexivity |].
  cbn [allIn]. intros [Hc Hs]%andb_true_iff. now rewrite (Himp c Hc), IH.
Qed.

Lemma digit_not_colon (a : ascii) : isDigit a = true -> negb (Ascii.eqb ":" a) = true.
Proof.
  intros H. destruct (Ascii.eqb_spec ":" a) as [<- |]; [discriminate H | reflexivity].
Qed.

Lemma str_take_app (a r : string) :
  str_take (String.length (a +:+ r) - String.length r) (a +:+ r) = a.
Proof.
  rewrite length_app. replace (String.length a + String.length r - String.length r)%nat
    with (String.length a) by lia.
  induction a as [|c a IH]; cbn [String.append String.length str_take].
  - now destruct r.
  - now rewrite IH.
Qed.

Lemma app_String_assoc (a : string) (d : ascii) (s r : string) :
  (a +:+ String d s) +:+ r = a +:+ String d (s +:+ r).
Proof. now rewrite app_assoc. Qed.

(** The pattern reads a record of 23 columns column by column. *)
Lemma nlb_match_columns (cols : list string) (rest : string) :
  columnsOk cols -> stops dashDotDigit rest ->
  match_here nlbLogPattern (nlbLine cols +:+ rest) = Some (cols, rest).
Proof.
  intros Hok Hrest. unfold columnsOk, columnClasses in Hok.
  cbn [nlbLogPattern captures map snd field_ port_ float_ count_ sp] in Hok.
  repeat match type of Hok with
         | Forall2 _ (_ :: _) _ =>
             let c := fresh "c" in let H := fresh "Hc" in
             apply Forall2_cons_inv_l in Hok as (c & ? & H & Hok & ->)
         end.
  apply Forall2_nil_inv_l in Hok as ->.
  unfold nlbLine, nlbLogPattern, field_, port_, float_, count_, sp.
  cbn [literals interleave].
  rewrite !app_String_assoc.
  repeat first
    [ apply match_column_end; assumption
    | apply match_column_sep; [assumption | reflexivity |]
    | apply match_column_last_sep;
      [ assumption | reflexivity
      | eapply allIn_impl; [exact digit_not_colon | assumption]
      | reflexivity | reflexivity | ] ].
Qed.

Lemma columnsOk_length (cols : list string) : columnsOk cols -> List.length cols = 23%nat.
Proof. intros Hok. apply Forall2_length in Hok. now rewrite <- Hok. Qed.

Lemma nlbLine_not_empty (cols : list string) (rest : string) :
  (2 <= List.length cols)%nat -> nlbLine cols +:+ rest <> "".
Proof.
  intros Hlen. destruct cols as [|c1 [|c2 cols]]; try (cbn in Hlen; lia).
  unfold nlbLine. cbn [literals nlbLogPattern field_ sp interleave].
  intros E. apply (f_equal String.length) in E.
  rewrite !length_app in E. cbn [String.length] in E. lia.
Qed.

(** A column that is not wholly of the class of its group, or after
    which the rest of the pattern does not match: the group and its
    separator do not match, however many bytes the loop gives back. *)
Lemma rep_column_fail (cls : ascii -> bool) (d : ascii) (p : pattern) (t : string) :
  forall (taken : string) (n : nat) (s : string),
    allIn (fun a => negb (Ascii.eqb d a)) t = true -> cls d = false ->
    allIn cls t = false \/ match_here p s = None ->
    rep (match_here (Lit d :: p)) true 0 cls taken n (t +:+ String d s) = None.
Proof.
  induction t as [|a t IH]; intros taken n s Ht Hd Hfail.
  - destruct Hfail as [Hfail | Hfail]; [discriminate Hfail |].
    cbn [String.append rep]. rewrite Hd. cbn [Nat.leb match_here].
    now rewrite Ascii.eqb_refl, Hfail.
  - cbn [allIn] in Ht, Hfail. apply andb_true_iff in Ht as [Ha Ht].
    apply negb_true_iff in Ha.
    cbn [String.append rep]. destruct (cls a) eqn:Hc.
    + cbn [andb] in Hfail. rewrite (IH _ _ _ Ht Hd Hfail).
      cbn [Nat.leb match_here]. now rewrite Ha.
    + cbn [Nat.leb match_here]. now rewrite Ha.
Qed.

Lemma match_column_fail (cls : ascii -> bool) (d : ascii) (p : pattern) (t s : string) :
  allIn (fun a => negb (Ascii.eqb d a)) t = true -> cls d = false ->
  allIn cls t = false \/ match_here p s = None ->
  match_here (Rep true 0 cls :: Lit d :: p) (t +:+ String d s) = None.
Proof. intros Ht Hd Hfail. cbn [match_here]. now apply rep_column_fail. Qed.

(** What follows each occurrence of the byte [d] in a text. *)
Fixpoint afterSep (d : ascii) (x : string) : list string :=
  match x with
  | EmptyString => []
  | String a x' => if Ascii.eqb d a then x' :: afterSep d x' else afterSep d x'
  end.

(** A column whose separator is of its own class, as the address before
    the colon of the port: the loop tries every separator in the text
    up to the next byte outside the class, and fails when the rest of
    the pattern matches after none of them. *)
Lemma rep_last_sep_fail (cls : ascii -> bool) (d : ascii) (q : pattern)
    (b : ascii) (s : string) (x : string) :
  forall (taken : string) (n : nat),
    cls b = false -> Ascii.eqb d b = false ->
    Forall (fun x' => match_here q (x' +:+ String b s) = None) (afterSep d x) ->
    rep (match_here (Lit d :: q)) true 0 cls taken n (x +:+ String b s) = None.
Proof.
  induction x as [|a x IH]; intros taken n Hb Hdb Hall.
  - cbn [String.append rep]. rewrite Hb. cbn [Nat.leb match_here]. now rewrite Hdb.
  - cbn [afterSep] in Hall.
    assert (Hk : match_here (Lit d :: q) (String a (x +:+ String b s)) = None).
    { cbn [match_here]. destruct (Ascii.eqb d a); [| reflexivity].
      now inversion Hall. }
    assert (Htail : Forall (fun x' => match_here q (x' +:+ String b s) = None)
                      (afterSep d x))
      by (destruct (Ascii.eqb d a); [now inversion Hall | exact Hall]).
    cbn [String.append rep]. rewrite (IH _ _ Hb Hdb Htail).
    cbn [Nat.leb]. rewrite Hk. now destruct (cls a).
Qed.

Lemma match_last_sep_fail (cls : ascii -> bool) (d : ascii) (q : pattern)
    (b : ascii) (s : string) (x : string) :
  cls b = false -> Ascii.eqb d b = false ->
  Forall (fun x' => match_here q (x' +:+ String b s) = None) (afterSep d x) ->
  match_here (Rep true 0 cls :: Lit d :: q) (x +:+ String b s) = None.
Proof.
  intros Hb Hdb Hall. exact (rep_last_sep_fail cls d q b s x "" 0%nat Hb Hdb Hall).
Qed.

Lemma notSpace_not_blank (s : string) :
  allIn notSpace s = true -> allIn (fun a => negb (Ascii.eqb " " a)) s = true.
Proof.
  apply allIn_impl. intros a. unfold notSpace.
  now rewrite (Ascii.eqb_sym a " ").
Qed.

(** An address and a port: no match when, after every colon of the
    text, what follows is not made of digits or the rest does not
    match. *)
Lemma match_address_fail (p : pattern) (x s : string) :
  allIn notSpace x = true ->
  Forall (fun x' => allIn isDigit x' = false \/ match_here p s = None) (afterSep ":" x) ->
  match_here (field_ :: Lit ":" :: port_ :: sp :: p) (x +:+ String " " s) = None.
Proof.
  intros Hx Hall. unfold field_.
  apply match_last_sep_fail; [reflexivity | reflexivity |].
  assert (Hsuffix : forall x', In x' (afterSep ":" x) -> allIn notSpace x' = true).
  { clear Hall. induction x as [|a x IH]; [intros x' [] |].
    cbn [allIn] in Hx. apply andb_true_iff in Hx as [_ Hx].
    cbn [afterSep]. intros x' Hin.
    destruct (Ascii.eqb ":" a); [destruct Hin as [<- | Hin]; [exact Hx |] |];
      now apply IH. }
  apply Forall_forall. intros x' Hin. apply list_elem_of_In in Hin.
  rewrite Forall_forall in Hall.
  apply match_column_fail;
    [now apply notSpace_not_blank, Hsuffix | reflexivity | apply Hall; now apply list_elem_of_In].
Qed.

(** After a colon of an address followed by [:-] there is a [-]. *)
Lemma afterSep_dash (c : string) :
  Forall (fun x' => allIn isDigit x' = false) (afterSep ":" (c +:+ String ":" "-")).
Proof.
  induction c as [|a c IH]; cbn [String.append afterSep].
  - rewrite Ascii.eqb_refl. repeat constructor.
  - destruct (Ascii.eqb ":" a); [| exact IH].
    constructor; [| exact IH].
    rewrite allIn_app. cbn. apply andb_false_r.
Qed.

(** A record with [-] for the client or the target port is not of the
    pattern. *)
Lemma nlb_dash_port_no_match (cols : list string) (rest : string) (port : nat) :
  columnsOk cols -> port = 6%nat \/ port = 8%nat ->
  match_here nlbLogPattern (nlbLine (<[port := "-"]> cols) +:+ rest) = None.
Proof.
  intros Hok Hport. unfold columnsOk, columnClasses in Hok.
  cbn [nlbLogPattern captures map snd field_ port_ float_ count_ sp] in Hok.
  repeat match type of Hok with
         | Forall2 _ (_ :: _) _ =>
             let c := fresh "c" in let H := fresh "Hc" in
             apply Forall2_cons_inv_l in Hok as (c & ? & H & Hok & ->)
         end.
  apply Forall2_nil_inv_l in Hok as ->.
  unfold nlbLine. cbn [literals nlbLogPattern field_ port_ float_ count_ sp].
  destruct Hport as [-> | ->]; cbn [insert list_insert interleave];
    rewrite !app_String_assoc; unfold nlbLogPattern, field_ at 1 2 3 4 5, sp at 1 2 3 4 5;
    do 5 (apply match_column_fail;
            [now apply notSpace_not_blank | reflexivity | right]).
  - match goal with
    | |- match_here _ (?a +:+ String ":" (?b +:+ String " " ?s)) = None =>
        rewrite <- (app_String_assoc a ":" b (String " " s))
    end.
    apply match_address_fail.
    + rewrite allIn_app. now rewrite Hc4.
    + eapply Forall_impl; [apply afterSep_dash |]. intros x' Hx'. now left.
  - match goal with
    | |- match_here _ (?a +:+ String ":" (?b +:+ String " " ?s)) = None =>
        rewrite <- (app_String_assoc a ":" b (String " " s))
    end.
    apply match_address_fail.
    + rewrite allIn_app, Hc4. cbn [andb allIn].
      rewrite (allIn_impl isDigit notSpace c5); [reflexivity | | assumption].
      intros a Ha. unfold notSpace.
      destruct (Ascii.eqb_spec a " ") as [-> |]; [discriminate Ha | reflexivity].
    + apply Forall_forall. intros x' _. right.
      match goal with
      | |- match_here _ (?a +:+ String ":" (?b +:+ String " " ?s)) = None =>
          rewrite <- (app_String_assoc a ":" b (String " " s))
      end.
      apply match_address_fail.
      * rewrite allIn_app. now rewrite Hc6.
      * eapply Forall_impl; [apply afterSep_dash |]. intros y Hy. now left.
Qed.

End NLBColumns.

(** ** The absent sentinel in numeric columns *)

Module SentinelSpec.
Import GoStrings GoStringsFacts GoStrconv GoRegexp GoRegexpFacts NLBColumns.

(** The numeric groups of the NLB pattern. *)
Inductive numericGroup : Type :=
| GroupClientPort
| GroupTargetPort
| GroupConnectionTime
| GroupTLSHandshakeTime
| GroupReceivedBytes
| GroupSentBytes
| GroupTLSHandshakeTimeMS.

(** The number of a numeric group among the groups of a match; the
    column of the record is the one before, counted from 0. *)
Definition groupIndex (g : numericGroup) : nat :=
  match g with
  | GroupClientPort => 7
  | GroupTargetPort => 9
  | GroupConnectionTime => 10
  | GroupTLSHandshakeTime => 11
  | GroupReceivedBytes => 12
  | GroupSentBytes => 13
  | GroupTLSHandshakeTimeMS => 23
  end.

Section Spec.

Variable float64 : Type.
Variable float64_zero : float64.
Variable ParseFloat : string -> float64 * option NumError.

#[local] Abbreviation parseCF :=
  (CloudFront.ParseCloudFrontLogLine float64 float64_zero ParseFloat).
#[local] Abbreviation parseNLB := (NLB.ParseNLBLogLine float64 float64_zero ParseFloat).
#[local] Abbreviation entryOf := (NLBSpec.entryOf float64 float64_zero ParseFloat).

Definition groupStoresZero (g : numericGroup) (e : NLB.NLBLogEntry float64) : Prop :=
  match g with
  | GroupClientPort => NLB.ClientPort e = 0%Z
  | GroupTargetPort => NLB.TargetPort e = 0%Z
  | GroupConnectionTime => NLB.ConnectionTime e = float64_zero
  | GroupTLSHandshakeTime => NLB.TLSHandshakeTime e = float64_zero
  | GroupReceivedBytes => NLB.ReceivedBytes e = 0%Z
  | GroupSentBytes => NLB.SentBytes e = 0%Z
  | GroupTLSHandshakeTimeMS => NLB.TLSHandshakeTimeMS e = float64_zero
  end.

(** A CloudFront line of which 33 or more columns are left when it is
    trimmed: it parses, and a numeric column with the sentinel is zero. *)
Lemma cloudfront_absent_zero (line : string) (c : CloudFrontSpec.numericColumn) :
  TrimSpace line <> "" ->
  HasPrefix (TrimSpace line) "#" = false ->
  (33 <= List.length (Split (TrimSpace line) tab))%nat ->
  CloudFront.isAbsent
    (nth (CloudFrontSpec.columnIndex c) (Split (TrimSpace line) tab) "") = true ->
  exists e, parseCF line = Parsed e /\ CloudFrontSpec.storesZero float64 float64_zero c e.
Proof.
  intros Hne Hc Hlen Habs. rewrite CloudFrontSpec.ParseCloudFrontLogLine_unfold. cbv zeta.
  apply String.eqb_neq in Hne. rewrite Hne, Hc. cbn [orb].
  apply Nat.ltb_ge in Hlen. rewrite Hlen.
  eexists. split; [reflexivity |].
  destruct c; cbn [CloudFrontSpec.storesZero CloudFrontSpec.columnIndex] in *; cbn;
    unfold CloudFront.parseCFInt, CloudFront.parseCFInt64, CloudFront.parseCFFloat,
      CloudFront.field; now rewrite Habs.
Qed.

(** The numeric groups of a match that hold the sentinel are zero in the
    entry. *)
Lemma nlb_absent_zero (matches : list string) (g : numericGroup) :
  NLB.isAbsent (nth (groupIndex g) matches "") = true ->
  groupStoresZero g (entryOf matches).
Proof.
  intros Habs.
  destruct g; cbn [groupStoresZero groupIndex NLBSpec.entryOf] in *; cbn;
    unfold NLB.getInt, NLB.getInt64, NLB.getFloat; cbv zeta; now rewrite Habs.
Qed.

Lemma digits_not_dash (s : string) : allIn isDigit s = true -> s <> "-".
Proof. intros H ->. discriminate H. Qed.

(** An NLB line that is a record of 23 columns, with or without text
    after it. *)
Lemma nlb_parse_columns (line : string) (cols : list string) (rest : string) :
  TrimSpace line = nlbLine cols +:+ rest ->
  HasPrefix (TrimSpace line) "#" = false ->
  columnsOk cols -> stops NLB.dashDotDigit rest ->
  parseNLB line = Parsed (entryOf (nlbLine cols :: cols)).
Proof.
  intros Ht Hc Hok Hrest. rewrite NLBSpec.ParseNLBLogLine_unfold. cbv zeta.
  rewrite Hc, Ht. rewrite orb_false_r.
  pose proof (nlbLine_not_empty cols rest) as Hne.
  rewrite (columnsOk_length cols Hok) in Hne. specialize (Hne ltac:(lia)).
  apply String.eqb_neq in Hne.
  rewrite Hne. unfold FindStringSubmatchAnchored.
  rewrite (nlb_match_columns cols rest Hok Hrest). now rewrite str_take_app.
Qed.

(** An NLB record with [-] for a port is refused. *)
Lemma nlb_parse_dash_port (line : string) (cols : list string) (rest : string)
    (port : nat) :
  columnsOk cols -> port = 6%nat \/ port = 8%nat ->
  TrimSpace line = nlbLine (<[port := "-"]> cols) +:+ rest ->
  HasPrefix (TrimSpace line) "#" = false ->
  parseNLB line = Failed NLB.FailedToParseNLBLogLine.
Proof.
  intros Hok Hport Ht Hc. rewrite NLBSpec.ParseNLBLogLine_unfold. cbv zeta.
  rewrite Hc, Ht. rewrite orb_false_r.
  pose proof (nlbLine_not_empty (<[port := "-"]> cols) rest) as Hne.
  rewrite length_insert, (columnsOk_length cols Hok) in Hne. specialize (Hne ltac:(lia)).
  apply String.eqb_neq in Hne. rewrite Hne. unfold FindStringSubmatchAnchored.
  now rewrite (nlb_dash_port_no_match cols rest port Hok Hport).
Qed.

(** C8, as amended. A CloudFront record of which 33 or more columns are
    left when the white space at its ends is removed parses, and each of
    its eight numeric columns that holds [-] or nothing is stored as
    zero; for a record without white space at its ends these are the
    columns of the record itself. An NLB record of 23 columns, each made
    of the bytes its group of the pattern admits, parses, and each of
    its seven numeric columns that holds [-] or nothing is stored as
    zero, the entry being read from these columns. A port is read by a group of digits: a port column can be
    empty, but the port of a line that parses is never [-], and an NLB
    record with [-] written for its client or its target port (columns 6
    and 8, counted from 0) is refused with the parse error. *)
Theorem absent_numeric_column :
  (forall (line : string) (c : CloudFrontSpec.numericColumn),
     TrimSpace line <> "" ->
     HasPrefix (TrimSpace line) "#" = false ->
     (33 <= List.length (Split (TrimSpace line) tab))%nat ->
     CloudFront.isAbsent
       (nth (CloudFrontSpec.columnIndex c) (Split (TrimSpace line) tab) "") = true ->
     exists e : CloudFront.CloudFrontLogEntry float64,
       parseCF line = Parsed e /\
       CloudFrontSpec.storesZero float64 float64_zero c e)
  /\
  (forall (cols : list string) (c : CloudFrontSpec.numericColumn),
     CloudFrontSpec.wellFormed cols ->
     CloudFront.isAbsent (nth (CloudFrontSpec.columnIndex c) cols "") = true ->
     exists e : CloudFront.CloudFrontLogEntry float64,
       CloudFront.ParseCloudFrontLogLine float64 float64_zero ParseFloat (Join cols tab)
         = Parsed e /\
       CloudFrontSpec.storesZero float64 float64_zero c e)
  /\
  (forall (line : string) (cols : list string) (rest : string),
     TrimSpace line = nlbLine cols +:+ rest ->
     HasPrefix (TrimSpace line) "#" = false ->
     columnsOk cols -> stops NLB.dashDotDigit rest ->
     exists e : NLB.NLBLogEntry float64,
       NLB.ParseNLBLogLine float64 float64_zero ParseFloat line = Parsed e /\
       e = NLBSpec.entryOf float64 float64_zero ParseFloat (nlbLine cols :: cols) /\
       forall g : numericGroup,
         NLB.isAbsent (nth (groupIndex g - 1) cols "") = true -> groupStoresZero g e)
  /\
  (forall (line : string) (e : NLB.NLBLogEntry float64),
     NLB.ParseNLBLogLine float64 float64_zero ParseFloat line = Parsed e ->
     exists matches : list string,
       FindStringSubmatchAnchored NLB.nlbLogPattern (TrimSpace line) = Some matches /\
       e = NLBSpec.entryOf float64 float64_zero ParseFloat matches /\
       allIn isDigit (nth 7 matches "") = true /\
       allIn isDigit (nth 9 matches "") = true /\
       nth 7 matches "" <> "-" /\
       nth 9 matches "" <> "-" /\
       forall g : numericGroup,
         NLB.isAbsent (nth (groupIndex g) matches "") = true -> groupStoresZero g e)
  /\
  (forall (line : string) (cols : list string) (rest : string) (port : nat),
     columnsOk cols -> port = 6%nat \/ port = 8%nat ->
     TrimSpace line = nlbLine (<[port := "-"]> cols) +:+ rest ->
     HasPrefix (TrimSpace line) "#" = false ->
     NLB.ParseNLBLogLine float64 float64_zero ParseFloat line
       = Failed NLB.FailedToParseNLBLogLine).
Proof.
  split; [exact cloudfront_absent_zero |].
  split; [| split; [| split; [| exact nlb_parse_dash_port]]].
  - intros cols c. apply CloudFrontSpec.absent_column_zero.
  - intros line cols rest Ht Hc Hok Hrest.
    rewrite (nlb_parse_columns line cols rest Ht Hc Hok Hrest).
    eexists. split; [reflexivity |]. split; [reflexivity |].
    intros g Habs. apply nlb_absent_zero. destruct g; exact Habs.
  - intros line e Hp.
    destruct (NLBSpec.parse_Parsed_ports _ _ _ line e Hp) as (m & Hm & -> & H7 & H9).
    exists m. repeat split; try assumption.
    + now apply digits_not_dash.
    + now apply digits_not_dash.
    + intros g. apply nlb_absent_zero.
Qed.

End Spec.

(** The record of the CloudFront parser test with nothing in its last
    three columns, [sc-content-len] among them. *)
Definition emptyTailRecord : list string :=
  take 30 CloudFrontSpec.testRecord ++ [""; ""; ""].

(** The line of the NLB parser test without its last column, the
    handshake time in milliseconds. *)
Definition noHandshakeLine : string :=
  "tls 2.0 2023-10-01T00:00:00.000000Z app/net-lb/1234567890abcdef listener/net-lb/1234567890abcdef/1234567890abcdef 1.2.3.4:12345 5.6.7.8:80 0.001 0.002 100 200 - arn:aws:acm:us-east-1:123456789012:certificate/12345678-1234-1234-1234-123456789012 - ECDHE-RSA-AES128-GCM-SHA256 TLSv1.2 - example.com h2 - ".

(** C8 as stated fails. The line of the NLB parser test with [-] in place
    of the client port, the absent sentinel in a numeric column, is
    refused with the parse error, and so is the line with nothing for
    its last numeric column; the line itself parses. The CloudFront
    record has 33 columns and nothing in the numeric column
    [sc-content-len]; its last columns being empty, they are trimmed
    away with their tabs and the record is refused for having 30
    fields. *)
Lemma ParseNLBLogLine_dash_port_fails :
  (NLB.ParseNLBLogLine Float64.float64 Float64.zero Float64.ParseFloat NLBSpec.dashPortLine
     = Failed NLB.FailedToParseNLBLogLine
   /\
   NLB.ParseNLBLogLine Float64.float64 Float64.zero Float64.ParseFloat noHandshakeLine
     = Failed NLB.FailedToParseNLBLogLine
   /\
   exists e,
     NLB.ParseNLBLogLine Float64.float64 Float64.zero Float64.ParseFloat NLBSpec.testLine
       = Parsed e)
  /\
  (List.length emptyTailRecord = 33%nat /\
   CloudFront.isAbsent (nth 30 emptyTailRecord "") = true /\
   CloudFront.ParseCloudFrontLogLine Float64.float64 Float64.zero Float64.ParseFloat
     (Join emptyTailRecord tab) = Failed (CloudFront.InvalidNumberOfFields 30)).
Proof.
  split.
  - split; [vm_compute; reflexivity |]. split; [vm_compute; reflexivity |].
    eexists. vm_compute. reflexivity.
  - split; [reflexivity |]. split; [reflexivity |]. vm_compute. reflexivity.
Qed.

(** An NLB record whose client port and received bytes are not
    reported, and its columns. *)
Definition absentLine : string :=
  "tls 2.0 2023-10-01T00:00:00.000000Z app/net-lb/1 listener/1 1.2.3.4: 5.6.7.8:80 0.001 - - 200 - - - ECDHE-RSA-AES128-GCM-SHA256 TLSv1.2 - example.com h2 - 2.000".

Definition absentColumns : list string :=
  ["tls"; "2.0"; "2023-10-01T00:00:00.000000Z"; "app/net-lb/1"; "listener/1";
   "1.2.3.4"; ""; "5.6.7.8"; "80"; "0.001"; "-"; "-"; "200"; "-"; "-"; "-";
   "ECDHE-RSA-AES128-GCM-SHA256"; "TLSv1.2"; "-"; "example.com"; "h2"; "-"; "2.000"].

(** The columns of the line of the parser test. *)
Definition testColumns : list string :=
  ["tls"; "2.0"; "2023-10-01T00:00:00.000000Z"; "app/net-lb/1234567890abcdef";
   "listener/net-lb/1234567890abcdef/1234567890abcdef"; "1.2.3.4"; "12345";
   "5.6.7.8"; "80"; "0.001"; "0.002"; "100"; "200"; "-";
   "arn:aws:acm:us-east-1:123456789012:certificate/12345678-1234-1234-1234-123456789012";
   "-"; "ECDHE-RSA-AES128-GCM-SHA256"; "TLSv1.2"; "-"; "example.com"; "h2"; "-"; "2.000"].

Lemma testColumns_ok : columnsOk testColumns.
Proof.
  unfold columnsOk, columnClasses, testColumns.
  cbn [NLB.nlbLogPattern captures map snd NLB.field_ NLB.port_ NLB.float_ NLB.count_ NLB.sp].
  repeat (apply List.Forall2_cons; [reflexivity |]). apply List.Forall2_nil.
Defined.

Lemma absentColumns_ok : columnsOk absentColumns.
Proof.
  unfold columnsOk, columnClasses, absentColumns.
  cbn [NLB.nlbLogPattern captures map snd NLB.field_ NLB.port_ NLB.float_ NLB.count_ NLB.sp].
  repeat (apply List.Forall2_cons; [reflexivity |]). apply List.Forall2_nil.
Defined.

(** The record of the CloudFront parser test has the sentinel in the
    column [fle-encrypted-fields], also when the line ends with a
    carriage return; the NLB record has an empty client port and [-]
    for the received bytes. *)
Lemma absent_numeric_column_witness :
  (exists e,
     CloudFront.ParseCloudFrontLogLine Float64.float64 Float64.zero Float64.ParseFloat
       (Join CloudFrontSpec.testRecord tab +:+ String (byte_of 13) EmptyString) = Parsed e /\
     CloudFront.FLEEncryptedFields e = 0%Z)
  /\
  (exists e,
     CloudFront.ParseCloudFrontLogLine Float64.float64 Float64.zero Float64.ParseFloat
       (Join CloudFrontSpec.testRecord tab) = Parsed e /\
     CloudFront.FLEEncryptedFields e = 0%Z)
  /\
  (exists e,
     NLB.ParseNLBLogLine Float64.float64 Float64.zero Float64.ParseFloat
       absentLine
     = Parsed e /\
     NLB.ClientPort e = 0%Z)
  /\
  (exists e,
     NLB.ParseNLBLogLine Float64.float64 Float64.zero Float64.ParseFloat
       absentLine
     = Parsed e /\
     NLB.ReceivedBytes e = 0%Z)
  /\
  nlbLine testColumns = NLBSpec.testLine
  /\
  NLB.ParseNLBLogLine Float64.float64 Float64.zero Float64.ParseFloat
    (nlbLine (<[6%nat := "-"]> testColumns))
  = Failed NLB.FailedToParseNLBLogLine.
Proof.
  pose proof (absent_numeric_column Float64.float64 Float64.zero Float64.ParseFloat)
    as (Hline & Hcols & Hnlb & _ & Hdash).
  split; [| split; [| split; [| split; [| split]]]].
  - apply (Hline _ CloudFrontSpec.ColFLEEncryptedFields).
    + vm_compute. discriminate.
    + vm_compute. reflexivity.
    + vm_compute. lia.
    + vm_compute. reflexivity.
  - exact (Hcols CloudFrontSpec.testRecord CloudFrontSpec.ColFLEEncryptedFields
             CloudFrontSpec.testRecord_wellFormed eq_refl).
  - destruct (Hnlb absentLine
                absentColumns EmptyString)
      as (e & Hp & _ & Hzero);
      [vm_compute; reflexivity | vm_compute; reflexivity | exact absentColumns_ok
      | exact I |].
    exists e. split; [exact Hp | exact (Hzero GroupClientPort eq_refl)].
  - destruct (Hnlb absentLine
                absentColumns EmptyString)
      as (e & Hp & _ & Hzero);
      [vm_compute; reflexivity | vm_compute; reflexivity | exact absentColumns_ok
      | exact I |].
    exists e. split; [exact Hp | exact (Hzero GroupReceivedBytes eq_refl)].
  - reflexivity.
  - apply (Hdash _ testColumns "" 6%nat testColumns_ok (or_introl eq_refl));
      vm_compute; reflexivity.
Defined.

End SentinelSpec.

(** ** The dispatch predicates of the processors *)

Module ProcessorSpec.
Import GoStrings GoStringsFacts Processor.

(** [String.prefix p s] holds exactly when [s] starts with [p]. *)
Lemma prefix_app_iff (p s : string) :
  String.prefix p s = true <-> exists post, s = p +:+ post.
Proof.
  revert s. induction p as [|c p IH]; intros s.
  - split; [exists s; reflexivity | destruct s; reflexivity].
  - destruct s as [|d s]; simpl.
    + split; [discriminate | intros [post H]; discriminate].
    + destruct (ascii_dec c d) as [-> | Hne].
      * rewrite IH. split; intros [post H]; exists post; [now rewrite H | now injection H].
      * split; [discriminate | intros [post H]; injection H as H _; congruence].
Qed.

(** [Contains] finds an occurrence wherever it is. *)
Lemma Contains_iff (s substr : string) :
  Contains s substr = true <-> exists pre post, s = pre +:+ substr +:+ post.
Proof.
  induction s as [|c s IH].
  - cbn [Contains]. destruct (String.prefix substr "") eqn:E.
    + apply prefix_app_iff in E as [post E]. split; [| reflexivity].
      intros _. exists "", post. exact E.
    + split; [discriminate |]. intros (pre & post & H).
      destruct pre; [| discriminate]. simpl in H.
      assert (String.prefix substr "" = true) by (apply prefix_app_iff; eauto).
      congruence.
  - cbn [Contains]. destruct (String.prefix substr (String c s)) eqn:E.
    + apply prefix_app_iff in E as [post E]. split; [| reflexivity].
      intros _. exists "", post. exact E.
    + rewrite IH. split.
      * intros (pre & post & ->). now exists (String c pre), post.
      * intros (pre & post & H). destruct pre as [|d pre].
        -- simpl in H.
           assert (String.prefix substr (String c s) = true)
             by (apply prefix_app_iff; eauto).
           congruence.
        -- simpl in H. injection H as _ ->. now exists pre, post.
Qed.

Lemma Contains_extend (s substr pre post : string) :
  Contains s substr = true -> Contains (pre +:+ s +:+ post) substr = true.
Proof.
  rewrite !Contains_iff. intros (p & q & ->).
  exists (pre +:+ p), (q +:+ post). now rewrite !app_assoc.
Qed.

(** The dispatch predicates look for their marks anywhere in the key: the
    ALB one for the path segment [/elasticloadbalancing/] and the infix
    [_app.], whatever the bucket; the WAF one for a bucket that starts
    with [aws-waf-logs-] and a key with [/WAFLogs/] and [_waflogs_]. A
    key that matches still matches with a prefix put before it and
    a suffix after it. *)
Theorem Matches_spec (bucket key : string) :
  (ALBMatches bucket key = true <->
     (exists pre post, key = pre +:+ "/elasticloadbalancing/" +:+ post) /\
     (exists pre post, key = pre +:+ "_app." +:+ post))
  /\
  (WAFMatches bucket key = true <->
     (exists rest, bucket = "aws-waf-logs-" +:+ rest) /\
     (exists pre post, key = pre +:+ "/WAFLogs/" +:+ post) /\
     (exists pre post, key = pre +:+ "_waflogs_" +:+ post))
  /\
  (forall bucket' pre post : string,
     ALBMatches bucket key = true ->
     ALBMatches bucket' (pre +:+ key +:+ post) = true)
  /\
  (forall pre post : string,
     WAFMatches bucket key = true ->
     WAFMatches bucket (pre +:+ key +:+ post) = true).
Proof.
  unfold ALBMatches, WAFMatches, HasPrefix.
  rewrite !andb_true_iff, !Contains_iff, prefix_app_iff.
  split; [reflexivity |]. split; [tauto |]. split.
  - intros bucket' pre post H. apply andb_true_iff in H as [H1 H2].
    rewrite andb_true_iff. split; now apply Contains_extend.
  - intros pre post H. apply andb_true_iff in H as [H H3].
    apply andb_true_iff in H as [H1 H2].
    rewrite !andb_true_iff. repeat split; [assumption | |]; now apply Contains_extend.
Qed.

(** The key of the processor test with a prefix of the bucket owner
    before it. *)
Lemma Matches_spec_witness :
  WAFMatches "aws-waf-logs-prod"
    "KEY-NAME-PREFIX/AWSLogs/123/WAFLogs/us-east-1/my-acl/123_waflogs_file.log" = true
  /\
  ALBMatches "my-bucket"
    "logs/AWSLogs/123/elasticloadbalancing/us-east-1/2023/01/01/123_elasticloadbalancing_us-east-1_app.my-lb.123_20230101T0000Z_1.2.3.4_5678.log.gz" = true.
Proof.
  split.
  - apply (proj2 (proj2 (proj2 (Matches_spec "aws-waf-logs-prod"
             "AWSLogs/123/WAFLogs/us-east-1/my-acl/123_waflogs_file.log")))
             "KEY-NAME-PREFIX/" "").
    reflexivity.
  - apply (proj1 (proj2 (proj2 (Matches_spec "any"
             "AWSLogs/123/elasticloadbalancing/us-east-1/2023/01/01/123_elasticloadbalancing_us-east-1_app.my-lb.123_20230101T0000Z_1.2.3.4_5678.log.gz")))
             "my-bucket" "logs/" "").
    reflexivity.
Defined.

End ProcessorSpec.

(** ** The attributes of a WAF resource *)

Module WAFAdapterSpec.
Import GoStrings GoStringsFacts Processor.

Section Spec.

Variable OTelAnyValue : Type.
Variable StringValue : string -> OTelAnyValue.
Variable WAFLogEntry : Type.
Variable WebACLID : WAFLogEntry -> string.

#[local] Abbreviation Attr := (OTelAttribute OTelAnyValue).
#[local] Abbreviation attr := (stringAttr OTelAnyValue StringValue).
#[local] Abbreviation Adapter := (WAFAdapter WAFLogEntry).
#[local] Abbreviation attributes :=
  (WAFGetResourceAttributes OTelAnyValue StringValue WAFLogEntry WebACLID).

(** The four attributes every WAF resource has. *)
Definition fixedAttributes (id : string) : list Attr :=
  [attr "cloud.provider" "aws"; attr "cloud.platform" "aws_waf";
   attr "cloud.service" "waf"; attr "aws.waf.web_acl_id" id].

(** The attribute [key], left out when the value is empty. *)
Definition optionalAttr (key value : string) : list Attr :=
  if String.eqb value "" then [] else [attr key value].

Lemma WAFGetResourceAttributes_unfold (a : Adapter) :
  attributes a =
    let id := WebACLID (wafEntry _ a) in
    let extracted := extractFromWebACLID id in
    (fixedAttributes id
     ++ optionalAttr "cloud.account.id"
          (if String.eqb (fst extracted) "" then wafAccountID _ a else fst extracted)
     ++ optionalAttr "cloud.region"
          (if String.eqb (snd extracted) "" then wafRegion _ a else snd extracted))%list.
Proof.
  unfold WAFGetResourceAttributes, optionalAttr, fixedAttributes. cbv zeta.
  destruct (extractFromWebACLID (WebACLID (wafEntry _ a))) as [acct reg]. cbn [fst snd].
  destruct (String.eqb (if String.eqb acct "" then _ else _) "");
    destruct (String.eqb (if String.eqb reg "" then _ else _) ""); reflexivity.
Qed.

(** An identifier with fewer than five colons is no ARN: nothing is read
    from it. *)
Lemma extract_short (id : string) :
  (Count id ":" < 5)%nat -> extractFromWebACLID id = ("", "").
Proof.
  intros H. unfold extractFromWebACLID. destruct (String.eqb id ""); [reflexivity |].
  cbn [negb]. rewrite length_Split.
  destruct (Nat.leb_spec 6 (S (Count id ":"))); [lia | reflexivity].
Qed.

(** An ARN [p0:p1:p2:region:account:resource]. *)
Definition arn (p0 p1 p2 region account resource : string) : string :=
  p0 +:+ ":" +:+ p1 +:+ ":" +:+ p2 +:+ ":" +:+ region +:+ ":" +:+ account +:+ ":" +:+ resource.

Definition noColon (s : string) : Prop := Count s ":" = 0%nat.

Lemma Split_arn (p0 p1 p2 region account resource : string) :
  noColon p0 -> noColon p1 -> noColon p2 -> noColon region -> noColon account ->
  Split (arn p0 p1 p2 region account resource) ":"
  = (p0 :: p1 :: p2 :: region :: account :: Split resource ":")%list.
Proof.
  unfold arn, noColon. intros H0 H1 H2 H3 H4.
  change ":" with (String ":"%char "") at 1 2 3 4 5.
  cbn [String.append].
  now rewrite !Split_app_sep by assumption.
Qed.

Lemma extract_arn (p0 p1 p2 region account resource : string) :
  noColon p0 -> noColon p1 -> noColon p2 -> noColon region -> noColon account ->
  extractFromWebACLID (arn p0 p1 p2 region account resource)
  = (account, if String.eqb region "" then "global" else region).
Proof.
  intros H0 H1 H2 H3 H4. unfold extractFromWebACLID.
  rewrite Split_arn by assumption.
  assert (Hne : String.eqb (arn p0 p1 p2 region account resource) "" = false).
  { apply String.eqb_neq. intros E. apply (f_equal String.length) in E.
    unfold arn in E. rewrite !length_app in E. simpl in E. lia. }
  rewrite Hne. cbn [negb List.length nth].
  pose proof (Split_nonempty resource ":") as Hr.
  destruct (Split resource ":") as [|r rs]; [contradiction |].
  reflexivity.
Qed.

(** With an ARN for the identifier of the web ACL the account and the
    region are those of the ARN, whatever the key of the object gave: the
    account of the key is used only when the ARN has none, and the region
    of the key never, an ARN without region being [global]. *)
Theorem WAFGetResourceAttributes_arn
    (a : Adapter) (p0 p1 p2 region account resource : string) :
  WebACLID (wafEntry _ a) = arn p0 p1 p2 region account resource ->
  noColon p0 -> noColon p1 -> noColon p2 -> noColon region -> noColon account ->
  attributes a =
    (fixedAttributes (WebACLID (wafEntry _ a))
     ++ optionalAttr "cloud.account.id"
          (if String.eqb account "" then wafAccountID _ a else account)
     ++ [attr "cloud.region" (if String.eqb region "" then "global" else region)])%list.
Proof.
  intros Hid H0 H1 H2 H3 H4. rewrite WAFGetResourceAttributes_unfold. cbv zeta.
  rewrite Hid, extract_arn by assumption. cbn [fst snd].
  destruct (String.eqb region "") eqn:Hr; [reflexivity |].
  rewrite Hr. unfold optionalAttr at 2. now rewrite Hr.
Qed.

(** An identifier that is no ARN (fewer than five colons, the empty one
    among them) leaves the account and the region to the key of the
    object, and each of the two attributes is left out when the key gave
    nothing. The adapters of an object, whatever their identifiers, are
    one for each entry in order, and all carry what the key gave; so the
    attributes of an entry without ARN are those of the key of its
    object. *)
Theorem WAFGetResourceAttributes_fallback :
  (forall a : Adapter,
     (Count (WebACLID (wafEntry _ a)) ":" < 5)%nat ->
     attributes a =
       (fixedAttributes (WebACLID (wafEntry _ a))
        ++ optionalAttr "cloud.account.id" (wafAccountID _ a)
        ++ optionalAttr "cloud.region" (wafRegion _ a))%list)
  /\
  (forall (key : string) (wafEntries : list WAFLogEntry),
     map (wafEntry _) (WAFAdapters WAFLogEntry key wafEntries) = wafEntries /\
     forall a : Adapter,
       In a (WAFAdapters WAFLogEntry key wafEntries) ->
       (wafAccountID _ a, wafRegion _ a) = S3Key.ParseRegionAccountFromS3Key key)
  /\
  (forall (key : string) (wafEntries : list WAFLogEntry) (a : Adapter),
     In a (WAFAdapters WAFLogEntry key wafEntries) ->
     (Count (WebACLID (wafEntry _ a)) ":" < 5)%nat ->
     attributes a =
       (fixedAttributes (WebACLID (wafEntry _ a))
        ++ optionalAttr "cloud.account.id" (fst (S3Key.ParseRegionAccountFromS3Key key))
        ++ optionalAttr "cloud.region" (snd (S3Key.ParseRegionAccountFromS3Key key)))%list).
Proof.
  assert (Hshort : forall a : Adapter,
            (Count (WebACLID (wafEntry _ a)) ":" < 5)%nat ->
            attributes a =
              (fixedAttributes (WebACLID (wafEntry _ a))
               ++ optionalAttr "cloud.account.id" (wafAccountID _ a)
               ++ optionalAttr "cloud.region" (wafRegion _ a))%list).
  { intros a Ha. rewrite WAFGetResourceAttributes_unfold. cbv zeta.
    now rewrite extract_short. }
  assert (Hkey : forall key wafEntries (a : Adapter),
            In a (WAFAdapters WAFLogEntry key wafEntries) ->
            (wafAccountID _ a, wafRegion _ a) = S3Key.ParseRegionAccountFromS3Key key).
  { intros key wafEntries a Hin. unfold WAFAdapters in Hin.
    destruct (S3Key.ParseRegionAccountFromS3Key key) as [acct reg].
    apply in_map_iff in Hin as (e & <- & _). reflexivity. }
  split; [exact Hshort |]. split.
  - intros key wafEntries. split; [| apply Hkey].
    unfold WAFAdapters. destruct (S3Key.ParseRegionAccountFromS3Key key) as [acct reg].
    rewrite List.map_map. cbn [wafEntry]. apply map_id.
  - intros key wafEntries a Hin Ha. rewrite (Hshort a Ha).
    now rewrite <- (Hkey key wafEntries a Hin).
Qed.

(** Whatever the adapter, the attributes start with the four of every
    WAF resource, there are four to six of them, no key comes twice, and
    an account or a region attribute never holds the empty string. *)
Theorem WAFGetResourceAttributes_shape (a : Adapter) :
  let attrs := attributes a in
  (exists rest, attrs = (fixedAttributes (WebACLID (wafEntry _ a)) ++ rest)%list) /\
  (4 <= List.length attrs <= 6)%nat /\
  NoDup (map Key attrs) /\
  (forall x, In x attrs ->
     Key x = "cloud.account.id" \/ Key x = "cloud.region" ->
     exists v, v <> "" /\ x = attr (Key x) v).
Proof.
  cbv zeta. rewrite WAFGetResourceAttributes_unfold. cbv zeta.
  set (acct := if String.eqb (fst _) "" then _ else _).
  set (reg := if String.eqb (snd _) "" then _ else _).
  unfold optionalAttr, fixedAttributes.
  destruct (String.eqb_spec acct "") as [Ea | Ea];
    destruct (String.eqb_spec reg "") as [Er | Er]; cbn [app List.length map Key stringAttr].
  all: split; [eexists; reflexivity |].
  all: split; [lia |].
  all: split; [apply (bool_decide_unpack _); vm_compute; reflexivity |].
  all: intros x Hin Hk; cbn [In] in Hin;
    repeat destruct Hin as [<- | Hin]; try contradiction;
    cbn [Key stringAttr] in Hk |- *; try (destruct Hk; discriminate);
    first [ exists acct; split; [assumption | reflexivity]
          | exists reg; split; [assumption | reflexivity] ].
Qed.

End Spec.

(** Adapters over entries that are their own web ACL identifier, with
    strings for attribute values. *)
Definition wafAdapter (id account region : string) : WAFAdapter string :=
  {| wafEntry := id; wafAccountID := account; wafRegion := region |}.

Definition testARN : string :=
  "arn:aws:wafv2:ap-south-1:123456789012:regional/webacl/TEST-WEBACL/11111111-2222-3333-4444-555555555555".

(** The ARN of the adapter test, with a key that names another account
    and region: those of the ARN are kept. *)
Lemma WAFGetResourceAttributes_arn_witness :
  WAFGetResourceAttributes string id string id (wafAdapter testARN "999999999999" "us-east-1")
  = [stringAttr string id "cloud.provider" "aws";
     stringAttr string id "cloud.platform" "aws_waf";
     stringAttr string id "cloud.service" "waf";
     stringAttr string id "aws.waf.web_acl_id" testARN;
     stringAttr string id "cloud.account.id" "123456789012";
     stringAttr string id "cloud.region" "ap-south-1"].
Proof.
  apply (WAFGetResourceAttributes_arn string id string id
           (wafAdapter testARN "999999999999" "us-east-1")
           "arn" "aws" "wafv2" "ap-south-1" "123456789012"
           "regional/webacl/TEST-WEBACL/11111111-2222-3333-4444-555555555555");
    reflexivity.
Defined.

(** Two entries of an object under the standard key, the first without
    identifier and the second with the ARN of the adapter test: both
    adapters carry the account and the region of the key, and the
    attributes of the first are those of the key. *)
Lemma WAFGetResourceAttributes_fallback_witness :
  map (fun a => (wafAccountID _ a, wafRegion _ a))
      (WAFAdapters string
         "AWSLogs/123456789012/WAFLogs/us-east-1/my-acl/123_waflogs_file.log" [""; testARN])
  = [("123456789012", "us-east-1"); ("123456789012", "us-east-1")]
  /\
  WAFGetResourceAttributes string id string id (wafAdapter "" "123456789012" "us-east-1")
  = [stringAttr string id "cloud.provider" "aws";
     stringAttr string id "cloud.platform" "aws_waf";
     stringAttr string id "cloud.service" "waf";
     stringAttr string id "aws.waf.web_acl_id" "";
     stringAttr string id "cloud.account.id" "123456789012";
     stringAttr string id "cloud.region" "us-east-1"].
Proof.
  pose proof (WAFGetResourceAttributes_fallback string id string id)
    as (Hshort & Hobject & _).
  split.
  - destruct (Hobject "AWSLogs/123456789012/WAFLogs/us-east-1/my-acl/123_waflogs_file.log"
                [""; testARN]) as [_ Hkey].
    assert (E : WAFAdapters string
                  "AWSLogs/123456789012/WAFLogs/us-east-1/my-acl/123_waflogs_file.log"
                  [""; testARN]
                = [wafAdapter "" "123456789012" "us-east-1";
                   wafAdapter testARN "123456789012" "us-east-1"])
      by (vm_compute; reflexivity).
    rewrite E in Hkey |- *. cbn [map].
    rewrite (Hkey _ (or_introl eq_refl)), (Hkey _ (or_intror (or_introl eq_refl))).
    vm_compute. reflexivity.
  - apply (Hshort (wafAdapter "" "123456789012" "us-east-1")). cbn. lia.
Defined.

End WAFAdapterSpec.

(** ** The attributes of an ALB resource *)

Module ALBAdapterSpec.
Import GoStrings Processor.

Section Spec.

Variable OTelAnyValue : Type.
Variable StringValue : string -> OTelAnyValue.
Variable ALBLogEntry : Type.
Variable ExtractResourceAttributes : ALBLogEntry -> list (OTelAttribute OTelAnyValue).

#[local] Abbreviation Attr := (OTelAttribute OTelAnyValue).
#[local] Abbreviation attr := (stringAttr OTelAnyValue StringValue).
#[local] Abbreviation attributes :=
  (ALBGetResourceAttributes OTelAnyValue StringValue ALBLogEntry ExtractResourceAttributes).

(** Some attribute of the list has the key. *)
Definition hasKey (key : string) (attrs : list Attr) : bool :=
  existsb (fun x => String.eqb (Key x) key) attrs.

Lemma scanCloudKeys_from (attrs : list Attr) (hasAccount hasRegion : bool) :
  foldl (fun '(hasAccount, hasRegion) x =>
           (if String.eqb (Key x) "cloud.account.id" then true else hasAccount,
            if String.eqb (Key x) "cloud.region" then true else hasRegion))
        (hasAccount, hasRegion) attrs
  = (hasAccount || hasKey "cloud.account.id" attrs,
     hasRegion || hasKey "cloud.region" attrs).
Proof.
  revert hasAccount hasRegion. induction attrs as [|x attrs IH]; intros ha hr.
  - cbn. now rewrite !orb_false_r.
  - cbn [foldl hasKey existsb]. rewrite IH. unfold hasKey.
    destruct (String.eqb (Key x) "cloud.account.id"),
             (String.eqb (Key x) "cloud.region"), ha, hr; reflexivity.
Qed.

Lemma scanCloudKeys_hasKey (attrs : list Attr) :
  scanCloudKeys OTelAnyValue attrs
  = (hasKey "cloud.account.id" attrs, hasKey "cloud.region" attrs).
Proof. unfold scanCloudKeys. now rewrite scanCloudKeys_from. Qed.

Lemma hasKey_In (key : string) (attrs : list Attr) :
  hasKey key attrs = true <-> In key (map Key attrs).
Proof.
  unfold hasKey. rewrite existsb_exists, in_map_iff. split.
  - intros (x & Hin & Hk). apply String.eqb_eq in Hk. eauto.
  - intros (x & Hk & Hin). exists x. split; [assumption | now apply String.eqb_eq].
Qed.

(** What the key of the object adds for [key]: nothing when the entry
    gave the attribute already or the key of the object gave no value. *)
Definition filled (key value : string) (base : list Attr) : list Attr :=
  if hasKey key base || String.eqb value "" then [] else [attr key value].

Lemma ALBGetResourceAttributes_unfold (a : Lambda.ALBAdapter ALBLogEntry) :
  attributes a =
    let base := ExtractResourceAttributes (Lambda.adapterEntry _ a) in
    (base ++ filled "cloud.account.id" (Lambda.AccountID _ a) base
          ++ filled "cloud.region" (Lambda.Region _ a) base)%list.
Proof.
  unfold ALBGetResourceAttributes, filled. cbv zeta.
  rewrite scanCloudKeys_hasKey.
  destruct (hasKey "cloud.account.id" _), (hasKey "cloud.region" _),
    (String.eqb (Lambda.AccountID _ a) ""), (String.eqb (Lambda.Region _ a) "");
    cbn [negb andb orb]; rewrite ?app_nil_r, <- ?List.app_assoc; reflexivity.
Qed.

(** The attributes of an ALB adapter are those drawn from the entry, in
    their order, followed by at most an account and a region attribute
    taken from the key of the object. An attribute is taken from the key
    only when the entry gave none with that key and the key of the object
    gave a value; so what the entry says is never overridden, keys that
    were distinct stay distinct, and an account or region the key gave is
    always among the attributes of the result. *)
Theorem ALBGetResourceAttributes_fill (a : Lambda.ALBAdapter ALBLogEntry) :
  let base := ExtractResourceAttributes (Lambda.adapterEntry _ a) in
  let account := Lambda.AccountID _ a in
  let region := Lambda.Region _ a in
  (exists added,
     attributes a = (base ++ added)%list /\
     (List.length added <= 2)%nat /\
     forall x, In x added ->
       (x = attr "cloud.account.id" account /\ account <> "" /\
        ~ In "cloud.account.id" (map Key base)) \/
       (x = attr "cloud.region" region /\ region <> "" /\
        ~ In "cloud.region" (map Key base)))
  /\
  (NoDup (map Key base) -> NoDup (map Key (attributes a)))
  /\
  (account <> "" -> In "cloud.account.id" (map Key (attributes a)))
  /\
  (region <> "" -> In "cloud.region" (map Key (attributes a))).
Proof.
  cbv zeta. rewrite ALBGetResourceAttributes_unfold. cbv zeta.
  set (base := ExtractResourceAttributes _).
  set (account := Lambda.AccountID _ a). set (region := Lambda.Region _ a).
  unfold filled.
  destruct (hasKey "cloud.account.id" base) eqn:Ha;
    destruct (hasKey "cloud.region" base) eqn:Hr;
    destruct (String.eqb_spec account "") as [Ea | Ea];
    destruct (String.eqb_spec region "") as [Er | Er];
    cbn [orb app].
  all: try (apply hasKey_In in Ha).
  all: try (apply hasKey_In in Hr).
  all: try (assert (Ha' : ~ In "cloud.account.id" (map Key base))
              by (rewrite <- hasKey_In; congruence)).
  all: try (assert (Hr' : ~ In "cloud.region" (map Key base))
              by (rewrite <- hasKey_In; congruence)).
  all: split;
    [ eexists; split; [reflexivity |]; split; [cbn; lia |];
      intros x Hin; cbn [In] in Hin;
      repeat destruct Hin as [<- | Hin]; try contradiction; tauto |].
  all: rewrite ?app_nil_r.
  all: rewrite ?List.map_app; cbn [map Key stringAttr].
  all: split;
    [ intros Hnd;
      first [ assumption
            | apply NoDup_app; split; [assumption |]; split;
              [ intros k Hk Hk'; apply list_elem_of_In in Hk, Hk'; cbn [In] in Hk';
                repeat destruct Hk' as [<- | Hk']; contradiction
              | apply (bool_decide_unpack _); vm_compute; reflexivity ] ] |].
  all: split; intros Hne; rewrite ?in_app_iff; cbn [In]; tauto.
Qed.

End Spec.

End ALBAdapterSpec.

(** ** What the S3 key helper returns *)

Module S3KeyResultSpec.
Import GoStrings GoStringsFacts GoStrconv GoRegexp GoRegexpFacts S3Key S3KeySpec.

(** What the helper returns is well formed whatever the key: the account
    is made of digits and the region holds no slash; the two are empty
    together, and they are empty only for a key without the canonical
    segment. *)
Theorem ParseRegionAccountFromS3Key_result (key : string) :
  let account := fst (ParseRegionAccountFromS3Key key) in
  let region := snd (ParseRegionAccountFromS3Key key) in
  allIn isDigit account = true /\
  allIn notSlash region = true /\
  (account = "" <-> region = "") /\
  (account = "" -> noSegment key).
Proof.
  cbv zeta. unfold ParseRegionAccountFromS3Key.
  destruct (FindStringSubmatch awsLogsKeyPattern key) as [m|] eqn:E.
  - apply Find_some in E as (w & pre & s & a & v & r & p & -> & -> & Hseg).
    destruct Hseg as (_ & Ha & Hda & _ & _ & Hr & Hdr). cbn.
    repeat split; try assumption; intros; congruence.
  - apply Find_none_inv in E. cbn. repeat split; try reflexivity. intros _. exact E.
Qed.

End S3KeyResultSpec.

(** ** Grouping keeps every record *)

Module GroupingConservation.
Import Lambda.

Section Spec.

Variable ALBLogEntry : Type.
Variable TargetGroupARN : ALBLogEntry -> string.
Variable ChosenCertARN : ALBLogEntry -> string.
Variable OTelAttribute : Type.
Variable OTelLogRecord : Type.
Variable ExtractResourceAttributes : ALBLogEntry -> list OTelAttribute.
Variable ConvertToOTel : ALBLogEntry -> OTelLogRecord.

#[local] Abbreviation key := (getResourceKey ALBLogEntry TargetGroupARN ChosenCertARN).
#[local] Abbreviation Group := (resourceGroup OTelAttribute OTelLogRecord).
#[local] Abbreviation group :=
  (groupEntries ALBLogEntry TargetGroupARN ChosenCertARN OTelAttribute OTelLogRecord
     ExtractResourceAttributes ConvertToOTel).
#[local] Abbreviation step :=
  (groupStep ALBLogEntry TargetGroupARN ChosenCertARN OTelAttribute OTelLogRecord
     ExtractResourceAttributes ConvertToOTel).

(** The records of the groups, one group after the other. *)
Definition allRecords (groups : list (string * Group)) : list OTelLogRecord :=
  concat (map (fun kg => LogRecords _ _ (snd kg)) groups).

Lemma allRecords_perm (g1 g2 : list (string * Group)) :
  g1 ≡ₚ g2 -> allRecords g1 ≡ₚ allRecords g2.
Proof.
  intros H. unfold allRecords. induction H; cbn [map concat].
  - reflexivity.
  - now rewrite IHPermutation.
  - rewrite !List.app_assoc. apply Permutation_app_tail, Permutation_app_comm.
  - etransitivity; eassumption.
Qed.

(** One iteration of the grouping loop adds the record of the entry and
    nothing else. *)
Lemma step_records (m : gmap string Group) (e : ALBLogEntry) :
  allRecords (map_to_list (step m e))
  ≡ₚ (allRecords (map_to_list m) ++ [ConvertToOTel e])%list.
Proof.
  unfold groupStep. destruct (m !! key e) as [g|] eqn:Hg.
  - rewrite Hg. rewrite <- insert_delete_eq.
    rewrite (allRecords_perm _ _
               (map_to_list_insert (delete (key e) m) (key e) _ (lookup_delete_eq m (key e)))).
    rewrite <- (allRecords_perm _ _ (map_to_list_delete m (key e) g Hg)).
    unfold allRecords. cbn [map concat snd LogRecords].
    rewrite <- !List.app_assoc.
    apply Permutation_app_head, Permutation_app_comm.
  - rewrite lookup_insert_eq, insert_insert_eq.
    rewrite (allRecords_perm _ _ (map_to_list_insert _ _ _ Hg)).
    unfold allRecords. cbn [map concat snd LogRecords app].
    apply Permutation_cons_append.
Qed.

Lemma group_records (entries : list ALBLogEntry) :
  allRecords (map_to_list (group entries)) ≡ₚ map ConvertToOTel entries.
Proof.
  induction entries as [|e entries IH] using rev_ind.
  - unfold groupEntries. cbn. rewrite map_to_list_empty. reflexivity.
  - rewrite GroupingSpec.group_snoc, step_records, IH, List.map_app. reflexivity.
Qed.

Lemma group_nonempty (entries : list ALBLogEntry) (k : string) (g : Group) :
  group entries !! k = Some g ->
  LogRecords _ _ g <> [] /\ exists e, In e entries /\ key e = k.
Proof.
  rewrite GroupingSpec.group_lookup. unfold GroupingSpec.groupOf.
  destruct (GroupingSpec.entriesOf _ _ _ k entries) as [|first rest] eqn:E; [discriminate |].
  intros [= <-]. cbn [LogRecords map]. split; [discriminate |].
  exists first.
  assert (Hin : In first (GroupingSpec.entriesOf _ TargetGroupARN ChosenCertARN k entries))
    by (rewrite E; now left).
  unfold GroupingSpec.entriesOf in Hin. apply List.filter_In in Hin as [Hin Hk].
  split; [assumption | now apply String.eqb_eq].
Qed.

Lemma length_allRecords (groups : list (string * Group)) :
  Forall (fun kg => LogRecords _ _ (snd kg) <> []) groups ->
  (List.length groups <= List.length (allRecords groups))%nat.
Proof.
  unfold allRecords. induction 1 as [|[k g] groups Hg _ IH]; cbn [map concat List.length snd].
  - lia.
  - rewrite length_app. cbn [snd] in Hg.
    destruct (LogRecords _ _ g); [contradiction | cbn [List.length]; lia].
Qed.

(** The records of a payload, resource log after resource log. *)
Definition payloadRecords (p : OTLPPayload OTelAttribute OTelLogRecord)
  : list OTelLogRecord :=
  concat (map (fun rl => concat (map (ScopeLogRecords _) (ScopeLogs _ _ rl)))
              (ResourceLogs _ _ p)).

Lemma buildOTLP_from (groups : list (string * Group))
    (logs : list (ResourceLog OTelAttribute OTelLogRecord)) :
  foldl (fun logs kg =>
           (logs ++
            [ {| ResourceAttributes := ResourceAttrs _ _ (snd kg);
                 ScopeLogs :=
                   [ {| ScopeOf := {| ScopeName := "alb-log-parser";
                                      ScopeVersion := "1.0.0" |};
                        ScopeLogRecords := LogRecords _ _ (snd kg) |} ] |} ])%list)
        logs groups
  = (logs ++ map (fun kg =>
                    {| ResourceAttributes := ResourceAttrs _ _ (snd kg);
                       ScopeLogs :=
                         [ {| ScopeOf := {| ScopeName := "alb-log-parser";
                                            ScopeVersion := "1.0.0" |};
                              ScopeLogRecords := LogRecords _ _ (snd kg) |} ] |}) groups)%list.
Proof.
  revert logs. induction groups as [|kg groups IH]; intros logs; cbn [foldl map].
  - now rewrite app_nil_r.
  - rewrite IH, <- List.app_assoc. reflexivity.
Qed.

Lemma group_covers (entries : list ALBLogEntry) (e : ALBLogEntry) :
  In e entries -> exists g, group entries !! key e = Some g.
Proof.
  intros Hin. destruct (group entries !! key e) as [g|] eqn:Hg; [now exists g |].
  rewrite GroupingSpec.group_lookup in Hg. unfold GroupingSpec.groupOf in Hg.
  destruct (GroupingSpec.entriesOf _ _ _ (key e) entries) eqn:E; [| discriminate].
  assert (Hin' : In e (GroupingSpec.entriesOf _ TargetGroupARN ChosenCertARN (key e) entries)).
  { unfold GroupingSpec.entriesOf. apply List.filter_In.
    split; [assumption | apply String.eqb_refl]. }
  rewrite E in Hin'. contradiction.
Qed.

(** Grouping loses no record and makes none twice: the records of the
    groups, taken in whatever order the map is iterated, are the records
    of the entries up to their order. No group is empty, every group has
    the key of some entry and no key has two groups, so there are at most
    as many groups as entries. *)
Theorem groupEntries_conserves
    (entries : list ALBLogEntry) (groups : list (string * Group)) :
  groups ≡ₚ map_to_list (group entries) ->
  allRecords groups ≡ₚ map ConvertToOTel entries /\
  List.length (allRecords groups) = List.length entries /\
  (forall k g, In (k, g) groups ->
     LogRecords _ _ g <> [] /\ exists e, In e entries /\ key e = k) /\
  (forall e, In e entries -> exists g, In (key e, g) groups) /\
  NoDup (map fst groups) /\
  (List.length groups <= List.length entries)%nat.
Proof.
  intros Hperm.
  assert (Hrec : allRecords groups ≡ₚ map ConvertToOTel entries)
    by (rewrite (allRecords_perm _ _ Hperm); apply group_records).
  assert (Hlen : List.length (allRecords groups) = List.length entries)
    by (rewrite Hrec; apply length_map).
  assert (Hgroups : forall k g, In (k, g) groups ->
            LogRecords _ _ g <> [] /\ exists e, In e entries /\ key e = k).
  { intros k g Hin. apply (Permutation_in _ Hperm) in Hin.
    apply list_elem_of_In, elem_of_map_to_list in Hin. now apply group_nonempty. }
  split; [assumption |]. split; [assumption |]. split; [assumption |]. split; [| split].
  - intros e Hin. destruct (group_covers entries e Hin) as [g Hg].
    exists g. apply (Permutation_in _ (Permutation_sym Hperm)).
    now apply list_elem_of_In, elem_of_map_to_list.
  - rewrite Hperm. apply NoDup_fst_map_to_list.
  - rewrite <- Hlen. apply length_allRecords, Forall_forall.
    intros [k g] Hin. apply list_elem_of_In in Hin. now apply Hgroups in Hin.
Qed.

(** The payload of the command line converter has one resource log for
    each group, each with the attributes of its group and one scope log
    of the scope [alb-log-parser] [1.0.0]; its records are the records of
    the entries up to their order, none lost and none twice. *)
Theorem buildOTLP_conserves
    (entries : list ALBLogEntry) (groups : list (string * Group)) :
  groups ≡ₚ map_to_list (group entries) ->
  let payload := ConvertOTel.buildOTLP OTelAttribute OTelLogRecord groups in
  payloadRecords payload ≡ₚ map ConvertToOTel entries /\
  map (ResourceAttributes _ _) (ResourceLogs _ _ payload)
    = map (fun kg => ResourceAttrs _ _ (snd kg)) groups /\
  Forall (fun rl =>
            map (ScopeOf _) (ScopeLogs _ _ rl)
            = [ {| ScopeName := "alb-log-parser"; ScopeVersion := "1.0.0" |} ])
         (ResourceLogs _ _ payload).
Proof.
  intros Hperm payload. subst payload. unfold ConvertOTel.buildOTLP, payloadRecords.
  cbn [ResourceLogs]. rewrite buildOTLP_from. cbn [app].
  rewrite !List.map_map. cbn [ScopeLogs ResourceAttributes map concat ScopeLogRecords].
  split; [| split].
  - rewrite <- (group_records entries), <- (allRecords_perm _ _ Hperm).
    unfold allRecords.
    replace (map (fun kg : string * Group => (LogRecords _ _ (snd kg) ++ [])%list) groups)
      with (map (fun kg : string * Group => LogRecords _ _ (snd kg)) groups);
      [reflexivity |].
    apply map_ext. intros kg. now rewrite app_nil_r.
  - reflexivity.
  - apply Forall_forall. intros rl Hin. apply list_elem_of_In, in_map_iff in Hin as (kg & <- & _).
    reflexivity.
Qed.

End Spec.

(** Three entries of two target groups. *)
Definition threeEntries : list (string * string) :=
  [("tg1", "a"); ("tg2", "b"); ("tg1", "c")].

Lemma groupEntries_conserves_witness :
  allRecords string string
    (map_to_list (groupEntries (string * string) fst snd string string
                    (fun e => [snd e]) snd threeEntries))
  ≡ₚ ["a"; "b"; "c"].
Proof.
  exact (proj1 (groupEntries_conserves (string * string) fst snd string string
                  (fun e => [snd e]) snd threeEntries _ (Permutation_refl _))).
Defined.

Lemma buildOTLP_conserves_witness :
  payloadRecords string string
    (ConvertOTel.buildOTLP string string
       (map_to_list (groupEntries (string * string) fst snd string string
                       (fun e => [snd e]) snd threeEntries)))
  ≡ₚ ["a"; "b"; "c"].
Proof.
  exact (proj1 (buildOTLP_conserves (string * string) fst snd string string
                  (fun e => [snd e]) snd threeEntries _ (Permutation_refl _))).
Defined.

End GroupingConservation.

(** ** A batch size of zero *)

Module ZeroBatchSpec.
Import Lambda.

Section Spec.

Variable ALBLogEntry : Type.
Variable TargetGroupARN : ALBLogEntry -> string.
Variable ChosenCertARN : ALBLogEntry -> string.
Variable OTelAttribute : Type.
Variable OTelLogRecord : Type.
Variable ExtractResourceAttributes : ALBLogEntry -> list OTelAttribute.
Variable ConvertToOTel : ALBLogEntry -> OTelLogRecord.
Variable SendError : Type.

#[local] Abbreviation Group := (resourceGroup OTelAttribute OTelLogRecord).
#[local] Abbreviation group :=
  (groupEntries ALBLogEntry TargetGroupARN ChosenCertARN OTelAttribute OTelLogRecord
     ExtractResourceAttributes ConvertToOTel).
#[local] Abbreviation loop := (batchLoop OTelAttribute OTelLogRecord SendError).
#[local] Abbreviation sendAll := (sendGroups OTelAttribute OTelLogRecord SendError).

(** With a batch size of 0 the loop does not advance: as long as no poll
    finds a failed send it has not ended after any number of iterations,
    and what it dispatches are empty batches. *)
Lemma batchLoop_zero (poll : nat -> option SendError) (g : Group) (i : nat) :
  (i < List.length (LogRecords _ _ g))%nat ->
  forall fuel k bc,
    match loop fuel poll k g 0 i bc with
    | None => True
    | Some (ds, out, k') =>
        (exists err, out = ReturnedEarly err /\ poll (k + List.length ds)%nat = Some err) /\
        Forall (fun d => dBatchSize _ _ d = 0%nat) ds
    end.
Proof.
  intros Hi fuel. induction fuel as [|fuel IH]; intros k bc; [exact I |].
  cbn [batchLoop]. destruct (Nat.ltb_spec i (List.length (LogRecords _ _ g))); [| lia].
  destruct (poll k) as [err|] eqn:Hp.
  - split; [| constructor]. exists err. cbn [List.length]. now rewrite Nat.add_0_r.
  - rewrite Nat.add_0_r. specialize (IH (S k) (S bc)).
    destruct (loop fuel poll (S k) g 0 i (S bc)) as [[[ds out] k']|]; [| exact I].
    destruct IH as [(err & -> & Herr) Hds]. split.
    + exists err. split; [reflexivity |]. cbn [List.length].
      now replace (k + S (List.length ds))%nat with (S k + List.length ds)%nat by lia.
    + constructor; [| assumption]. cbn [dBatchSize].
      destruct (Nat.ltb_spec (List.length (LogRecords _ _ g)) i); [lia |].
      unfold slice. now rewrite Nat.sub_diag.
Qed.

(** [maxBatchSize = 0] (as [MAX_BATCH_SIZE=0] gives) makes the batching
    of [convertAndSend] run for ever on any entries: the loop never
    completes, within any number of iterations; the only way out is a
    poll that finds a failed send, and every batch handed to a sender is
    empty. *)
Theorem convertAndSend_zero_batch_size
    (entries : list ALBLogEntry) (groups : list (string * Group))
    (poll : nat -> option SendError) (fuel k : nat) :
  entries <> [] ->
  groups ≡ₚ map_to_list (group entries) ->
  ((forall j, poll j = None) ->
   sendGroups OTelAttribute OTelLogRecord SendError fuel poll k groups 0 = None) /\
  (forall ds out,
     sendGroups OTelAttribute OTelLogRecord SendError fuel poll k groups 0
       = Some (ds, out) ->
     (exists err, out = ReturnedEarly err) /\
     Forall (fun d => dBatchSize _ _ d = 0%nat) ds).
Proof.
  intros Hne Hperm.
  destruct groups as [|[key g] groups].
  { destruct entries as [|e entries]; [contradiction |].
    destruct (GroupingConservation.group_covers _ TargetGroupARN ChosenCertARN
                _ _ ExtractResourceAttributes ConvertToOTel (e :: entries) e)
      as [g Hg]; [now left |].
    apply elem_of_map_to_list, list_elem_of_In in Hg.
    apply (Permutation_in _ (Permutation_sym Hperm)) in Hg. destruct Hg. }
  assert (Hg : (0 < List.length (LogRecords _ _ g))%nat).
  { assert (Hin : In (key, g) (map_to_list (group entries)))
      by (apply (Permutation_in _ Hperm); now left).
    apply list_elem_of_In, elem_of_map_to_list in Hin.
    destruct (GroupingConservation.group_nonempty _ TargetGroupARN ChosenCertARN
                _ _ ExtractResourceAttributes ConvertToOTel entries key g Hin) as [Hrec _].
    destruct (LogRecords _ _ g); [contradiction | cbn; lia]. }
  cbn [sendGroups]. pose proof (batchLoop_zero poll g 0 Hg fuel k 0) as H.
  destruct (loop fuel poll k g 0 0 0) as [[[ds out] k']|].
  - destruct H as [(err & -> & Herr) Hds]. split.
    + intros Hnone. now rewrite Hnone in Herr.
    + intros ds' out' [= <- <-]. split; [now exists err | assumption].
  - split; [reflexivity | discriminate].
Qed.

End Spec.

Lemma convertAndSend_zero_batch_size_witness :
  sendGroups string string unit 1000 (fun _ => None) 0
    (map_to_list (groupEntries (string * string) fst snd string string
                    (fun e => [snd e]) snd [("tg1", "a")])) 0
  = None.
Proof.
  apply (proj1 (convertAndSend_zero_batch_size (string * string) fst snd string string
                  (fun e => [snd e]) snd unit [("tg1", "a")] _ (fun _ => None) 1000 0
                  ltac:(discriminate) (Permutation_refl _))).
  reflexivity.
Defined.

End ZeroBatchSpec.

(** ** The time spent waiting between attempts *)

Module RetryPauseSpec.
Import Retry RetrySpec.

(** The time spent in [time.Sleep], in nanoseconds. *)
Fixpoint totalPause (evs : list event) : Z :=
  match evs with
  | [] => 0%Z
  | Slept d :: evs' => (d + totalPause evs')%Z
  | Attempted _ _ :: evs' => totalPause evs'
  end.

Lemma totalPause_app (a b : list event) :
  totalPause (a ++ b) = (totalPause a + totalPause b)%Z.
Proof.
  induction a as [|[d | n r] a IH]; cbn [app totalPause]; lia.
Qed.

Section Spec.

Variable maxRetries : Z.
Variable transport : Z -> attemptResult.

Lemma totalPause_retries (a n : nat) :
  (1 <= a)%nat -> (a + n <= 35)%nat ->
  totalPause (flat_map (retryEvents transport) (seq a n))
  = ((2 ^ Z.of_nat (a + n - 1) - 2 ^ Z.of_nat (a - 1)) * Second)%Z.
Proof.
  revert a. induction n as [|n IH]; intros a Ha Hn.
  - cbn. rewrite Nat.add_0_r. lia.
  - cbn [seq flat_map]. rewrite totalPause_app, IH by lia.
    unfold retryEvents. cbn [totalPause].
    rewrite backoff_exact by lia. unfold retryBaseSec.
    replace (Z.of_nat (S a + n - 1)) with (Z.of_nat (a + S n - 1)) by lia.
    replace (Z.of_nat (S a - 1)) with (Z.of_nat a - 1 + 1)%Z by lia.
    replace (Z.of_nat (a - 1)) with (Z.of_nat a - 1)%Z by lia.
    rewrite Z.pow_add_r by lia. lia.
Qed.

Lemma totalPause_scheduleUpTo (k : nat) :
  (k <= 34)%nat ->
  totalPause (scheduleUpTo transport k) = ((2 ^ Z.of_nat k - 1) * Second)%Z.
Proof.
  intros Hk. unfold scheduleUpTo. cbn [totalPause].
  rewrite totalPause_retries by lia.
  replace (Z.of_nat (1 + k - 1)) with (Z.of_nat k) by lia.
  reflexivity.
Qed.

(** The time a call spends waiting. With [0 <= maxRetries <= 34] a call
    that succeeds at attempt [k] has slept [2^k - 1] seconds in all, and
    a call that fails [2^maxRetries - 1] seconds, 7 seconds for the
    default of 3 retries; nothing else makes the call wait. With a
    negative [maxRetries] no request is made at all and the call fails at
    once, with an error that has no cause. *)
Theorem sendWithRetry_total_pause (body : string) (fuel : nat) :
  ((0 <= maxRetries <= 34)%Z ->
   (Z.to_nat maxRetries + 1 < fuel)%nat ->
   exists res evs,
     sendWithRetry maxRetries transport fuel (inl body) = Some (res, evs) /\
     (0 <= totalPause evs <= (2 ^ maxRetries - 1) * Second)%Z /\
     (res = Sent ->
      exists k : nat,
        succeeds (transport (Z.of_nat k)) = true /\
        attempts evs = (Z.of_nat k + 1)%Z /\
        totalPause evs = ((2 ^ Z.of_nat k - 1) * Second)%Z) /\
     (res <> Sent ->
      res = FailedAfter (maxRetries + 1) (Some (transport maxRetries)) /\
      totalPause evs = ((2 ^ maxRetries - 1) * Second)%Z))
  /\
  ((- 2 ^ 63 <= maxRetries < 0)%Z ->
   (1 <= fuel)%nat ->
   sendWithRetry maxRetries transport fuel (inl body)
   = Some (FailedAfter (maxRetries + 1) None, [])).
Proof.
  split.
  - intros Hmax Hfuel. cbn [sendWithRetry].
    destruct (retryLoop_run maxRetries transport (S (Z.to_nat maxRetries)) fuel 0 None
                ltac:(lia) ltac:(lia) ltac:(lia) ltac:(lia))
      as [(k & Hk & Hs & _ & Hrun) | (_ & Hrun)].
    + rewrite Hrun, scheduleFrom_0. eexists _, _. split; [reflexivity |].
      rewrite totalPause_scheduleUpTo by lia.
      assert (Hpow : (1 <= 2 ^ Z.of_nat k <= 2 ^ maxRetries)%Z).
      { split; [apply Z.lt_pred_le, Z.pow_pos_nonneg; lia |].
        apply Z.pow_le_mono_r; lia. }
      unfold Second. split; [nia |]. split.
      * intros _. exists k. rewrite Z.add_0_l in Hs.
        split; [assumption |]. split; [apply attempts_scheduleUpTo | reflexivity].
      * intros Hne. now contradiction Hne.
    + rewrite Hrun, scheduleFrom_0. eexists _, _. split; [reflexivity |].
      rewrite totalPause_scheduleUpTo by lia.
      rewrite Z2Nat.id by lia.
      assert (Hpow : (1 <= 2 ^ maxRetries)%Z)
        by (apply Z.lt_pred_le, Z.pow_pos_nonneg; lia).
      unfold Second. split; [nia |]. split; [discriminate |].
      intros _. split; reflexivity.
  - intros Hneg Hfuel. destruct fuel as [|fuel]; [lia |].
    cbn [sendWithRetry retryLoop].
    destruct (Z.leb_spec 0 maxRetries); [lia |].
    rewrite wrap64_small by lia. reflexivity.
Qed.

End Spec.

Lemma sendWithRetry_total_pause_witness :
  (exists res evs,
     sendWithRetry 3 alwaysDown 10 (inl "{}") = Some (res, evs) /\
     totalPause evs = 7000000000%Z)
  /\
  sendWithRetry (-1) upAtFourth 10 (inl "{}") = Some (FailedAfter 0 None, []).
Proof.
  split.
  - destruct (proj1 (sendWithRetry_total_pause 3 alwaysDown "{}" 10)
                ltac:(lia) ltac:(simpl; lia))
      as (res & evs & Hrun & _ & Hsent & Hfail).
    exists res, evs. split; [exact Hrun |].
    destruct res as [| err | n last].
    + destruct (Hsent eq_refl) as (k & Hk & _). discriminate Hk.
    + destruct (Hfail ltac:(discriminate)) as [Hres _]. discriminate Hres.
    + destruct (Hfail ltac:(discriminate)) as [_ Hp]. exact Hp.
  - apply (proj2 (sendWithRetry_total_pause (-1) upAtFourth "{}" 10)); lia.
Defined.

End RetryPauseSpec.

(** ** White space around a line *)

Module TrimSpaceFacts.
Import GoStrings GoStringsFacts.

(** The string starts with a white-space rune. *)
Definition startsSpace (s : string) : bool :=
  match s with
  | EmptyString => false
  | String b1 r1 =>
      asciiSpace b1 ||
      match r1 with
      | EmptyString => false
      | String b2 r2 =>
          space2 b1 b2 ||
          match r2 with
          | EmptyString => false
          | String b3 _ => space3 b1 b2 b3
          end
      end
  end.

(** The reversed string starts with a reversed white-space rune. *)
Definition startsSpaceRev (s : string) : bool :=
  match s with
  | EmptyString => false
  | String b1 r1 =>
      asciiSpace b1 ||
      match r1 with
      | EmptyString => false
      | String b2 r2 =>
          space2 b2 b1 ||
          match r2 with
          | EmptyString => false
          | String b3 _ => space3 b3 b2 b1
          end
      end
  end.

Lemma trimLeft_id (s : string) : startsSpace s = false -> trimLeft s = s.
Proof.
  destruct s as [|b1 [|b2 [|b3 r3]]]; cbn [startsSpace trimLeft]; try reflexivity.
  - now intros ->%orb_false_elim%proj1.
  - intros [-> [-> _]%orb_false_elim]%orb_false_elim. reflexivity.
  - intros [-> [-> ->]%orb_false_elim]%orb_false_elim. reflexivity.
Qed.

Lemma trimLeftRev_id (s : string) : startsSpaceRev s = false -> trimLeftRev s = s.
Proof.
  destruct s as [|b1 [|b2 [|b3 r3]]]; cbn [startsSpaceRev trimLeftRev]; try reflexivity.
  - now intros ->%orb_false_elim%proj1.
  - intros [-> [-> _]%orb_false_elim]%orb_false_elim. reflexivity.
  - intros [-> [-> ->]%orb_false_elim]%orb_false_elim. reflexivity.
Qed.

Lemma trimLeft_startsSpace (s : string) : startsSpace (trimLeft s) = false.
Proof.
  remember (String.length s) as n eqn:Hn.
  revert s Hn. induction n as [n IH] using lt_wf_ind. intros s Hn.
  destruct s as [|b1 r1]; [reflexivity |].
  cbn [trimLeft]. destruct (asciiSpace b1) eqn:E1.
  { apply (IH (String.length r1)); [simpl in Hn; lia | reflexivity]. }
  destruct r1 as [|b2 r2]; [cbn; now rewrite E1 |].
  destruct (space2 b1 b2) eqn:E2.
  { apply (IH (String.length r2)); [simpl in Hn; lia | reflexivity]. }
  destruct r2 as [|b3 r3]; [cbn; now rewrite E1, E2 |].
  destruct (space3 b1 b2 b3) eqn:E3.
  { apply (IH (String.length r3)); [simpl in Hn; lia | reflexivity]. }
  cbn. now rewrite E1, E2, E3.
Qed.

Lemma trimLeftRev_startsSpaceRev (s : string) : startsSpaceRev (trimLeftRev s) = false.
Proof.
  remember (String.length s) as n eqn:Hn.
  revert s Hn. induction n as [n IH] using lt_wf_ind. intros s Hn.
  destruct s as [|b1 r1]; [reflexivity |].
  cbn [trimLeftRev]. destruct (asciiSpace b1) eqn:E1.
  { apply (IH (String.length r1)); [simpl in Hn; lia | reflexivity]. }
  destruct r1 as [|b2 r2]; [cbn; now rewrite E1 |].
  destruct (space2 b2 b1) eqn:E2.
  { apply (IH (String.length r2)); [simpl in Hn; lia | reflexivity]. }
  destruct r2 as [|b3 r3]; [cbn; now rewrite E1, E2 |].
  destruct (space3 b3 b2 b1) eqn:E3.
  { apply (IH (String.length r3)); [simpl in Hn; lia | reflexivity]. }
  cbn. now rewrite E1, E2, E3.
Qed.

(** A string that starts with white space still does with more text
    after it. *)
Lemma startsSpace_app (p q : string) :
  startsSpace p = true -> startsSpace (p +:+ q) = true.
Proof.
  destruct p as [|b1 [|b2 [|b3 r3]]]; cbn [startsSpace String.append]; try discriminate.
  - rewrite orb_false_r. intros ->. reflexivity.
  - rewrite orb_false_r. intros [-> | ->]%orb_true_iff; [reflexivity |].
    destruct q; cbn; now rewrite orb_true_r.
  - intros H. exact H.
Qed.

Lemma str_rev_snoc (s : string) (c : ascii) : str_rev (snoc s c) = String c (str_rev s).
Proof.
  induction s as [|d s IH]; [reflexivity |].
  unfold snoc in *. cbn [String.append str_rev]. now rewrite IH.
Qed.

Lemma str_rev_involutive (s : string) : str_rev (str_rev s) = s.
Proof.
  induction s as [|c s IH]; [reflexivity |].
  cbn [str_rev]. now rewrite str_rev_snoc, IH.
Qed.

Lemma str_rev_app (a b : string) : str_rev (a +:+ b) = str_rev b +:+ str_rev a.
Proof.
  induction a as [|c a IH]; cbn [String.append str_rev].
  - now rewrite app_empty_r.
  - rewrite IH. unfold snoc. now rewrite app_assoc.
Qed.

(** Trimming on the right leaves a prefix. *)
Lemma trimRight_prefix (s : string) : exists q, s = trimRight s +:+ q.
Proof.
  unfold trimRight. destruct (trimLeftRev_suffix (str_rev s)) as [p Hp].
  exists (str_rev p). rewrite <- str_rev_app, <- Hp. now rewrite str_rev_involutive.
Qed.

Lemma trimRight_idempotent (s : string) : trimRight (trimRight s) = trimRight s.
Proof.
  unfold trimRight. rewrite str_rev_involutive.
  now rewrite (trimLeftRev_id _ (trimLeftRev_startsSpaceRev _)).
Qed.

(** [TrimSpace] leaves nothing to trim. *)
Lemma TrimSpace_idempotent (s : string) : TrimSpace (TrimSpace s) = TrimSpace s.
Proof.
  unfold TrimSpace.
  assert (H : startsSpace (trimRight (trimLeft s)) = false).
  { destruct (startsSpace (trimRight (trimLeft s))) eqn:E; [| reflexivity].
    destruct (trimRight_prefix (trimLeft s)) as [q Hq].
    apply (startsSpace_app _ q) in E. rewrite <- Hq in E.
    now rewrite trimLeft_startsSpace in E. }
  rewrite (trimLeft_id _ H). apply trimRight_idempotent.
Qed.

(** A text made of tabs, newlines, carriage returns and other ASCII
    white space. *)
Fixpoint blank (w : string) : bool :=
  match w with
  | EmptyString => true
  | String c r => asciiSpace c && blank r
  end.

Ltac bool_hyps :=
  repeat match goal with
         | H : _ || _ = true |- _ => apply orb_true_iff in H as [H | H]
         | H : _ && _ = true |- _ =>
             let H' := fresh H in apply andb_true_iff in H as [H' H]
         | H : Nat.eqb _ _ = true |- _ => apply Nat.eqb_eq in H
         | H : Nat.leb _ _ = true |- _ => apply Nat.leb_le in H
         end.

(** ASCII white space is below 128; the bytes of the other white-space
    runes are all above. *)
Lemma asciiSpace_low (c : ascii) : asciiSpace c = true -> (nat_of_ascii c <= 32)%nat.
Proof. unfold asciiSpace. cbv zeta. intros H. bool_hyps; lia. Qed.

Lemma space2_high (b1 b2 : ascii) :
  space2 b1 b2 = true -> (128 <= nat_of_ascii b1)%nat /\ (128 <= nat_of_ascii b2)%nat.
Proof. unfold space2. intros H. bool_hyps; lia. Qed.

Lemma space3_high (b1 b2 b3 : ascii) :
  space3 b1 b2 b3 = true ->
  (128 <= nat_of_ascii b1)%nat /\ (128 <= nat_of_ascii b2)%nat /\
  (128 <= nat_of_ascii b3)%nat.
Proof. unfold space3. cbv zeta. intros H. bool_hyps; lia. Qed.

Lemma asciiSpace_not_space2 (b c : ascii) : asciiSpace c = true -> space2 b c = false.
Proof.
  intros H%asciiSpace_low. destruct (space2 b c) eqn:E; [| reflexivity].
  apply space2_high in E. lia.
Qed.

Lemma asciiSpace_not_space3_mid (a c d : ascii) :
  asciiSpace c = true -> space3 a c d = false.
Proof.
  intros H%asciiSpace_low. destruct (space3 a c d) eqn:E; [| reflexivity].
  apply space3_high in E. lia.
Qed.

Lemma asciiSpace_not_space3_last (a b c : ascii) :
  asciiSpace c = true -> space3 a b c = false.
Proof.
  intros H%asciiSpace_low. destruct (space3 a b c) eqn:E; [| reflexivity].
  apply space3_high in E. lia.
Qed.

Lemma trimLeft_blank (w x : string) : blank w = true -> trimLeft (w +:+ x) = trimLeft x.
Proof.
  induction w as [|c w IH]; [reflexivity |].
  cbn [blank]. intros [Hc Hw]%andb_true_iff.
  cbn [String.append trimLeft]. rewrite Hc. now apply IH.
Qed.

Lemma trimLeftRev_blank (w x : string) :
  blank w = true -> trimLeftRev (w +:+ x) = trimLeftRev x.
Proof.
  induction w as [|c w IH]; [reflexivity |].
  cbn [blank]. intros [Hc Hw]%andb_true_iff.
  cbn [String.append trimLeftRev]. rewrite Hc. now apply IH.
Qed.

Lemma blank_app (a b : string) : blank (a +:+ b) = blank a && blank b.
Proof.
  induction a as [|c a IH]; cbn [String.append blank]; [reflexivity |].
  now rewrite IH, andb_assoc.
Qed.

Lemma blank_rev (w : string) : blank (str_rev w) = blank w.
Proof.
  induction w as [|c w IH]; [reflexivity |].
  cbn [str_rev blank]. unfold snoc, str1. rewrite blank_app, IH. cbn [blank].
  rewrite andb_true_r. apply andb_comm.
Qed.

(** White space after a text is out of reach of the trimming on the
    left, unless the text is white space itself. *)
Lemma trimLeft_app_blank (s w : string) :
  blank w = true ->
  trimLeft (s +:+ w) = if String.eqb (trimLeft s) "" then "" else trimLeft s +:+ w.
Proof.
  intros Hw. remember (String.length s) as n eqn:Hn.
  revert s Hn. induction n as [n IH] using lt_wf_ind. intros s Hn.
  destruct s as [|b1 r1].
  { cbn [String.append trimLeft String.eqb].
    rewrite <- (app_empty_r w). now rewrite trimLeft_blank. }
  cbn [String.append trimLeft]. destruct (asciiSpace b1) eqn:E1.
  { apply (IH (String.length r1)); [simpl in Hn; lia | reflexivity]. }
  destruct r1 as [|b2 r2].
  { cbn [String.append String.eqb]. destruct w as [|c w]; [reflexivity |].
    cbn [blank] in Hw. apply andb_true_iff in Hw as [Hc Hw].
    rewrite (asciiSpace_not_space2 b1 c Hc).
    destruct w as [|d w]; [reflexivity |].
    now rewrite (asciiSpace_not_space3_mid b1 c d Hc). }
  cbn [String.append]. destruct (space2 b1 b2) eqn:E2.
  { apply (IH (String.length r2)); [simpl in Hn; lia | reflexivity]. }
  destruct r2 as [|b3 r3].
  { cbn [String.append String.eqb]. destruct w as [|c w]; [reflexivity |].
    cbn [blank] in Hw. apply andb_true_iff in Hw as [Hc Hw].
    now rewrite (asciiSpace_not_space3_last b1 b2 c Hc). }
  cbn [String.append]. destruct (space3 b1 b2 b3) eqn:E3.
  { apply (IH (String.length r3)); [simpl in Hn; lia | reflexivity]. }
  reflexivity.
Qed.

(** ASCII white space around a text does not change what [TrimSpace]
    makes of it. *)
Lemma TrimSpace_blank (w1 s w2 : string) :
  blank w1 = true -> blank w2 = true ->
  TrimSpace (w1 +:+ s +:+ w2) = TrimSpace s.
Proof.
  intros H1 H2. unfold TrimSpace.
  rewrite trimLeft_blank by assumption. rewrite trimLeft_app_blank by assumption.
  destruct (String.eqb_spec (trimLeft s) "") as [-> | Hne]; [reflexivity |].
  unfold trimRight. rewrite str_rev_app.
  rewrite trimLeftRev_blank by now rewrite blank_rev.
  reflexivity.
Qed.

End TrimSpaceFacts.

(** ** Lines of a content *)

Module LinesFacts.
Import GoStrings GoStringsFacts.

(** Splitting at a separator splits the two sides. *)
Lemma Split_app (a b : string) (sep : ascii) :
  Split (a +:+ String sep b) sep = (Split a sep ++ Split b sep)%list.
Proof.
  induction a as [|c a IH]; cbn [String.append Split].
  - now rewrite Ascii.eqb_refl.
  - destruct (Ascii.eqb c sep); [now rewrite IH |].
    rewrite IH. destruct (Split a sep) as [|f fs] eqn:E; [now apply Split_nonempty in E |].
    reflexivity.
Qed.

Lemma Split_snoc_sep (a : string) (sep : ascii) :
  Split (a +:+ String sep "") sep = (Split a sep ++ [""])%list.
Proof. apply Split_app. Qed.

End LinesFacts.

(** ** The CloudFront file parser *)

Module CloudFrontFileSpec.
Import GoStrings GoStrconv GoStringsFacts GoStrconvFacts CloudFront CloudFrontSpec
       CloudFrontFile TrimSpaceFacts LinesFacts.

Section Spec.

Variable float64 : Type.
Variable float64_zero : float64.
Variable ParseFloat : string -> float64 * option NumError.

#[local] Abbreviation Entry := (CloudFrontLogEntry float64).
#[local] Abbreviation parse := (ParseCloudFrontLogLine float64 float64_zero ParseFloat).
#[local] Abbreviation collect := (collectEntries float64 float64_zero ParseFloat).
#[local] Abbreviation content := (CloudFrontFile.parseContent float64 float64_zero ParseFloat).
#[local] Abbreviation expected := (expectedEntry float64 float64_zero ParseFloat).

Definition newline : ascii := LambdaSeq.newline.

Lemma collect_app (l1 l2 : list string) :
  collect (l1 ++ l2) = (collect l1 ++ collect l2)%list.
Proof.
  induction l1 as [|l l1 IH]; [reflexivity |].
  cbn [app collectEntries]. rewrite IH. now destruct (parse l).
Qed.

Lemma collect_length (lines : list string) :
  (List.length (collect lines) <= List.length lines)%nat.
Proof.
  induction lines as [|l lines IH]; [cbn; lia |].
  cbn [collectEntries List.length]. destruct (parse l); cbn [List.length]; lia.
Qed.











Lemma collect_blank : collect [""] = [].
Proof. reflexivity. Qed.

(** The file parser works line by line: the entries of two contents put
    together with a newline between them are the entries of the first
    followed by those of the second, a newline at the end changes
    nothing, and there are never more entries than lines. *)
Theorem parseContent_lines (c1 c2 : string) :
  content (c1 +:+ String newline c2) = (content c1 ++ content c2)%list /\
  content (c1 +:+ String newline "") = content c1 /\
  (List.length (content c1) <= S (Count c1 newline))%nat.
Proof.
  unfold CloudFrontFile.parseContent. fold newline. split; [| split].
  - now rewrite Split_app, collect_app.
  - rewrite Split_snoc_sep, collect_app, collect_blank. apply app_nil_r.
  - rewrite <- length_Split. apply collect_length.
Qed.


End Spec.






End CloudFrontFileSpec.

(** ** The sequential reader *)

Module SequentialReadSpec.
Import GoStrings GoStringsFacts LambdaSeq LinesFacts.

Section Spec.

Variable ALBLogEntry : Type.
Variable ParseErr : Type.
Variable ParseLogLine : string -> parse_result ALBLogEntry ParseErr.

#[local] Abbreviation sequential := (Ingest.parseSequential ALBLogEntry ParseErr ParseLogLine).

Lemma sequential_app (l1 l2 : list string) :
  sequential (l1 ++ l2) = (sequential l1 ++ sequential l2)%list.
Proof.
  induction l1 as [|l l1 IH]; [reflexivity |].
  cbn [app Ingest.parseSequential]. rewrite IH.
  now destruct (Ingest.parsedEntry _ _ _ l).
Qed.

Lemma sequential_length (lines : list string) :
  (List.length (sequential lines) <= List.length lines)%nat.
Proof.
  induction lines as [|l lines IH]; [cbn; lia |].
  cbn [Ingest.parseSequential List.length].
  destruct (Ingest.parsedEntry _ _ _ l); cbn [List.length]; lia.
Qed.

Lemma sequential_In (lines : list string) (e : ALBLogEntry) :
  In e (sequential lines) ->
  exists line, In line lines /\ line <> "" /\ ParseLogLine line = Parsed e.
Proof.
  induction lines as [|l lines IH]; [intros [] |].
  cbn [Ingest.parseSequential]. unfold Ingest.parsedEntry at 1.
  destruct (String.eqb_spec l "") as [-> | Hne].
  - intros Hin. destruct (IH Hin) as (line & Hl & Hp). exists line. split; [now right | exact Hp].
  - destruct (ParseLogLine l) as [| err | entry] eqn:E.
    + intros Hin. destruct (IH Hin) as (line & Hl & Hp).
      exists line. split; [now right | exact Hp].
    + intros Hin. destruct (IH Hin) as (line & Hl & Hp).
      exists line. split; [now right | exact Hp].
    + intros [<- | Hin].
      * exists l. split; [now left |]. split; assumption.
      * destruct (IH Hin) as (line & Hl & Hp). exists line. split; [now right | exact Hp].
Qed.

(** The sequential reader works line by line: the entries of two contents
    put together with a newline between them are the entries of the first
    followed by those of the second, a newline at the end changes
    nothing, there are never more entries than lines, and every entry is
    what the parser made of a line of the content that is not empty. *)
Theorem readAndParseFromS3_lines (c1 c2 : string) :
  let content := LambdaSeq.parseContent ALBLogEntry ParseErr ParseLogLine in
  content (c1 +:+ String newline c2) = (content c1 ++ content c2)%list /\
  content (c1 +:+ String newline "") = content c1 /\
  (List.length (content c1) <= S (Count c1 newline))%nat /\
  (forall e, In e (content c1) ->
     exists line, In line (Split c1 newline) /\ line <> "" /\
                  ParseLogLine line = Parsed e).
Proof.
  cbv zeta. unfold LambdaSeq.parseContent. split; [| split; [| split]].
  - now rewrite Split_app, sequential_app.
  - rewrite Split_snoc_sep, sequential_app. cbn. apply app_nil_r.
  - rewrite <- length_Split. apply sequential_length.
  - intros e. apply sequential_In.
Qed.

End Spec.

End SequentialReadSpec.

(** ** The sequential [convertAndSend] *)

Module SequentialSendSpec.
Import Lambda LambdaSeq BatchingSpec.

Section Spec.

Variable ALBLogEntry : Type.
Variable TargetGroupARN : ALBLogEntry -> string.
Variable ChosenCertARN : ALBLogEntry -> string.
Variable OTelAttribute : Type.
Variable OTelLogRecord : Type.
Variable ExtractResourceAttributes : ALBLogEntry -> list OTelAttribute.
Variable ConvertToOTel : ALBLogEntry -> OTelLogRecord.
Variable SendError : Type.
Variable send : nat -> OTLPPayload OTelAttribute OTelLogRecord -> option SendError.

#[local] Abbreviation Group := (resourceGroup OTelAttribute OTelLogRecord).
#[local] Abbreviation Payload := (OTLPPayload OTelAttribute OTelLogRecord).
#[local] Abbreviation records := (LogRecords OTelAttribute OTelLogRecord).
#[local] Abbreviation group :=
  (groupEntries ALBLogEntry TargetGroupARN ChosenCertARN OTelAttribute OTelLogRecord
     ExtractResourceAttributes ConvertToOTel).
#[local] Abbreviation batches := (sendBatches OTelAttribute OTelLogRecord SendError send).
#[local] Abbreviation sendAll := (sendGroupsSeq OTelAttribute OTelLogRecord SendError send).
#[local] Abbreviation recordsOf :=
  (GroupingConservation.payloadRecords OTelAttribute OTelLogRecord).

(** The first [m] payloads of a group from index [i] on. *)
Definition payloadsFrom (g : Group) (b i m : nat) : list Payload :=
  map (dPayload _ _) (batchesFrom OTelAttribute OTelLogRecord g b i 0 m).

(** The payloads of a group, and of all the groups in their order. *)
Definition payloadsOf (b : nat) (g : Group) : list Payload :=
  payloadsFrom g b 0 (ceilDiv (List.length (records g)) b).

Definition allPayloads (groups : list (string * Group)) (b : nat) : list Payload :=
  flat_map (fun kg => payloadsOf b (snd kg)) groups.

(** What a run has seen of the network when it has handed [sent] to
    [sendWithRetry] from call [n] on and ended with [r]: every call but
    the last succeeded, and the last one gave [r]. *)
Definition answered (n : nat) (sent : list Payload) (r : option SendError) : Prop :=
  (forall j p, sent !! j = Some p -> (S j < List.length sent)%nat -> send (n + j)%nat p = None) /\
  match r with
  | None => forall p, last sent = Some p -> send (n + List.length sent - 1)%nat p = None
  | Some err => exists p, last sent = Some p /\ send (n + List.length sent - 1)%nat p = Some err
  end.

Lemma payloadsFrom_S (g : Group) (b i m : nat) :
  payloadsFrom g b i (S m)
  = buildPayload _ _ (ResourceAttrs _ _ g)
      (slice (records g) i (Nat.min (i + b) (List.length (records g))))
    :: payloadsFrom g b (i + b) m.
Proof.
  unfold payloadsFrom. rewrite batchesFrom_S. cbn [map]. f_equal.
  - unfold batchAt. cbn [dPayload]. now rewrite Nat.mul_0_l, Nat.add_0_r.
  - unfold batchesFrom. rewrite !List.map_map. apply map_ext. intros j. reflexivity.
Qed.

Lemma length_payloadsFrom (g : Group) (b i m : nat) :
  List.length (payloadsFrom g b i m) = m.
Proof. unfold payloadsFrom, batchesFrom. now rewrite !length_map, length_seq. Qed.

Lemma answered_cons (n : nat) (p : Payload) (sent : list Payload) (r : option SendError) :
  send n p = None -> answered (S n) sent r ->
  (r = None \/ sent <> []) ->
  answered n (p :: sent) r.
Proof.
  intros Hp [Hall Hlast] Hne. split.
  - intros [|j] q Hq Hj; cbn in Hq.
    + injection Hq as <-. now rewrite Nat.add_0_r.
    + cbn [List.length] in Hj.
      replace (n + S j)%nat with (S n + j)%nat by lia. apply (Hall j q Hq). lia.
  - destruct sent as [|q sent].
    + destruct r as [err|]; [destruct Hne as [? | ?]; congruence |].
      intros q [= <-]. cbn. now replace (n + 1 - 1)%nat with n by lia.
    + replace (n + List.length (p :: q :: sent) - 1)%nat
        with (S n + List.length (q :: sent) - 1)%nat by (cbn; lia).
      change (last (p :: q :: sent)) with (last (q :: sent)). exact Hlast.
Qed.

(** The loop over the batches of one group. *)
Lemma sendBatches_run (g : Group) (b : nat) :
  (1 <= b)%nat ->
  forall fuel i n,
    (List.length (records g) - i < fuel)%nat ->
    exists m r,
      batches fuel n g b i = Some (payloadsFrom g b i m, r, (n + m)%nat) /\
      answered n (payloadsFrom g b i m) r /\
      match r with
      | None => m = ceilDiv (List.length (records g) - i) b
      | Some _ => (1 <= m <= ceilDiv (List.length (records g) - i) b)%nat
      end.
Proof.
  intros Hb fuel. induction fuel as [|fuel IH]; intros i n Hfuel; [lia |].
  cbn [sendBatches].
  destruct (Nat.ltb_spec i (List.length (records g))) as [Hi | Hi].
  - set (p := buildPayload _ _ _ _).
    assert (Hp : p = buildPayload _ _ (ResourceAttrs _ _ g)
                   (slice (records g) i (Nat.min (i + b) (List.length (records g))))).
    { subst p. f_equal. f_equal.
      destruct (Nat.ltb_spec (List.length (records g)) (i + b)); lia. }
    rewrite (ceilDiv_step (List.length (records g) - i) b) by lia.
    replace (List.length (records g) - i - b)%nat
      with (List.length (records g) - (i + b))%nat by lia.
    destruct (send n p) as [err|] eqn:Hs.
    + exists 1%nat, (Some err). rewrite payloadsFrom_S, <- Hp.
      split; [now replace (n + 1)%nat with (S n) by lia |]. split; [| lia].
      split.
      * intros j q Hq Hj. cbn in Hj. lia.
      * exists p. split; [reflexivity |]. cbn. now replace (n + 1 - 1)%nat with n by lia.
    + destruct (IH (i + b)%nat (S n) ltac:(lia)) as (m & r & Hrun & Hans & Hm).
      rewrite Hrun. exists (S m), r. rewrite payloadsFrom_S, <- Hp.
      split; [now replace (n + S m)%nat with (S n + m)%nat by lia |]. split.
      * apply answered_cons; [assumption | assumption |].
        destruct r as [err|]; [right | now left].
        intros E. apply (f_equal (@List.length _)) in E.
        rewrite length_payloadsFrom in E. cbn in E. lia.
      * destruct r; lia.
  - exists 0%nat, None.
    replace (List.length (records g) - i)%nat with 0%nat by lia.
    rewrite ceilDiv_0 by assumption. rewrite Nat.add_0_r.
    split; [reflexivity |]. split; [| reflexivity].
    split; [intros j q Hq; discriminate | intros q Hq; discriminate].
Qed.

Lemma answered_app (n : nat) (s1 s2 : list Payload) (r : option SendError) :
  answered n s1 None -> answered (n + List.length s1) s2 r ->
  answered n (s1 ++ s2) r.
Proof.
  intros [H1 L1] [H2 L2]. split.
  - intros j p Hp Hj. rewrite length_app in Hj.
    destruct (Nat.lt_ge_cases j (List.length s1)) as [Hlt | Hge].
    + rewrite lookup_app_l in Hp by assumption.
      destruct (Nat.lt_ge_cases (S j) (List.length s1)) as [Hin | Hlast]; [now apply H1 |].
      replace (n + j)%nat with (n + List.length s1 - 1)%nat by lia.
      apply L1. rewrite last_lookup. now replace (Init.Nat.pred (List.length s1)) with j by lia.
    + rewrite lookup_app_r in Hp by assumption.
      replace (n + j)%nat with (n + List.length s1 + (j - List.length s1))%nat by lia.
      apply H2; [assumption | lia].
  - destruct s2 as [|q s2].
    + rewrite app_nil_r. destruct r as [err|].
      * destruct L2 as (p & Hp & _). discriminate.
      * exact L1.
    + rewrite last_app. cbn [last] in L2 |- *.
      replace (n + List.length (s1 ++ q :: s2) - 1)%nat
        with (n + List.length s1 + List.length (q :: s2) - 1)%nat
        by (rewrite length_app; lia).
      destruct (last (q :: s2)) as [p|] eqn:E.
      * exact L2.
      * apply last_None in E. discriminate.
Qed.

Lemma answered_nil (n : nat) : answered n [] None.
Proof. split; [intros j p Hp; discriminate | intros p Hp; discriminate]. Qed.

(** The loop over the groups. *)
Lemma sendGroupsSeq_run (b : nat) :
  (1 <= b)%nat ->
  forall (groups : list (string * Group)) (fuel n : nat),
    Forall (fun kg => (List.length (records (snd kg)) < fuel)%nat) groups ->
    exists sent r,
      sendAll fuel n groups b = Some (sent, r) /\
      answered n sent r /\
      match r with
      | None => sent = allPayloads groups b
      | Some _ => sent <> [] /\ exists rest, allPayloads groups b = (sent ++ rest)%list
      end.
Proof.
  intros Hb groups. induction groups as [|[key g] groups IH]; intros fuel n Hfuel.
  - exists [], None. split; [reflexivity |]. split; [apply answered_nil | reflexivity].
  - inversion Hfuel as [|? ? Hg Hrest]; subst. cbn [snd] in Hg.
    cbn [sendGroupsSeq allPayloads flat_map snd].
    destruct (sendBatches_run g b Hb fuel 0 n ltac:(lia)) as (m & r & Hrun & Hans & Hm).
    rewrite Hrun. rewrite Nat.sub_0_r in Hm. destruct r as [err|].
    + exists (payloadsFrom g b 0 m), (Some err). split; [reflexivity |].
      split; [assumption |]. split.
      * intros E. apply (f_equal (@List.length _)) in E.
        rewrite length_payloadsFrom in E. cbn in E. lia.
      * unfold payloadsOf, payloadsFrom.
        rewrite (batchesFrom_take _ _ g b 0 0 m _ (proj2 Hm)).
        set (full := batchesFrom _ _ g b 0 0 _).
        exists (map (dPayload _ _) (drop m full) ++ allPayloads groups b)%list.
        change (flat_map _ groups) with (allPayloads groups b).
        now rewrite List.app_assoc, <- List.map_app, take_drop.
    + subst m. destruct (IH fuel (n + ceilDiv (List.length (records g)) b)%nat Hrest)
        as (sent & r & Hrest_run & Hans' & Hr).
      rewrite Hrest_run. exists (payloadsOf b g ++ sent)%list, r.
      split; [reflexivity |]. split.
      * apply answered_app; [assumption |].
        unfold payloadsOf. now rewrite length_payloadsFrom.
      * destruct r as [err|].
        -- destruct Hr as [Hne [rest Hall]]. split.
           ++ intros E. apply app_eq_nil in E as [_ E]. contradiction.
           ++ exists rest. change (flat_map _ groups) with (allPayloads groups b).
              now rewrite Hall, List.app_assoc.
        -- subst sent. reflexivity.
Qed.

(** The records of the payloads of a group are its records. *)
Lemma payloadsOf_records (b : nat) (g : Group) :
  (1 <= b)%nat -> concat (map recordsOf (payloadsOf b g)) = records g.
Proof.
  intros Hb. unfold payloadsOf, payloadsFrom. rewrite List.map_map.
  pose proof (batches_concat _ _ g b Hb (List.length (records g)) 0 0 ltac:(lia)) as H.
  rewrite Nat.sub_0_r in H. exact H.
Qed.

Lemma allPayloads_records (b : nat) (groups : list (string * Group)) :
  (1 <= b)%nat ->
  concat (map recordsOf (allPayloads groups b))
  = GroupingConservation.allRecords _ _ groups.
Proof.
  intros Hb. unfold allPayloads, GroupingConservation.allRecords.
  induction groups as [|[key g] groups IH]; [reflexivity |].
  cbn [flat_map map concat snd]. rewrite List.map_app, concat_app, IH.
  now rewrite payloadsOf_records.
Qed.

Lemma payloadsOf_size (b : nat) (g : Group) (p : Payload) :
  (1 <= b)%nat -> In p (payloadsOf b g) ->
  (1 <= List.length (recordsOf p) <= b)%nat /\
  map (ResourceAttributes _ _) (ResourceLogs _ _ p) = [ResourceAttrs _ _ g].
Proof.
  intros Hb Hin. unfold payloadsOf, payloadsFrom in Hin.
  apply in_map_iff in Hin as (d & <- & Hin).
  apply list_elem_of_In, list_elem_of_lookup in Hin as [j Hj].
  apply batchesFrom_lookup in Hj as [Hj ->].
  change (recordsOf (dPayload _ _ ?d)) with (batchOf _ _ d).
  rewrite batchOf_batchAt. cbn [Nat.add].
  pose proof (ceilDiv_bounds (List.length (records g)) b Hb) as Hc.
  assert (Hstart : (j * b < List.length (records g))%nat) by nia.
  rewrite length_slice by lia. split; [lia | reflexivity].
Qed.


Lemma groups_fuel (entries : list ALBLogEntry) (groups : list (string * Group)) (fuel : nat) :
  groups ≡ₚ map_to_list (group entries) ->
  (List.length entries < fuel)%nat ->
  Forall (fun kg => (List.length (records (snd kg)) < fuel)%nat) groups.
Proof.
  intros Hperm Hfuel. apply Forall_forall. intros [key g] Hin.
  apply list_elem_of_In, (Permutation_in _ Hperm), list_elem_of_In in Hin.
  apply elem_of_map_to_list in Hin.
  rewrite GroupingSpec.group_lookup in Hin. unfold GroupingSpec.groupOf in Hin.
  destruct (GroupingSpec.entriesOf _ _ _ key entries) eqn:E; [discriminate |].
  injection Hin as <-. cbn [snd LogRecords].
  change (ConvertToOTel a :: map ConvertToOTel l) with (map ConvertToOTel (a :: l)).
  rewrite <- E, length_map.
  unfold GroupingSpec.entriesOf.
  pose proof (List.filter_length_le
                (fun e => String.eqb
                   (getResourceKey ALBLogEntry TargetGroupARN ChosenCertARN e) key)
                entries).
  lia.
Qed.

Lemma allPayloads_size (b : nat) (groups : list (string * Group)) (p : Payload) :
  (1 <= b)%nat -> In p (allPayloads groups b) ->
  (1 <= List.length (recordsOf p) <= b)%nat /\
  exists key g, In (key, g) groups /\
    map (ResourceAttributes _ _) (ResourceLogs _ _ p) = [ResourceAttrs _ _ g].
Proof.
  intros Hb Hin. unfold allPayloads in Hin.
  apply in_flat_map in Hin as ([key g] & Hg & Hin). cbn [snd] in Hin.
  destruct (payloadsOf_size b g p Hb Hin) as [Hlen Hattrs].
  split; [assumption |]. now exists key, g.
Qed.

(** The records of a group are the records of the entries of its key. *)
Lemma group_records_of_key (entries : list ALBLogEntry) (groups : list (string * Group))
    (key : string) (g : Group) :
  groups ≡ₚ map_to_list (group entries) ->
  In (key, g) groups ->
  records g = map ConvertToOTel
                (GroupingSpec.entriesOf ALBLogEntry TargetGroupARN ChosenCertARN key entries).
Proof.
  intros Hperm Hin.
  apply (Permutation_in _ Hperm), list_elem_of_In in Hin.
  apply elem_of_map_to_list in Hin.
  rewrite GroupingSpec.group_lookup in Hin. unfold GroupingSpec.groupOf in Hin.
  destruct (GroupingSpec.entriesOf _ _ _ key entries) eqn:E; [discriminate |].
  now injection Hin as <-.
Qed.

(** A payload of the sequence is built from a slice of the records of
    one group and the attributes of that group. *)
Lemma allPayloads_In (b : nat) (groups : list (string * Group)) (p : Payload) :
  (1 <= b)%nat -> In p (allPayloads groups b) ->
  exists key g j,
    In (key, g) groups /\
    (j * b < List.length (records g))%nat /\
    p = buildPayload _ _ (ResourceAttrs _ _ g)
          (slice (records g) (j * b) (Nat.min (j * b + b) (List.length (records g)))).
Proof.
  intros Hb Hin. unfold allPayloads in Hin.
  apply in_flat_map in Hin as ([key g] & Hg & Hin). cbn [snd] in Hin.
  unfold payloadsOf, payloadsFrom in Hin.
  apply in_map_iff in Hin as (d & <- & Hin).
  apply list_elem_of_In, list_elem_of_lookup in Hin as [j Hj].
  apply batchesFrom_lookup in Hj as [Hj ->].
  exists key, g, j. split; [assumption |]. split; [| reflexivity].
  pose proof (ceilDiv_bounds (List.length (records g)) b Hb). nia.
Qed.

(** The sequential [convertAndSend] with a batch size of 1 or more, when
    every call of [sendWithRetry] succeeds: it returns [nil]; it has sent
    the payloads of all the groups, which hold the record of every entry
    once and no other record; and each payload is built from the
    attributes of one group and a slice of between 1 and [maxBatchSize]
    of the records of that same group, which are the records of the
    entries of its key. *)
Theorem convertAndSend_sequential_complete
    (entries : list ALBLogEntry) (groups : list (string * Group)) (b fuel n : nat) :
  (1 <= b)%nat ->
  groups ≡ₚ map_to_list (group entries) ->
  (List.length entries < fuel)%nat ->
  (forall k p, send k p = None) ->
  exists sent,
    sendGroupsSeq OTelAttribute OTelLogRecord SendError send fuel n groups b
      = Some (sent, None) /\
    sent = allPayloads groups b /\
    concat (map recordsOf sent) ≡ₚ map ConvertToOTel entries /\
    forall p, In p sent ->
      (1 <= List.length (recordsOf p) <= b)%nat /\
      exists key g j,
        let recs :=
          map ConvertToOTel
            (GroupingSpec.entriesOf ALBLogEntry TargetGroupARN ChosenCertARN key entries) in
        In (key, g) groups /\
        LogRecords _ _ g = recs /\
        (j * b < List.length recs)%nat /\
        recordsOf p = slice recs (j * b) (Nat.min (j * b + b) (List.length recs)) /\
        p = buildPayload _ _ (ResourceAttrs _ _ g) (recordsOf p) /\
        map (ResourceAttributes _ _) (ResourceLogs _ _ p) = [ResourceAttrs _ _ g].
Proof.
  intros Hb Hperm Hfuel Hsend.
  destruct (sendGroupsSeq_run b Hb groups fuel n (groups_fuel _ _ _ Hperm Hfuel))
    as (sent & r & Hrun & Hans & Hr).
  destruct r as [err|].
  { destruct Hans as [_ (p & _ & Hp)]. now rewrite Hsend in Hp. }
  subst sent. exists (allPayloads groups b). split; [assumption |].
  split; [reflexivity |]. split.
  - rewrite allPayloads_records by assumption.
    rewrite (GroupingConservation.allRecords_perm _ _ _ _ Hperm).
    apply GroupingConservation.group_records.
  - intros p Hin. split; [now apply (allPayloads_size b groups p Hb Hin) |].
    destruct (allPayloads_In b groups p Hb Hin) as (key & g & j & Hg & Hj & ->).
    exists key, g, j. cbv zeta.
    rewrite <- (group_records_of_key entries groups key g Hperm Hg).
    assert (Hrec : recordsOf
                     (buildPayload _ _ (ResourceAttrs _ _ g)
                        (slice (records g) (j * b)
                           (Nat.min (j * b + b) (List.length (records g)))))
                   = slice (records g) (j * b)
                       (Nat.min (j * b + b) (List.length (records g)))).
    { unfold GroupingConservation.payloadRecords. cbn. now rewrite !app_nil_r. }
    rewrite Hrec. repeat split; assumption.
Qed.

(** The sequential [convertAndSend] stops at the first call of
    [sendWithRetry] that fails. Whatever the network does, a run ends;
    what it has sent is the start of the sequence of payloads a run
    without failure sends, every call but the last has succeeded, and
    the error returned is the one of the last call. It returns [nil] only
    when the whole sequence is sent. *)
Theorem convertAndSend_sequential_stops
    (entries : list ALBLogEntry) (groups : list (string * Group)) (b fuel n : nat) :
  (1 <= b)%nat ->
  groups ≡ₚ map_to_list (group entries) ->
  (List.length entries < fuel)%nat ->
  exists sent r rest,
    sendGroupsSeq OTelAttribute OTelLogRecord SendError send fuel n groups b
      = Some (sent, r) /\
    allPayloads groups b = (sent ++ rest)%list /\
    (forall j p, sent !! j = Some p -> (S j < List.length sent)%nat ->
       send (n + j)%nat p = None) /\
    match r with
    | None => rest = []
    | Some err =>
        exists p, last sent = Some p /\ send (n + List.length sent - 1)%nat p = Some err
    end.
Proof.
  intros Hb Hperm Hfuel.
  destruct (sendGroupsSeq_run b Hb groups fuel n (groups_fuel _ _ _ Hperm Hfuel))
    as (sent & r & Hrun & [Hall Hlast] & Hr).
  destruct r as [err|].
  - destruct Hr as [_ [rest Hrest]]. exists sent, (Some err), rest.
    repeat split; assumption.
  - exists sent, None, []. rewrite app_nil_r. repeat split; try assumption. now symmetry.
Qed.


End Spec.

Definition mixedEntries : list (string * string) :=
  [("tg1", "a"); ("tg2", "b"); ("tg1", "c")].

(** A network that takes every payload, and one that fails the second
    call. *)
Definition alwaysUp (n : nat) (p : OTLPPayload string string) : option unit := None.
Definition secondFails (n : nat) (p : OTLPPayload string string) : option unit :=
  if (n =? 1)%nat then Some tt else None.

Lemma convertAndSend_sequential_complete_witness :
  exists sent,
    sendGroupsSeq string string unit alwaysUp 10 0
      (map_to_list (groupEntries (string * string) fst snd string string
                      (fun e => [snd e]) snd mixedEntries)) 1
    = Some (sent, None) /\
    concat (map (GroupingConservation.payloadRecords string string) sent)
    ≡ₚ ["a"; "b"; "c"].
Proof.
  destruct (convertAndSend_sequential_complete (string * string) fst snd string string
              (fun e => [snd e]) snd unit alwaysUp mixedEntries _ 1 10 0
              ltac:(lia) (Permutation_refl _) ltac:(cbn; lia) (fun _ _ => eq_refl))
    as (sent & Hrun & _ & Hrec & _).
  exists sent. split; [exact Hrun | exact Hrec].
Defined.

Lemma convertAndSend_sequential_stops_witness :
  exists sent rest,
    sendGroupsSeq string string unit secondFails 10 0
      (map_to_list (groupEntries (string * string) fst snd string string
                      (fun e => [snd e]) snd mixedEntries)) 1
    = Some (sent, Some tt) /\
    List.length sent = 2%nat /\ List.length rest = 1%nat /\
    allPayloads string string
      (map_to_list (groupEntries (string * string) fst snd string string
                      (fun e => [snd e]) snd mixedEntries)) 1
    = (sent ++ rest)%list.
Proof.
  destruct (convertAndSend_sequential_stops (string * string) fst snd string string
              (fun e => [snd e]) snd unit secondFails mixedEntries _ 1 10 0
              ltac:(lia) (Permutation_refl _) ltac:(cbn; lia))
    as (sent & r & rest & Hrun & Hall & Hbefore & Hlast).
  assert (Hlen : List.length (sent ++ rest) = 3%nat).
  { rewrite <- Hall. vm_compute. reflexivity. }
  rewrite length_app in Hlen.
  destruct r as [[]|].
  - destruct Hlast as (p & Hp & Hs). unfold secondFails in Hs.
    destruct (Nat.eqb_spec (0 + List.length sent - 1) 1) as [E | E]; [| discriminate].
    exists sent, rest. repeat split; [exact Hrun | lia | lia | exact Hall].
  - subst rest. rewrite app_nil_r in *. cbn in Hlen.
    destruct sent as [|p0 [|p1 sent]]; try (cbn in Hlen; lia).
    specialize (Hbefore 1%nat p1 eq_refl ltac:(cbn in *; lia)). discriminate Hbefore.
Defined.

End SequentialSendSpec.

(** ** The line parsers and the white space around a line *)

Module TrimmedLineSpec.
Import GoStrings GoStrconv TrimSpaceFacts.

Section Spec.

Variable float64 : Type.
Variable float64_zero : float64.
Variable ParseFloat : string -> float64 * option NumError.

(** The two line parsers see a line without the white space around it:
    blanks, tabs and the carriage return of a line that ended in CR LF
    change nothing in the result, and neither does trimming the line
    beforehand. *)
Theorem parsers_ignore_surrounding_space (line w1 w2 : string) :
  blank w1 = true -> blank w2 = true ->
  CloudFront.ParseCloudFrontLogLine float64 float64_zero ParseFloat (w1 +:+ line +:+ w2)
  = CloudFront.ParseCloudFrontLogLine float64 float64_zero ParseFloat line
  /\
  NLB.ParseNLBLogLine float64 float64_zero ParseFloat (w1 +:+ line +:+ w2)
  = NLB.ParseNLBLogLine float64 float64_zero ParseFloat line
  /\
  CloudFront.ParseCloudFrontLogLine float64 float64_zero ParseFloat (TrimSpace line)
  = CloudFront.ParseCloudFrontLogLine float64 float64_zero ParseFloat line
  /\
  NLB.ParseNLBLogLine float64 float64_zero ParseFloat (TrimSpace line)
  = NLB.ParseNLBLogLine float64 float64_zero ParseFloat line.
Proof.
  intros H1 H2.
  rewrite !CloudFrontSpec.ParseCloudFrontLogLine_unfold, !NLBSpec.ParseNLBLogLine_unfold.
  cbv zeta. rewrite !TrimSpace_blank by assumption. rewrite !TrimSpace_idempotent.
  repeat split; reflexivity.
Qed.

End Spec.

Lemma parsers_ignore_surrounding_space_witness :
  NLB.ParseNLBLogLine Float64.float64 Float64.zero Float64.ParseFloat
    (" " +:+ "invalid log line" +:+ String (byte_of 13) "")
  = Failed NLB.FailedToParseNLBLogLine.
Proof.
  rewrite (proj1 (proj2 (parsers_ignore_surrounding_space
                           Float64.float64 Float64.zero Float64.ParseFloat
                           "invalid log line" " " (String (byte_of 13) "")
                           eq_refl eq_refl))).
  vm_compute. reflexivity.
Defined.

End TrimmedLineSpec.

(** ** The separators of an NLB line *)

Module NLBFieldsSpec.
Import GoStrings GoStringsFacts GoStrconv GoRegexp GoRegexpFacts NLB.

(** The number of times the pattern asks for the literal byte [c]. *)
Fixpoint litCount (p : pattern) (c : ascii) : nat :=
  match p with
  | [] => 0%nat
  | Lit d :: p' => ((if Ascii.eqb d c then 1 else 0) + litCount p' c)%nat
  | Rep _ _ _ :: p' => litCount p' c
  end.

(** A text the pattern matches has every literal of the pattern. *)
Lemma Matches_litCount (p : pattern) (s : string) (groups : list string) (rest : string)
    (c : ascii) :
  Matches p s groups rest -> (litCount p c <= Count s c)%nat.
Proof.
  induction 1 as [s | d p s g r _ IH | capture mn cls p run s g r _ _ _ IH];
    cbn [litCount Count].
  - lia.
  - lia.
  - rewrite Count_app. lia.
Qed.

Section Spec.

Variable float64 : Type.
Variable float64_zero : float64.
Variable ParseFloat : string -> float64 * option NumError.

#[local] Abbreviation parse := (ParseNLBLogLine float64 float64_zero ParseFloat).

(** A line that [ParseNLBLogLine] reads has the 20 blanks and the two
    colons (of the client and of the target address) that separate the 23
    groups of the pattern; a line with fewer of either, when it is not
    blank and not a comment, is refused with the parse error. *)
Theorem ParseNLBLogLine_needs_fields (line : string) :
  (forall e, parse line = Parsed e ->
     (20 <= Count line " ")%nat /\ (2 <= Count line ":")%nat)
  /\
  (TrimSpace line <> "" ->
   HasPrefix (TrimSpace line) "#" = false ->
   (Count line " " < 20)%nat \/ (Count line ":" < 2)%nat ->
   parse line = Failed FailedToParseNLBLogLine).
Proof.
  assert (Hneed : forall m,
            FindStringSubmatchAnchored nlbLogPattern (TrimSpace line) = Some m ->
            (20 <= Count line " ")%nat /\ (2 <= Count line ":")%nat).
  { unfold FindStringSubmatchAnchored. intros m.
    destruct (match_here nlbLogPattern (TrimSpace line)) as [[g rest]|] eqn:E;
      [| discriminate].
    intros _. apply match_here_sound in E.
    pose proof (Matches_litCount _ _ _ _ " "%char E) as Hs.
    pose proof (Matches_litCount _ _ _ _ ":"%char E) as Hc.
    pose proof (Count_TrimSpace line " "). pose proof (Count_TrimSpace line ":").
    change (litCount nlbLogPattern " "%char) with 20%nat in Hs.
    change (litCount nlbLogPattern ":"%char) with 2%nat in Hc.
    lia. }
  split.
  - intros e. rewrite NLBSpec.ParseNLBLogLine_unfold. cbv zeta.
    destruct (_ || _); [discriminate |].
    destruct (FindStringSubmatchAnchored nlbLogPattern (TrimSpace line)) as [m|] eqn:E;
      [| discriminate].
    intros _. now apply (Hneed m).
  - intros Hne Hc Hfew. rewrite NLBSpec.ParseNLBLogLine_unfold. cbv zeta.
    apply String.eqb_neq in Hne. rewrite Hne, Hc. cbn [orb].
    destruct (FindStringSubmatchAnchored nlbLogPattern (TrimSpace line)) as [m|] eqn:E;
      [| reflexivity].
    destruct (Hneed m eq_refl). lia.
Qed.

End Spec.

(** A line of the first seven fields only. *)
Lemma ParseNLBLogLine_needs_fields_witness :
  ParseNLBLogLine Float64.float64 Float64.zero Float64.ParseFloat
    "tls 2.0 2023-10-01T00:00:00.000000Z app/net-lb/1 listener/1 1.2.3.4:12345 5.6.7.8:80"
  = Failed FailedToParseNLBLogLine.
Proof.
  apply (proj2 (ParseNLBLogLine_needs_fields Float64.float64 Float64.zero Float64.ParseFloat
                  "tls 2.0 2023-10-01T00:00:00.000000Z app/net-lb/1 listener/1 1.2.3.4:12345 5.6.7.8:80")).
  - vm_compute. discriminate.
  - vm_compute. reflexivity.
  - left. vm_compute. lia.
Defined.

End NLBFieldsSpec.

(** ** The senders of [convertAndSend] and their permits *)

Module DeliverySpec.
Import Lambda Delivery.

Section Spec.

Variable OTelAttribute : Type.
Variable OTelLogRecord : Type.
Variable SendError : Type.
Variable maxConcurrent : nat.

#[local] Abbreviation Batch := (dispatched OTelAttribute OTelLogRecord).
#[local] Abbreviation Sender := (sender OTelAttribute OTelLogRecord SendError).
#[local] Abbreviation State := (state OTelAttribute OTelLogRecord SendError).
#[local] Abbreviation Step := (step OTelAttribute OTelLogRecord SendError maxConcurrent).
#[local] Abbreviation init := (initial OTelAttribute OTelLogRecord SendError).

(** The batch of a sender, what its call of [sendWithRetry] returned (if
    it has returned), whether it holds a permit, and what it has added to
    [totalSent]. *)
Definition jobOf (s : Sender) : Batch :=
  match s with
  | Acquiring job | Sending job | Releasing job _ | Exiting job _ | Done job _ => job
  end.

Definition resultOf (s : Sender) : option (option SendError) :=
  match s with
  | Acquiring _ | Sending _ => None
  | Releasing _ r | Exiting _ r | Done _ r => Some r
  end.

Definition permit (s : Sender) : nat :=
  match s with
  | Sending _ | Releasing _ _ => 1
  | _ => 0
  end.

Definition inCall (s : Sender) : nat :=
  match s with
  | Sending _ => 1
  | _ => 0
  end.

Definition sentSize (s : Sender) : nat :=
  match resultOf s with
  | Some None => dBatchSize _ _ (jobOf s)
  | _ => 0
  end.

Definition isDone (s : Sender) : Prop := exists job r, s = Done job r.

Definition total (f : Sender -> nat) (l : list Sender) : nat := list_sum (map f l).

(** A sender of the list has failed with the error [e] tells of. *)
Definition failedIn (l : list Sender) (e : batchError SendError) : Prop :=
  exists s, In s l /\ resultOf s = Some (Some (cause e)) /\
            dBatchID _ _ (jobOf s) = failedBatch e.

Definition anyFailed (l : list Sender) : Prop :=
  exists s err, In s l /\ resultOf s = Some (Some err).

(** One move of a sender. *)
Inductive moves : Sender -> Sender -> Prop :=
| moves_acquire job : moves (Acquiring job) (Sending job)
| moves_return job r : moves (Sending job) (Releasing job r)
| moves_release job r : moves (Releasing job r) (Exiting job r)
| moves_done job r : moves (Exiting job r) (Done job r).

Lemma total_insert (f : Sender -> nat) (l : list Sender) (i : nat) (old new : Sender) :
  l !! i = Some old ->
  (total f (<[i := new]> l) + f old = total f l + f new)%nat.
Proof.
  unfold total. revert i. induction l as [|s l IH]; intros [|i] Hi; try discriminate;
    simpl in *.
  - injection Hi as ->. lia.
  - specialize (IH i Hi). lia.
Qed.

Lemma total_snoc (f : Sender -> nat) (l : list Sender) (s : Sender) :
  total f (l ++ [s]) = (total f l + f s)%nat.
Proof. unfold total. rewrite List.map_app, list_sum_app. simpl. lia. Qed.

Lemma map_jobOf_insert (l : list Sender) (i : nat) (old new : Sender) :
  l !! i = Some old -> jobOf new = jobOf old ->
  map jobOf (<[i := new]> l) = map jobOf l.
Proof.
  revert i. induction l as [|s l IH]; intros [|i] Hi Hj; try discriminate; simpl in *.
  - injection Hi as ->. now rewrite Hj.
  - now rewrite (IH i Hi Hj).
Qed.

Lemma In_insert_inv (l : list Sender) (i : nat) (new s : Sender) :
  In s (<[i := new]> l) -> s = new \/ In s l.
Proof.
  revert i. induction l as [|x l IH]; intros [|i]; simpl; try tauto.
  - intros [<- | H]; tauto.
  - intros [<- | H]; [tauto |]. destruct (IH i H); tauto.
Qed.

Lemma In_insert_keep (l : list Sender) (i : nat) (old new s : Sender) :
  l !! i = Some old -> In s l -> s = old \/ In s (<[i := new]> l).
Proof.
  revert i. induction l as [|x l IH]; intros [|i] Hi; try discriminate; simpl in *.
  - injection Hi as ->. intros [<- | H]; tauto.
  - intros [<- | H]; [tauto |]. destruct (IH i Hi H); tauto.
Qed.

Lemma In_insert_new (l : list Sender) (i : nat) (old new : Sender) :
  l !! i = Some old -> In new (<[i := new]> l).
Proof.
  revert i. induction l as [|x l IH]; intros [|i] Hi; try discriminate; simpl in *.
  - now left.
  - right. now apply (IH i).
Qed.

Lemma sender_lookup_In (l : list Sender) (i : nat) (s : Sender) : l !! i = Some s -> In s l.
Proof. intros H. apply list_elem_of_In. now apply list_elem_of_lookup_2 in H. Qed.

Lemma moves_job (old new : Sender) : moves old new -> jobOf new = jobOf old.
Proof. now destruct 1. Qed.

Lemma moves_result (old new : Sender) (r : option SendError) :
  moves old new -> resultOf old = Some r -> resultOf new = Some r.
Proof. destruct 1; cbn; congruence. Qed.

Lemma moves_not_done (old new : Sender) : moves old new -> ~ isDone old.
Proof. destruct 1; intros (job' & r' & H); discriminate. Qed.

(** A failure stays on record while the sender goes on. *)
Lemma failedIn_moves (l : list Sender) (i : nat) (old new : Sender) (e : batchError SendError) :
  l !! i = Some old -> moves old new -> failedIn l e -> failedIn (<[i := new]> l) e.
Proof.
  intros Hi Hm (s & Hin & Hr & Hb).
  destruct (In_insert_keep l i old new s Hi Hin) as [-> | Hin'].
  - exists new. split; [now apply (In_insert_new l i old) |].
    split; [now apply (moves_result old) | now rewrite (moves_job _ _ Hm)].
  - exists s. auto.
Qed.

Lemma failedIn_snoc (l : list Sender) (s : Sender) (e : batchError SendError) :
  failedIn l e -> failedIn (l ++ [s]) e.
Proof. intros (x & Hin & H). exists x. split; [apply in_or_app; now left | exact H]. Qed.

(** A sender that has not failed and moves on without coming out of the
    call has still not failed. *)
Lemma anyFailed_insert (l : list Sender) (i : nat) (new : Sender) :
  anyFailed (<[i := new]> l) ->
  anyFailed l \/ exists err, resultOf new = Some (Some err).
Proof.
  intros (s & err & Hin & Hr). apply In_insert_inv in Hin as [-> | Hin].
  - right. now exists err.
  - left. now exists s, err.
Qed.

Lemma anyFailed_moves (l : list Sender) (i : nat) (old new : Sender) :
  l !! i = Some old -> moves old new ->
  anyFailed (<[i := new]> l) ->
  anyFailed l \/ (resultOf old = None /\ exists err, resultOf new = Some (Some err)).
Proof.
  intros Hi Hm H. apply anyFailed_insert in H as [H | [err Hr]]; [now left |].
  destruct Hm as [job | job r | job r | job r]; cbn in Hr |- *.
  - discriminate.
  - right. split; [reflexivity | now exists err].
  - left. exists (Releasing job r), err. split; [now apply (sender_lookup_In _ i) | exact Hr].
  - left. exists (Exiting job r), err. split; [now apply (sender_lookup_In _ i) | exact Hr].
Qed.

Lemma anyFailed_snoc (l : list Sender) (job : Batch) :
  anyFailed (l ++ [Acquiring job]) -> anyFailed l.
Proof.
  intros (s & err & Hin & Hr). apply in_app_or in Hin as [Hin | [<- | []]].
  - now exists s, err.
  - discriminate.
Qed.

Lemma Forall_isDone_lookup (l : list Sender) (i : nat) (s : Sender) :
  Forall isDone l -> l !! i = Some s -> isDone s.
Proof. intros H Hi. rewrite Forall_forall in H. apply H. now apply list_elem_of_lookup_2 in Hi. Qed.

Ltac step_cases H :=
  destruct H as
    [ st d rest Hm Hp He | st d rest err Hm Hp He | st d rest Hm Hp | st Hm Hp
    | st Hm Hall | st err Hm He | st Hm He
    | st i job Hi Hcap | st i job Hi | st i job err Hi | st i job r n Hi Hsem
    | st i job r Hi ];
  cbn [main pending senders sem errChan totalSent] in *.

(** What holds of every state of a run over [batches]. *)
Record invariant (batches : list Batch) (st : State) : Prop := {
  inv_jobs : (map jobOf (senders st) ++ pending st)%list = batches;
  inv_permits : total permit (senders st) = sem st;
  inv_capacity : (sem st <= maxConcurrent)%nat;
  inv_total : totalSent st = total sentSize (senders st);
  inv_errChan : forall e, errChan st = Some e -> failedIn (senders st) e;
  inv_returned : forall e, main st = Returned (Some e) -> failedIn (senders st) e;
  inv_failed :
    anyFailed (senders st) -> errChan st <> None \/ exists e, main st = Returned (Some e);
  inv_spawning : main st = Spawning -> pending st <> [];
  inv_waiting :
    main st = Waiting \/ main st = Checking \/ main st = Returned None -> pending st = [];
  inv_done : main st = Checking \/ main st = Returned None -> Forall isDone (senders st);
  inv_nil : main st = Returned None -> errChan st = None
}.

Lemma invariant_initial (batches : list Batch) : invariant batches (init batches).
Proof.
  constructor; cbn; try reflexivity; try lia; try discriminate.
  - intros (s & err & [] & _).
  - intros [H | [H | H]]; discriminate.
  - intros [H | H]; discriminate.
Qed.

Lemma invariant_step (batches : list Batch) (st st' : State) :
  Step st st' -> invariant batches st -> invariant batches st'.
Proof.
  intros H I. destruct I as [Ij Ip Ic It Ie Ir If Is Iw Id In0].
  step_cases H.
  - (* poll: nothing on errChan *)
    constructor; cbn [main pending senders sem errChan totalSent]; try assumption; try discriminate.
    + intros Hf. destruct (If Hf) as [Hne | [e He']]; [congruence | rewrite Hm in He'; discriminate].
    + intros _. now rewrite Hp.
    + intros [H | [H | H]]; discriminate.
    + intros [H | H]; discriminate.
  - (* poll: an error *)
    constructor; cbn [main pending senders sem errChan totalSent]; try assumption; try discriminate.
    + intros e [= <-]. now apply Ie.
    + intros _. right. now exists err.
    + intros [H | [H | H]]; discriminate.
    + intros [H | H]; discriminate.
  - (* go *)
    constructor; cbn [main pending senders sem errChan totalSent]; try discriminate.
    + rewrite List.map_app, <- List.app_assoc. cbn. now rewrite <- Hp.
    + rewrite total_snoc. cbn [permit]. lia.
    + assumption.
    + rewrite total_snoc. cbn. lia.
    + intros e He. apply failedIn_snoc. now apply Ie.
    + intros Hf%anyFailed_snoc. destruct (If Hf) as [Hne | [e He']]; [now left |].
      rewrite Hm in He'. discriminate.
    + intros [H | [H | H]]; discriminate.
    + intros [H | H]; discriminate.
  - (* the loops are over *)
    constructor; cbn [main pending senders sem errChan totalSent]; try assumption; try discriminate.
    + now rewrite <- Hp.
    + intros Hf. destruct (If Hf) as [Hne | [e He']]; [now left |].
      rewrite Hm in He'. discriminate.
    + reflexivity.
    + intros [H | H]; discriminate.
  - (* wg.Wait() *)
    constructor; cbn [main pending senders sem errChan totalSent]; try assumption; try discriminate.
    + intros Hf. destruct (If Hf) as [Hne | [e He']]; [now left |].
      rewrite Hm in He'. discriminate.
    + intros _. apply Iw. now left.
    + intros _. exact Hall.
  - (* the last select: an error *)
    constructor; cbn [main pending senders sem errChan totalSent]; try assumption; try discriminate.
    + intros e [= <-]. now apply Ie.
    + intros _. right. now exists err.
    + intros _. apply Iw. right. now left.
    + intros [H | H]; discriminate.
  - (* the last select: nothing *)
    constructor; cbn [main pending senders sem errChan totalSent]; try assumption; try discriminate.
    + intros Hf. destruct (If Hf) as [Hne | [e He']]; [congruence |].
      rewrite Hm in He'. discriminate.
    + intros _. apply Iw. right. now left.
    + intros _. apply Id. now left.
    + reflexivity.
  - (* sem <- *)
    assert (Hmv : moves (Acquiring job) (Sending job)) by constructor.
    assert (Hnd : ~ Forall isDone (senders st)).
    { intros Hd. apply (moves_not_done _ _ Hmv). eapply Forall_isDone_lookup; eassumption. }
    constructor; cbn [main pending senders sem errChan totalSent].
    + now rewrite (map_jobOf_insert _ i (Acquiring job)).
    + pose proof (total_insert permit _ i _ (Sending job) Hi) as E. cbn [permit] in E. lia.
    + lia.
    + pose proof (total_insert sentSize _ i _ (Sending job) Hi) as E. cbn in E. lia.
    + intros e He. eapply failedIn_moves; eauto.
    + intros e He. eapply failedIn_moves; eauto.
    + intros Hf. apply (anyFailed_moves _ _ _ _ Hi Hmv) in Hf as [Hf | [_ [err Hr]]];
        [now apply If | discriminate].
    + assumption.
    + assumption.
    + intros Hd. exfalso. apply Hnd. now apply Id.
    + assumption.
  - (* sendWithRetry: nil *)
    assert (Hmv : moves (Sending job) (Releasing job None)) by constructor.
    assert (Hnd : ~ Forall isDone (senders st)).
    { intros Hd. apply (moves_not_done _ _ Hmv). eapply Forall_isDone_lookup; eassumption. }
    constructor; cbn [main pending senders sem errChan totalSent].
    + now rewrite (map_jobOf_insert _ i (Sending job)).
    + pose proof (total_insert permit _ i _ (Releasing job None) Hi) as E.
      cbn [permit] in E. lia.
    + assumption.
    + pose proof (total_insert sentSize _ i _ (Releasing job None) Hi) as E.
      cbn in E. lia.
    + intros e He. eapply failedIn_moves; eauto.
    + intros e He. eapply failedIn_moves; eauto.
    + intros Hf. apply (anyFailed_moves _ _ _ _ Hi Hmv) in Hf as [Hf | [_ [err Hr]]];
        [now apply If | discriminate].
    + assumption.
    + assumption.
    + intros Hd. exfalso. apply Hnd. now apply Id.
    + assumption.
  - (* sendWithRetry: an error *)
    assert (Hmv : moves (Sending job) (Releasing job (Some err))) by constructor.
    assert (Hnd : ~ Forall isDone (senders st)).
    { intros Hd. apply (moves_not_done _ _ Hmv). eapply Forall_isDone_lookup; eassumption. }
    constructor; cbn [main pending senders sem errChan totalSent].
    + now rewrite (map_jobOf_insert _ i (Sending job)).
    + pose proof (total_insert permit _ i _ (Releasing job (Some err)) Hi) as E.
      cbn [permit] in E. lia.
    + assumption.
    + pose proof (total_insert sentSize _ i _ (Releasing job (Some err)) Hi) as E.
      cbn in E. lia.
    + intros e He. destruct (errChan st) as [e0|] eqn:E0.
      * injection He as <-. eapply failedIn_moves; eauto.
      * injection He as <-. exists (Releasing job (Some err)).
        split; [now apply (In_insert_new _ i (Sending job)) |]. split; reflexivity.
    + intros e He. eapply failedIn_moves; eauto.
    + intros _. left. destruct (errChan st); discriminate.
    + assumption.
    + assumption.
    + intros Hd. exfalso. apply Hnd. now apply Id.
    + intros Hn. exfalso. apply Hnd. apply Id. now right.
  - (* <-sem *)
    assert (Hmv : moves (Releasing job r) (Exiting job r)) by constructor.
    assert (Hnd : ~ Forall isDone (senders st)).
    { intros Hd. apply (moves_not_done _ _ Hmv). eapply Forall_isDone_lookup; eassumption. }
    constructor; cbn [main pending senders sem errChan totalSent].
    + now rewrite (map_jobOf_insert _ i (Releasing job r)).
    + pose proof (total_insert permit _ i _ (Exiting job r) Hi) as E.
      cbn [permit] in E. lia.
    + lia.
    + pose proof (total_insert sentSize _ i _ (Exiting job r) Hi) as E.
      change (sentSize (Exiting job r)) with (sentSize (Releasing job r)) in E. lia.
    + intros e He. eapply failedIn_moves; eauto.
    + intros e He. eapply failedIn_moves; eauto.
    + intros Hf. apply (anyFailed_moves _ _ _ _ Hi Hmv) in Hf as [Hf | [Hr _]];
        [now apply If | discriminate].
    + assumption.
    + assumption.
    + intros Hd. exfalso. apply Hnd. now apply Id.
    + assumption.
  - (* wg.Done() *)
    assert (Hmv : moves (Exiting job r) (Done job r)) by constructor.
    assert (Hnd : ~ Forall isDone (senders st)).
    { intros Hd. apply (moves_not_done _ _ Hmv). eapply Forall_isDone_lookup; eassumption. }
    constructor; cbn [main pending senders sem errChan totalSent].
    + now rewrite (map_jobOf_insert _ i (Exiting job r)).
    + pose proof (total_insert permit _ i _ (Done job r) Hi) as E.
      cbn [permit] in E. lia.
    + assumption.
    + pose proof (total_insert sentSize _ i _ (Done job r) Hi) as E.
      change (sentSize (Done job r)) with (sentSize (Exiting job r)) in E. lia.
    + intros e He. eapply failedIn_moves; eauto.
    + intros e He. eapply failedIn_moves; eauto.
    + intros Hf. apply (anyFailed_moves _ _ _ _ Hi Hmv) in Hf as [Hf | [Hr _]];
        [now apply If | discriminate].
    + assumption.
    + assumption.
    + intros Hd. exfalso. apply Hnd. now apply Id.
    + assumption.
Qed.

Lemma invariant_run (batches : list Batch) (st : State) :
  rtc Step (init batches) st -> invariant batches st.
Proof.
  intros H. apply rtc_ind_r with (x := init batches) (P := invariant batches) in H;
    [exact H | apply invariant_initial |].
  intros y z _ Hstep Hy. now apply (invariant_step batches y z).
Qed.

(** *** What a return means *)

Lemma all_sent (l : list Sender) :
  Forall isDone l -> ~ anyFailed l ->
  Forall (fun s => exists job, s = Done job None) l /\
  total sentSize l = list_sum (map (dBatchSize _ _) (map jobOf l)).
Proof.
  intros Hd Hf. induction Hd as [|s l (job & r & ->) _ IH].
  - split; [constructor | reflexivity].
  - destruct r as [err|].
    { exfalso. apply Hf. exists (Done job (Some err)), err. split; [now left | reflexivity]. }
    destruct IH as [IH1 IH2].
    { intros (x & err & Hin & Hr). apply Hf. exists x, err. split; [now right | exact Hr]. }
    split; [constructor; [now exists job | exact IH1] |].
    change (total sentSize (Done job None :: l))
      with (dBatchSize _ _ job + total sentSize l)%nat.
    now rewrite IH2.
Qed.

Lemma returned_nil (batches : list Batch) (st : State) :
  invariant batches st -> main st = Returned None ->
  map jobOf (senders st) = batches /\
  pending st = [] /\
  Forall (fun s => exists job, s = Done job None) (senders st) /\
  totalSent st = list_sum (map (dBatchSize _ _) batches).
Proof.
  intros [Ij Ip Ic It Ie Ir If Is Iw Id In0] Hm.
  assert (Hp : pending st = []) by (apply Iw; now right; right).
  rewrite Hp, app_nil_r in Ij.
  assert (Hnf : ~ anyFailed (senders st)).
  { intros Hf. destruct (If Hf) as [Hne | [e He]]; [now apply Hne, In0 |].
    rewrite Hm in He. discriminate. }
  destruct (all_sent (senders st) (Id (or_intror Hm)) Hnf) as [Hall Hsum].
  repeat split; try assumption. now rewrite It, Hsum, Ij.
Qed.

(** *** No run stops before the function returns *)

Lemma done_or_not (l : list Sender) :
  Forall isDone l \/ exists i s, l !! i = Some s /\ ~ isDone s.
Proof.
  induction l as [|s l [IH | (i & x & Hi & Hx)]].
  - left. constructor.
  - destruct s as [job | job | job r | job r | job r];
      try (right; exists 0%nat; eexists; split; [reflexivity |];
           intros (j & r' & H); discriminate).
    left. constructor; [now exists job, r | exact IH].
  - right. exists (S i), x. split; assumption.
Qed.

Lemma permit_holder (l : list Sender) :
  (1 <= total permit l)%nat ->
  exists i, (exists job, l !! i = Some (Sending job)) \/
            (exists job r, l !! i = Some (Releasing job r)).
Proof.
  unfold total. induction l as [|s l IH]; [cbn; lia |].
  intros H.
  destruct s as [job | job | job r | job r | job r];
    try (simpl in H; destruct (IH ltac:(lia)) as [i Hi]; exists (S i); exact Hi).
  - exists 0%nat. left. exists job. reflexivity.
  - exists 0%nat. right. exists job, r. reflexivity.
Qed.

Lemma sender_progress (st : State) :
  (1 <= maxConcurrent)%nat ->
  total permit (senders st) = sem st ->
  (exists i s, senders st !! i = Some s /\ ~ isDone s) ->
  exists st', Step st st'.
Proof.
  intros Hcap Hperm (i & s & Hi & Hs).
  assert (Hholder : (1 <= sem st)%nat -> exists st', Step st st').
  { intros Hsem. rewrite <- Hperm in Hsem.
    destruct (permit_holder _ Hsem) as [j [[job Hj] | (job & r & Hj)]].
    - eexists. now apply (step_sent _ _ _ _ st j job).
    - destruct (sem st) as [|n] eqn:E; [lia |].
      eexists. now apply (step_release _ _ _ _ st j job r n). }
  destruct s as [job | job | job r | job r | job r].
  - destruct (Nat.lt_ge_cases (sem st) maxConcurrent) as [Hlt | Hge].
    + eexists. now apply (step_acquire _ _ _ _ st i job).
    + apply Hholder. lia.
  - eexists. now apply (step_sent _ _ _ _ st i job).
  - apply Hholder. rewrite <- Hperm.
    pose proof (total_insert permit _ i _ (Exiting job r) Hi) as E. cbn [permit] in E. lia.
  - eexists. now apply (step_done _ _ _ _ st i job r).
  - exfalso. apply Hs. now exists job, r.
Qed.

Lemma pool_progress (batches : list Batch) (st : State) :
  (1 <= maxConcurrent)%nat ->
  invariant batches st ->
  (forall r, main st <> Returned r) ->
  exists st', Step st st'.
Proof.
  intros Hcap [Ij Ip Ic It Ie Ir If Is Iw Id In0] Hrun.
  destruct (main st) as [| | | |r] eqn:Hm.
  - destruct (pending st) as [|d rest] eqn:Hp.
    + eexists. now apply step_loops_end.
    + destruct (errChan st) as [err|] eqn:He.
      * eexists. now apply (step_poll_error _ _ _ _ st d rest err).
      * eexists. now apply (step_poll_empty _ _ _ _ st d rest).
  - destruct (pending st) as [|d rest] eqn:Hp; [now destruct (Is eq_refl) |].
    eexists. now apply (step_spawn _ _ _ _ st d rest).
  - destruct (done_or_not (senders st)) as [Hd | Hnd].
    + eexists. now apply step_wait.
    + now apply sender_progress.
  - destruct (errChan st) as [err|] eqn:He.
    + eexists. now apply (step_check_error _ _ _ _ st err).
    + eexists. now apply step_check_nil.
  - now destruct (Hrun r).
Qed.

(** *** Every run is finite *)

Definition senderSteps (s : Sender) : nat :=
  match s with
  | Acquiring _ => 4
  | Sending _ => 3
  | Releasing _ _ => 2
  | Exiting _ _ => 1
  | Done _ _ => 0
  end.

(** The steps a run can still make: two of the main goroutine and four
    of its sender for every batch to hand out, three of the main
    goroutine after the loops, and those of the senders started. *)
Definition measure (st : State) : nat :=
  (match main st with
   | Polling => 6 * List.length (pending st) + 3
   | Spawning => 6 * List.length (pending st) + 2
   | Waiting => 2
   | Checking => 1
   | Returned _ => 0
   end + total senderSteps (senders st))%nat.

Lemma pool_step_measure (st st' : State) : Step st st' -> (S (measure st') <= measure st)%nat.
Proof.
  intros H. unfold measure. step_cases H;
    try (rewrite Hm; lia);
    try (rewrite Hm, Hp; cbn [List.length]; lia).
  - rewrite Hm, Hp, total_snoc. cbn [List.length senderSteps]. lia.
  - pose proof (total_insert senderSteps _ i _ (Sending job) Hi) as E.
    cbn [senderSteps] in E. lia.
  - pose proof (total_insert senderSteps _ i _ (Releasing job None) Hi) as E.
    cbn [senderSteps] in E. lia.
  - pose proof (total_insert senderSteps _ i _ (Releasing job (Some err)) Hi) as E.
    cbn [senderSteps] in E. lia.
  - pose proof (total_insert senderSteps _ i _ (Exiting job r) Hi) as E.
    cbn [senderSteps] in E. lia.
  - pose proof (total_insert senderSteps _ i _ (Done job r) Hi) as E.
    cbn [senderSteps] in E. lia.
Qed.

Lemma pool_nsteps_measure (n : nat) (st st' : State) :
  nsteps Step n st st' -> (n + measure st' <= measure st)%nat.
Proof.
  induction 1 as [|n x y z Hxy _ IH]; [lia |].
  apply pool_step_measure in Hxy. lia.
Qed.

(** *** A pool without permits *)

Definition isAcquiring (s : Sender) : Prop := exists job, s = Acquiring job.

Record starved (st : State) : Prop := {
  starved_senders : Forall isAcquiring (senders st);
  starved_errChan : errChan st = None;
  starved_main : main st = Polling \/ main st = Spawning \/ main st = Waiting
}.

Lemma starved_lookup (st : State) (i : nat) (s : Sender) :
  starved st -> senders st !! i = Some s -> isAcquiring s.
Proof.
  intros [Hs _ _] Hi. rewrite Forall_forall in Hs. apply Hs.
  now apply list_elem_of_lookup_2 in Hi.
Qed.

(** With senders that are all waiting for a permit, and one of them at
    least, [wg.Wait()] does not return. *)
Lemma starved_wait (batches : list Batch) (st : State) :
  batches <> [] -> invariant batches st -> starved st ->
  pending st = [] -> ~ Forall isDone (senders st).
Proof.
  intros Hne I Hst Hp Hd. destruct I as [Ij _ _ _ _ _ _ _ _ _ _].
  rewrite Hp, app_nil_r in Ij.
  destruct (senders st) as [|s l] eqn:E; [now subst batches |].
  destruct (starved_lookup st 0 s Hst) as [job ->]; [now rewrite E |].
  inversion Hd as [|? ? (j & r & H) _]. discriminate.
Qed.

Lemma starved_step (batches : list Batch) (st st' : State) :
  maxConcurrent = 0%nat -> batches <> [] ->
  invariant batches st -> starved st -> Step st st' -> starved st'.
Proof.
  intros Hzero Hne I Hst H.
  pose proof (starved_lookup st) as Hl. specialize (fun i s => Hl i s Hst).
  pose proof (starved_wait batches st Hne I Hst) as Hw.
  destruct I as [Ij Ip Ic It Ie Ir If Is Iw Id In0].
  destruct Hst as [Hs He0 Hm0].
  step_cases H.
  - constructor; cbn; auto.
  - congruence.
  - constructor; cbn; auto.
    apply Forall_app. split; [assumption |]. constructor; [now exists d | constructor].
  - constructor; cbn; auto.
  - now destruct (Hw (Iw (or_introl Hm))).
  - congruence.
  - destruct Hm0 as [H | [H | H]]; congruence.
  - lia.
  - destruct (Hl i _ Hi) as [j H]. discriminate.
  - destruct (Hl i _ Hi) as [j H]. discriminate.
  - destruct (Hl i _ Hi) as [j H]. discriminate.
  - destruct (Hl i _ Hi) as [j H]. discriminate.
Qed.

Lemma starved_run (batches : list Batch) (st : State) :
  maxConcurrent = 0%nat -> batches <> [] ->
  rtc Step (init batches) st -> invariant batches st /\ starved st.
Proof.
  intros Hcap Hne H.
  apply rtc_ind_r with (x := init batches)
    (P := fun st => invariant batches st /\ starved st) in H; [exact H | |].
  - split; [apply invariant_initial |]. constructor; cbn; auto. 
  - intros y z _ Hstep [Iy Sy]. split; [now apply (invariant_step batches y z) |].
    now apply (starved_step batches y z).
Qed.

(** The main goroutine hands out every batch and comes to [wg.Wait()]. *)
Lemma spawn_all (pend : list Batch) :
  forall (sndrs : list Sender) (n : nat) (e : option (batchError SendError)) (t : nat),
    e = None ->
    rtc Step
      {| main := Polling; pending := pend; senders := sndrs; sem := n;
         errChan := e; totalSent := t |}
      {| main := Waiting; pending := [];
         senders := (sndrs ++ map Acquiring pend)%list; sem := n;
         errChan := e; totalSent := t |}.
Proof.
  induction pend as [|d rest IH]; intros sndrs n e t ->.
  - cbn [map]. rewrite app_nil_r. apply rtc_once.
    now apply (step_loops_end _ _ _ _
                 {| main := Polling; pending := []; senders := sndrs; sem := n;
                    errChan := None; totalSent := t |}).
  - eapply rtc_l.
    { now apply (step_poll_empty _ _ _ _
                   {| main := Polling; pending := d :: rest; senders := sndrs; sem := n;
                      errChan := None; totalSent := t |} d rest). }
    cbn [main pending senders sem errChan totalSent].
    eapply rtc_l.
    { now apply (step_spawn _ _ _ _
                   {| main := Spawning; pending := d :: rest; senders := sndrs; sem := n;
                      errChan := None; totalSent := t |} d rest). }
    cbn [main pending senders sem errChan totalSent].
    specialize (IH (sndrs ++ [Acquiring d])%list n None t eq_refl).
    rewrite <- List.app_assoc in IH. exact IH.
Qed.

Lemma inCall_permit (l : list Sender) : (total inCall l <= total permit l)%nat.
Proof.
  unfold total. induction l as [|s l IH]; [simpl; lia |].
  simpl. destruct s; simpl; lia.
Qed.

(** Whatever the interleaving of the main goroutine and the
    senders, in every state of a run over [batches]: the permits taken
    from [sem] are those of the senders between their [sem <- struct{}{}]
    and their [<-sem], never more than the capacity, so that no more
    than [maxConcurrent] calls of [sendWithRetry] are under way; the
    senders started are one for each of the first batches, in order, and
    the batches still to hand out are the others; [totalSent] is the
    number of records of the batches whose call has returned [nil]; and
    an error on [errChan] is the error of a sender that has failed,
    with the number of its batch. *)
Theorem convertAndSend_pool_invariants (batches : list Batch) (st : State) :
  rtc (step OTelAttribute OTelLogRecord SendError maxConcurrent)
      (initial OTelAttribute OTelLogRecord SendError batches) st ->
  (total permit (senders st) = sem st /\
   (sem st <= maxConcurrent)%nat /\
   (total inCall (senders st) <= maxConcurrent)%nat) /\
  (map jobOf (senders st) = take (List.length (senders st)) batches /\
   pending st = drop (List.length (senders st)) batches) /\
  totalSent st = total sentSize (senders st) /\
  (forall e, errChan st = Some e -> failedIn (senders st) e).
Proof.
  intros Hrun. destruct (invariant_run batches st Hrun) as [Ij Ip Ic It Ie Ir If Is Iw Id In0].
  split; [| split; [| split]]; try assumption.
  - split; [assumption |]. split; [assumption |].
    pose proof (inCall_permit (senders st)). lia.
  - rewrite <- Ij. rewrite <- (length_map jobOf (senders st)).
    now rewrite take_app_length, drop_app_length.
Qed.

(** What the value returned tells. When [convertAndSend] returns
    [nil], every batch has been handed to a sender, every sender has
    finished, every call of [sendWithRetry] has returned [nil], and
    [totalSent] is the number of records of all the batches. When it
    returns an error, a sender has failed: the error is the one its call
    of [sendWithRetry] returned, with the number of its batch. *)
Theorem convertAndSend_pool_result (batches : list Batch) (st : State)
    (r : option (batchError SendError)) :
  rtc (step OTelAttribute OTelLogRecord SendError maxConcurrent)
      (initial OTelAttribute OTelLogRecord SendError batches) st ->
  main st = Returned r ->
  match r with
  | None =>
      map jobOf (senders st) = batches /\
      pending st = [] /\
      Forall (fun s => exists job, s = Done job None) (senders st) /\
      totalSent st = list_sum (map (dBatchSize _ _) batches)
  | Some e =>
      exists s, In s (senders st) /\
                resultOf s = Some (Some (cause e)) /\
                dBatchID _ _ (jobOf s) = failedBatch e
  end.
Proof.
  intros Hrun Hm. pose proof (invariant_run batches st Hrun) as I.
  destruct r as [e|].
  - now apply (inv_returned _ _ I).
  - now apply returned_nil.
Qed.

(** With a permit or more, no run stops before [convertAndSend]
    has returned: in every state of a run in which it has not, a
    goroutine can make a step. And every run is finite, of no more than
    [6 * N + 3] steps for [N] batches, whatever the capacity. So every
    run comes to a return. *)
Theorem convertAndSend_pool_returns (batches : list Batch) :
  (1 <= maxConcurrent)%nat ->
  (forall st : State,
     rtc (step OTelAttribute OTelLogRecord SendError maxConcurrent)
         (initial OTelAttribute OTelLogRecord SendError batches) st ->
     (forall r, main st <> Returned r) ->
     exists st', step OTelAttribute OTelLogRecord SendError maxConcurrent st st')
  /\
  (forall (n : nat) (st : State),
     nsteps (step OTelAttribute OTelLogRecord SendError maxConcurrent) n
            (initial OTelAttribute OTelLogRecord SendError batches) st ->
     (n <= 6 * List.length batches + 3)%nat).
Proof.
  intros Hcap. split.
  - intros st Hrun Hnot.
    exact (pool_progress batches st Hcap (invariant_run batches st Hrun) Hnot).
  - intros n st Hrun. apply pool_nsteps_measure in Hrun.
    unfold measure at 2 in Hrun. cbn in Hrun. unfold total in Hrun. cbn in Hrun. lia.
Qed.

(** With [maxConcurrent = 0] the channel [sem] has no buffer and
    nobody receives from it: no sender ever gets a permit. When there is
    a batch to send, [convertAndSend] never returns: the main goroutine
    can hand out every batch and come to [wg.Wait()], and there no
    goroutine can make a step. *)
Theorem convertAndSend_pool_blocks (batches : list Batch) :
  maxConcurrent = 0%nat -> batches <> [] ->
  (forall st : State,
     rtc (step OTelAttribute OTelLogRecord SendError maxConcurrent)
         (initial OTelAttribute OTelLogRecord SendError batches) st ->
     (forall r, main st <> Returned r) /\
     (main st = Waiting ->
      forall st', ~ step OTelAttribute OTelLogRecord SendError maxConcurrent st st'))
  /\
  (exists st : State,
     rtc (step OTelAttribute OTelLogRecord SendError maxConcurrent)
         (initial OTelAttribute OTelLogRecord SendError batches) st /\
     main st = Waiting /\
     senders st = map Acquiring batches).
Proof.
  intros Hzero Hne. split.
  - intros st Hrun. destruct (starved_run batches st Hzero Hne Hrun) as [I Hst].
    split.
    + intros r Hr. destruct Hst as [_ _ [H | [H | H]]]; congruence.
    + intros Hwaiting st' Hstep.
      pose proof (starved_lookup st) as Hl. specialize (fun i s => Hl i s Hst).
      pose proof (starved_wait batches st Hne I Hst
                    (inv_waiting _ _ I (or_introl Hwaiting))) as Hw.
      step_cases Hstep; try congruence; try lia;
        try (destruct (Hl i _ Hi) as [j H]; discriminate).
      now apply Hw.
  - eexists. split; [apply (spawn_all batches [] 0 None 0 eq_refl) |].
    split; reflexivity.
Qed.

End Spec.

(** One batch of two records, and the run in which it is sent: the main
    goroutine finds nothing on [errChan], starts the sender and comes to
    [wg.Wait()]; the sender takes a permit, its call returns [nil], it
    gives the permit back and finishes; the main goroutine returns
    [nil]. *)
Definition oneBatch : dispatched string string :=
  {| dPayload := buildPayload string string ["cloud.provider=aws"] ["r1"; "r2"];
     dBatchID := 1;
     dBatchSize := 2 |}.

Definition sentState : state string string unit :=
  {| main := Returned None; pending := []; senders := [Done oneBatch None];
     sem := 0; errChan := None; totalSent := 2 |}.

Lemma oneBatch_sent : rtc (step string string unit 1) (initial string string unit [oneBatch]) sentState.
Proof.
  unfold initial, sentState.
  eapply rtc_l; [eapply (step_poll_empty _ _ _ _ _ oneBatch []); reflexivity |]. cbn.
  eapply rtc_l; [eapply (step_spawn _ _ _ _ _ oneBatch []); reflexivity |]. cbn.
  eapply rtc_l; [eapply (step_acquire _ _ _ _ _ 0 oneBatch); [reflexivity | cbn; lia] |]. cbn.
  eapply rtc_l; [eapply (step_sent _ _ _ _ _ 0 oneBatch); reflexivity |]. cbn.
  eapply rtc_l; [eapply (step_release _ _ _ _ _ 0 oneBatch None 0); reflexivity |]. cbn.
  eapply rtc_l; [eapply (step_done _ _ _ _ _ 0 oneBatch None); reflexivity |]. cbn.
  eapply rtc_l; [eapply step_loops_end; reflexivity |]. cbn.
  eapply rtc_l; [eapply step_wait; [reflexivity | cbn] |].
  { apply List.Forall_cons; [now exists oneBatch, None | apply List.Forall_nil]. }
  cbn.
  eapply rtc_l; [eapply step_check_nil; reflexivity |]. cbn.
  apply rtc_refl.
Defined.

(** The run in which the call fails: the error is on [errChan] when the
    main goroutine comes to its last [select]. *)
Definition failedState : state string string unit :=
  {| main := Returned (Some {| failedBatch := 1; cause := tt |}); pending := [];
     senders := [Done oneBatch (Some tt)];
     sem := 0; errChan := None; totalSent := 0 |}.

Lemma oneBatch_failed :
  rtc (step string string unit 1) (initial string string unit [oneBatch]) failedState.
Proof.
  unfold initial, failedState.
  eapply rtc_l; [eapply (step_poll_empty _ _ _ _ _ oneBatch []); reflexivity |]. cbn.
  eapply rtc_l; [eapply (step_spawn _ _ _ _ _ oneBatch []); reflexivity |]. cbn.
  eapply rtc_l; [eapply (step_acquire _ _ _ _ _ 0 oneBatch); [reflexivity | cbn; lia] |]. cbn.
  eapply rtc_l; [eapply (step_failed _ _ _ _ _ 0 oneBatch tt); reflexivity |]. cbn.
  eapply rtc_l; [eapply (step_release _ _ _ _ _ 0 oneBatch (Some tt) 0); reflexivity |]. cbn.
  eapply rtc_l; [eapply (step_done _ _ _ _ _ 0 oneBatch (Some tt)); reflexivity |]. cbn.
  eapply rtc_l; [eapply step_loops_end; reflexivity |]. cbn.
  eapply rtc_l; [eapply step_wait; [reflexivity | cbn] |].
  { apply List.Forall_cons; [now exists oneBatch, (Some tt) | apply List.Forall_nil]. }
  cbn.
  eapply rtc_l;
    [eapply (step_check_error _ _ _ _ _ {| failedBatch := 1; cause := tt |}); reflexivity |].
  cbn. apply rtc_refl.
Defined.

Lemma convertAndSend_pool_invariants_witness :
  (total string string unit (inCall string string unit) (senders sentState) <= 1)%nat /\
  map (jobOf string string unit) (senders sentState) = [oneBatch].
Proof.
  destruct (convertAndSend_pool_invariants string string unit 1 [oneBatch] sentState
              oneBatch_sent) as ((_ & _ & Hcall) & (Hjobs & _) & _).
  split; [exact Hcall | exact Hjobs].
Defined.

Lemma convertAndSend_pool_result_witness :
  totalSent sentState = 2%nat /\
  exists s, In s (senders failedState) /\
            resultOf string string unit s = Some (Some tt) /\
            dBatchID _ _ (jobOf string string unit s) = 1%nat.
Proof.
  split.
  - destruct (convertAndSend_pool_result string string unit 1 [oneBatch] sentState None
                oneBatch_sent eq_refl) as (_ & _ & _ & Htotal).
    exact Htotal.
  - exact (convertAndSend_pool_result string string unit 1 [oneBatch] failedState
             (Some {| failedBatch := 1; cause := tt |}) oneBatch_failed eq_refl).
Defined.

Lemma convertAndSend_pool_returns_witness :
  exists st', step string string unit 1 (initial string string unit [oneBatch]) st'.
Proof.
  apply (proj1 (convertAndSend_pool_returns string string unit 1 [oneBatch] ltac:(lia))
           (initial string string unit [oneBatch]) (rtc_refl _ _)).
  intros r. discriminate.
Defined.

Lemma convertAndSend_pool_blocks_witness :
  exists st : state string string unit,
    rtc (step string string unit 0) (initial string string unit [oneBatch]) st /\
    main st = Waiting /\
    senders st = [Acquiring oneBatch].
Proof.
  apply (proj2 (convertAndSend_pool_blocks string string unit 0 [oneBatch] eq_refl
                  ltac:(discriminate))).
Defined.

End DeliverySpec.
